(** * Folder remarks kept in desktop.ini

    A shallow embedding of the remark engine of the repository
    ([core/utils.py], [core/ini_service.py], [core/single_instance.py] and
    the batch save of [ui/main_window.py]) together with the properties its
    specification states about it.

    Layout of the development:
    - [Py]            Python values the code manipulates: [str] as a sequence
                      of code points, [bytes], exceptions, ordered dicts;
    - [Codec]         the text layer of [Path.read_text] / [open(.., "w")]:
                      utf-16, utf-8-sig, newline translation;
    - [ConfigParser]  the part of the standard [configparser] module the
                      engine calls (CPython 3.13 behaviour);
    - [Utils], [Service], [MainWindow], [SingleInstance]
                      the repository's own functions, one definition per
                      source function;
    - the vocabulary of the properties: the predicates, the documents the
                      engine produces and the sample inputs the theorems
                      speak of;
    - the theorems, grouped by the property they settle.

    The file system is a finite map from paths to nodes.  Attribute bits are
    stored on the nodes and are not interpreted by the modelled system calls:
    an existing regular file can always be read, truncated and unlinked. *)

From Stdlib Require Import ZArith NArith List String Ascii Lia.
From stdpp Require Import base numbers list option gmap sorting.

Set Default Proof Using "Type".
Local Open Scope N_scope.

(* ===================================================================== *)
(** ** Python values *)
(* ===================================================================== *)

Module Py.

(** A [str] is a sequence of code points.  Python allows lone surrogates
    (U+D800..U+DFFF) inside a [str]; the codecs below reject them. *)
Definition str := list N.
Definition bytes := list N.

(** String literals of the source, written as Rocq strings. *)
Fixpoint lit (s : string) : str :=
  match s with
  | EmptyString => []
  | String a s' => N_of_ascii a :: lit s'
  end.

Arguments lit : simpl never.

Definition LF : N := 10.
Definition CR : N := 13.
Definition TAB : N := 9.
Definition SPACE : N := 32.
Definition PERCENT : N := 37.

(** Exceptions raised by the modelled code. *)
Inductive exn :=
| FileNotFoundError
| PermissionError
| OtherOSError
| UnicodeDecodeError
| UnicodeEncodeError
| ValueError
| AttributeError
| MissingSectionHeaderError
| DuplicateSectionError
| DuplicateOptionError
| ParsingError
| NoSectionError
| InterpolationSyntaxError
| InterpolationMissingOptionError
| InterpolationDepthError.

#[export] Instance exn_eq_dec : EqDecision exn.
Proof. solve_decision. Defined.

(** [except OSError] catches these. *)
Definition is_OSError (e : exn) : bool :=
  match e with
  | FileNotFoundError | PermissionError | OtherOSError => true
  | _ => false
  end.

Inductive result (A : Type) :=
| Ok (a : A)
| Raise (e : exn).
Arguments Ok {A} a.
Arguments Raise {A} e.

(** [str.isspace] for one character: the code points CPython's
    [_PyUnicode_IsWhitespace] accepts. *)
Definition isspace (c : N) : bool :=
  ((9 <=? c) && (c <=? 13)) || ((28 <=? c) && (c <=? 32))
  || (c =? 0x85) || (c =? 0xA0) || (c =? 0x1680)
  || ((0x2000 <=? c) && (c <=? 0x200A))
  || (c =? 0x2028) || (c =? 0x2029) || (c =? 0x202F)
  || (c =? 0x205F) || (c =? 0x3000).

Fixpoint lstrip (s : str) : str :=
  match s with
  | [] => []
  | c :: s' => if isspace c then lstrip s' else s
  end.

Definition rstrip (s : str) : str := rev (lstrip (rev s)).
Definition strip (s : str) : str := lstrip (rstrip s).

Fixpoint startswith (s prefix : str) : bool :=
  match prefix, s with
  | [], _ => true
  | p :: prefix', c :: s' => (c =? p) && startswith s' prefix'
  | _ :: _, [] => false
  end.

(** [str.lower].  The case mapping is written out for U+0000..U+00FF
    (ASCII and Latin-1 capitals); above that range it is the identity
    here.  No code point outside ASCII lowers to a string made of ASCII
    letters i, n, f, o, t, p, so the test [option.lower() == "infotip"]
    is exact. *)
Definition lower_char (c : N) : N :=
  if (65 <=? c) && (c <=? 90) then c + 32
  else if (192 <=? c) && (c <=? 222) && negb (c =? 215) then c + 32
  else c.

Definition lower (s : str) : str := map lower_char s.

Definition str_eqb (a b : str) : bool := bool_decide (a = b).

(** ['sep'.join(parts)] *)
Fixpoint join (sep : str) (parts : list str) : str :=
  match parts with
  | [] => []
  | [p] => p
  | p :: rest => p ++ sep ++ join sep rest
  end.

(** [s.replace('\n', '\n\t')] as used by [ConfigParser.write]. *)
Fixpoint replace_lf_lftab (s : str) : str :=
  match s with
  | [] => []
  | c :: s' =>
      if c =? LF then LF :: TAB :: replace_lf_lftab s'
      else c :: replace_lf_lftab s'
  end.

(** Iterating over [io.StringIO(text)]: the lines of [text], split after
    every ['\n'].  The terminator is dropped here; every consumer strips
    the line or looks for its first non-blank character only. *)
Fixpoint lines_from (cur : str) (t : str) : list str :=
  match t with
  | [] => match cur with [] => [] | _ => [rev cur] end
  | c :: t' =>
      if c =? LF then rev cur :: lines_from [] t'
      else lines_from (c :: cur) t'
  end.

Definition lines (t : str) : list str := lines_from [] t.

(** *** Ordered dictionaries

    Python dicts keep insertion order and the code depends on it (the
    first matching option wins, sections are written in order), so a
    dict is an association list with unique keys. *)
Abbreviation dict V := (list (str * V)) (only parsing).

Section Dict.
Context {V : Type}.

Fixpoint dict_get (d : dict V) (k : str) : option V :=
  match d with
  | [] => None
  | (k', v) :: d' => if str_eqb k' k then Some v else dict_get d' k
  end.

Definition dict_mem (d : dict V) (k : str) : bool :=
  match dict_get d k with Some _ => true | None => false end.

(** [d[k] = v]: in place when the key exists, appended otherwise. *)
Fixpoint dict_set (d : dict V) (k : str) (v : V) : dict V :=
  match d with
  | [] => [(k, v)]
  | (k', v') :: d' =>
      if str_eqb k' k then (k', v) :: d'
      else (k', v') :: dict_set d' k v
  end.

(** [del d[k]] (the callers test membership first). *)
Fixpoint dict_del (d : dict V) (k : str) : dict V :=
  match d with
  | [] => []
  | (k', v') :: d' =>
      if str_eqb k' k then d' else (k', v') :: dict_del d' k
  end.

Definition dict_keys (d : dict V) : list str := map fst d.

(** [d.update(other)] *)
Definition dict_update (d other : dict V) : dict V :=
  fold_left (fun acc kv => dict_set acc (fst kv) (snd kv)) other d.
End Dict.

End Py.

Import Py.

(* ===================================================================== *)
(** ** Text encodings and newline translation *)
(* ===================================================================== *)

Module Codec.

Definition is_high_surrogate (c : N) : bool := (0xD800 <=? c) && (c <=? 0xDBFF).
Definition is_low_surrogate (c : N) : bool := (0xDC00 <=? c) && (c <=? 0xDFFF).
Definition is_surrogate (c : N) : bool := (0xD800 <=? c) && (c <=? 0xDFFF).

(** Code points a strict codec can encode. *)
Definition encodable_char (c : N) : bool :=
  negb (is_surrogate c) && (c <=? 0x10FFFF).
Definition encodable (s : str) : bool := forallb encodable_char s.

(** *** utf-16 *)

Definition utf16_units (c : N) : option (list N) :=
  if is_surrogate c then None
  else if c <? 0x10000 then Some [c]
  else if c <=? 0x10FFFF then
    let v := c - 0x10000 in
    Some [0xD800 + v / 0x400; 0xDC00 + v mod 0x400]
  else None.

Definition le_bytes (u : N) : bytes := [u mod 256; u / 256].

(** utf-16-le without byte order mark. *)
Fixpoint utf16_le_encode (s : str) : option bytes :=
  match s with
  | [] => Some []
  | c :: s' =>
      match utf16_units c, utf16_le_encode s' with
      | Some us, Some bs => Some (concat (map le_bytes us) ++ bs)
      | _, _ => None
      end
  end.

Definition BOM_LE : bytes := [0xFF; 0xFE].
Definition BOM_BE : bytes := [0xFE; 0xFF].

Fixpoint units_of_bytes (big_endian : bool) (b : bytes) : option (list N) :=
  match b with
  | [] => Some []
  | [_] => None
  | b0 :: b1 :: r =>
      match units_of_bytes big_endian r with
      | Some us =>
          Some ((if big_endian then b0 * 256 + b1 else b0 + 256 * b1) :: us)
      | None => None
      end
  end.

Fixpoint chars_of_units (us : list N) : option str :=
  match us with
  | [] => Some []
  | u :: rest =>
      if is_high_surrogate u then
        match rest with
        | l :: rest' =>
            if is_low_surrogate l then
              match chars_of_units rest' with
              | Some s =>
                  Some (0x10000 + (u - 0xD800) * 0x400 + (l - 0xDC00) :: s)
              | None => None
              end
            else None
        | [] => None
        end
      else if is_low_surrogate u then None
      else
        match chars_of_units rest with
        | Some s => Some (u :: s)
        | None => None
        end
  end.

(** [bytes.decode("utf-16")]: a byte order mark selects the byte order
    and is consumed; without one the native (little-endian) order is
    used. *)
Definition utf16_decode (b : bytes) : option str :=
  match b with
  | 0xFF :: 0xFE :: r => units_of_bytes false r ≫= chars_of_units
  | 0xFE :: 0xFF :: r => units_of_bytes true r ≫= chars_of_units
  | _ => units_of_bytes false b ≫= chars_of_units
  end.

(** *** utf-8 *)

Definition is_cont (b : N) : bool := (0x80 <=? b) && (b <=? 0xBF).

Fixpoint utf8_decode (b : bytes) : option str :=
  match b with
  | [] => Some []
  | b0 :: r =>
      if b0 <? 0x80 then cons b0 <$> utf8_decode r
      else if b0 <? 0xC2 then None
      else if b0 <? 0xE0 then
        match r with
        | b1 :: r1 =>
            if is_cont b1
            then cons ((b0 - 0xC0) * 64 + (b1 - 0x80)) <$> utf8_decode r1
            else None
        | _ => None
        end
      else if b0 <? 0xF0 then
        match r with
        | b1 :: b2 :: r2 =>
            let c := (b0 - 0xE0) * 4096 + (b1 - 0x80) * 64 + (b2 - 0x80) in
            if is_cont b1 && is_cont b2 && (0x800 <=? c) && negb (is_surrogate c)
            then cons c <$> utf8_decode r2
            else None
        | _ => None
        end
      else if b0 <? 0xF5 then
        match r with
        | b1 :: b2 :: b3 :: r3 =>
            let c := (b0 - 0xF0) * 262144 + (b1 - 0x80) * 4096
                     + (b2 - 0x80) * 64 + (b3 - 0x80) in
            if is_cont b1 && is_cont b2 && is_cont b3
               && (0x10000 <=? c) && (c <=? 0x10FFFF)
            then cons c <$> utf8_decode r3
            else None
        | _ => None
        end
      else None
  end.

(** [bytes.decode("utf-8-sig")]: an initial EF BB BF is skipped. *)
Definition utf8_sig_decode (b : bytes) : option str :=
  match b with
  | 0xEF :: 0xBB :: 0xBF :: r => utf8_decode r
  | _ => utf8_decode b
  end.

Definition utf8_char (c : N) : option bytes :=
  if is_surrogate c then None
  else if c <? 0x80 then Some [c]
  else if c <? 0x800 then Some [0xC0 + c / 64; 0x80 + c mod 64]
  else if c <? 0x10000 then
    Some [0xE0 + c / 4096; 0x80 + (c / 64) mod 64; 0x80 + c mod 64]
  else if c <=? 0x10FFFF then
    Some [0xF0 + c / 262144; 0x80 + (c / 4096) mod 64;
          0x80 + (c / 64) mod 64; 0x80 + c mod 64]
  else None.

(** [s.encode("utf-8")] *)
Fixpoint utf8_encode (s : str) : option bytes :=
  match s with
  | [] => Some []
  | c :: s' =>
      match utf8_char c, utf8_encode s' with
      | Some b, Some bs => Some (b ++ bs)
      | _, _ => None
      end
  end.

(** *** Newlines of text-mode files (Windows: [os.linesep] is CR LF) *)

(** Writing translates every LF to CR LF. *)
Fixpoint translate_out (s : str) : str :=
  match s with
  | [] => []
  | c :: s' =>
      if c =? LF then CR :: LF :: translate_out s'
      else c :: translate_out s'
  end.

(** Reading uses universal newlines: CR LF, CR and LF all become LF. *)
Fixpoint universal_newlines (s : str) : str :=
  match s with
  | [] => []
  | c :: s' =>
      if c =? CR then
        LF :: match s' with
              | c' :: s'' =>
                  if c' =? LF then universal_newlines s''
                  else universal_newlines s'
              | [] => []
              end
      else c :: universal_newlines s'
  end.

(** *** A text file opened with [open("w", encoding="utf-16")]

    Every [write] call encodes its argument at once; the first call
    emits the byte order mark.  When a call fails the bytes of the
    earlier calls are what the closed file holds. *)
Definition encode_chunk (first : bool) (chunk : str) : option bytes :=
  match utf16_le_encode (translate_out chunk) with
  | Some b => Some (if first then BOM_LE ++ b else b)
  | None => None
  end.

Fixpoint write_chunks (first : bool) (acc : bytes) (chunks : list str)
  : bytes * option exn :=
  match chunks with
  | [] => (acc, None)
  | ch :: rest =>
      match encode_chunk first ch with
      | Some b => write_chunks false (acc ++ b) rest
      | None => (acc, Some UnicodeEncodeError)
      end
  end.

End Codec.

(* ===================================================================== *)
(** ** The standard [configparser] module, as the engine uses it

    [ConfigParser()] with its defaults: delimiters [=] and [:], comment
    prefixes [#] and [;], no inline comments, [strict=True],
    [empty_lines_in_values=True], [allow_no_value=False],
    [BasicInterpolation], and [optionxform = str] (set by the callers). *)
(* ===================================================================== *)

Module ConfigParser.

(** The parser object: [_defaults] and [_sections]. *)
Record t := mk { defaults : dict str; sections : dict (dict str) }.

Definition empty : t := mk [] [].
Definition DEFAULTSECT : str := lit "DEFAULT".
Definition MAX_INTERPOLATION_DEPTH : nat := 10.

(** *** Reading *)

(** While a text is read the new values are lists of lines; values kept
    from an earlier read are already joined. *)
Inductive rawval :=
| Joined (s : str)
| Lines (l : list str).

Inductive cursor :=
| InDefaults
| InSection (name : str).

Inductive element :=
| ElSection (name : str)
| ElOption (sect opt : str).

#[export] Instance element_eq_dec : EqDecision element.
Proof. solve_decision. Defined.

(** [_ReadState] together with the two dicts of the parser. *)
Record rstate := mkR {
  r_defaults : dict rawval;
  r_sections : dict (dict rawval);
  r_cursect : option cursor;
  r_sectname : option str;
  r_optname : option str;
  r_indent : nat;
  r_added : list element;
  r_errors : bool
}.

Definition OPEN_BRACKET : N := 91.
Definition CLOSE_BRACKET : N := 93.
Definition HASH : N := 35.
Definition SEMICOLON : N := 59.
Definition EQUALS : N := 61.
Definition COLON : N := 58.

(** Split at the last occurrence of [c]. *)
Fixpoint rsplit (c : N) (s : str) : option (str * str) :=
  match s with
  | [] => None
  | x :: s' =>
      match rsplit c s' with
      | Some (a, b) => Some (x :: a, b)
      | None => if x =? c then Some ([], s') else None
      end
  end.

(** [SECTCRE.match]: an opening bracket, a non-empty header taken
    greedily, a closing bracket. *)
Definition sect_match (clean : str) : option str :=
  match clean with
  | c :: body =>
      if c =? OPEN_BRACKET then
        match rsplit CLOSE_BRACKET body with
        | Some (header, _) =>
            match header with [] => None | _ => Some header end
        | None => None
        end
      else None
  | [] => None
  end.

Definition is_delim (c : N) : bool := (c =? EQUALS) || (c =? COLON).

(** Split at the first delimiter. *)
Fixpoint split_delim (s : str) : option (str * str) :=
  match s with
  | [] => None
  | c :: s' =>
      if is_delim c then Some ([], s')
      else match split_delim s' with
           | Some (a, b) => Some (c :: a, b)
           | None => None
           end
  end.

(** [OPTCRE.match]: the shortest option followed by blanks and a
    delimiter; the groups [option] and [value] (the value with the blanks
    after the delimiter skipped). *)
Definition opt_match (clean : str) : option (str * str) :=
  match split_delim clean with
  | Some (a, b) => Some (rstrip a, lstrip b)
  | None => None
  end.

(** [_Line.clean]: empty for a full-line comment, the stripped line
    otherwise. *)
Definition is_comment (line : str) : bool :=
  startswith (strip line) [HASH] || startswith (strip line) [SEMICOLON].

Definition clean (line : str) : str :=
  if is_comment line then [] else strip line.

Definition has_comments (line : str) : bool :=
  negb (str_eqb (strip line) (clean line)).

(** Position of the first non-blank character ([NONSPACECRE.search]). *)
Fixpoint first_nonspace (line : str) : option nat :=
  match line with
  | [] => None
  | c :: l' =>
      if isspace c then S <$> first_nonspace l' else Some 0%nat
  end.

Definition cur_indent_level (line : str) : nat :=
  default 0%nat (first_nonspace line).

Definition truthy (o : option str) : bool :=
  match o with
  | Some (_ :: _) => true
  | _ => false
  end.

(** The dict [st.cursect] refers to. *)
Definition cur_dict (st : rstate) : option (dict rawval) :=
  match r_cursect st with
  | None => None
  | Some InDefaults => Some (r_defaults st)
  | Some (InSection n) => dict_get (r_sections st) n
  end.

Definition cur_store (st : rstate) (d : dict rawval) : rstate :=
  match r_cursect st with
  | None => st
  | Some InDefaults =>
      mkR d (r_sections st) (r_cursect st) (r_sectname st) (r_optname st)
          (r_indent st) (r_added st) (r_errors st)
  | Some (InSection n) =>
      mkR (r_defaults st) (dict_set (r_sections st) n d) (r_cursect st)
          (r_sectname st) (r_optname st) (r_indent st) (r_added st)
          (r_errors st)
  end.

(** [st.cursect[st.optname].append(line)] *)
Definition cur_append (st : rstate) (line : str) : rstate :=
  match cur_dict st, r_optname st with
  | Some d, Some o =>
      match dict_get d o with
      | Some (Lines l) => cur_store st (dict_set d o (Lines (l ++ [line])))
      | _ => st
      end
  | _, _ => st
  end.

Definition set_indent (st : rstate) (n : nat) : rstate :=
  mkR (r_defaults st) (r_sections st) (r_cursect st) (r_sectname st)
      (r_optname st) n (r_added st) (r_errors st).

Definition add_error (st : rstate) : rstate :=
  mkR (r_defaults st) (r_sections st) (r_cursect st) (r_sectname st)
      (r_optname st) (r_indent st) (r_added st) true.

(** [_handle_header] *)
Definition handle_header (st : rstate) (sectname : str)
  : rstate * option exn :=
  if dict_mem (r_sections st) sectname then
    if bool_decide (ElSection sectname ∈ r_added st)
    then (st, Some DuplicateSectionError)
    else (mkR (r_defaults st) (r_sections st) (Some (InSection sectname))
              (Some sectname) None (r_indent st)
              (ElSection sectname :: r_added st) (r_errors st), None)
  else if str_eqb sectname DEFAULTSECT then
    (mkR (r_defaults st) (r_sections st) (Some InDefaults)
         (Some sectname) None (r_indent st) (r_added st) (r_errors st), None)
  else
    (mkR (r_defaults st) (dict_set (r_sections st) sectname [])
         (Some (InSection sectname)) (Some sectname) None (r_indent st)
         (ElSection sectname :: r_added st) (r_errors st), None).

(** [_handle_option] *)
Definition handle_option (st : rstate) (line : str) : rstate * option exn :=
  match opt_match (clean line) with
  | None => (add_error st, None)
  | Some (option, value) =>
      let st1 := match option with [] => add_error st | _ => st end in
      let optname := rstrip option in
      let sectname := default [] (r_sectname st1) in
      if bool_decide (ElOption sectname optname ∈ r_added st1)
      then (mkR (r_defaults st1) (r_sections st1) (r_cursect st1)
                (r_sectname st1) (Some optname) (r_indent st1)
                (r_added st1) (r_errors st1), Some DuplicateOptionError)
      else
        let st2 :=
          mkR (r_defaults st1) (r_sections st1) (r_cursect st1)
              (r_sectname st1) (Some optname) (r_indent st1)
              (ElOption sectname optname :: r_added st1) (r_errors st1) in
        match cur_dict st2 with
        | Some d => (cur_store st2 (dict_set d optname (Lines [strip value])),
                     None)
        | None => (st2, None)
        end
  end.

(** One iteration of the loop of [_read_inner]. *)
Definition read_line (st : rstate) (line : str) : rstate * option exn :=
  match clean line with
  | [] =>
      if negb (has_comments line)
         && bool_decide (r_cursect st ≠ None) && truthy (r_optname st)
      then (cur_append st [], None)
      else (st, None)
  | _ :: _ =>
      let indent := cur_indent_level line in
      if bool_decide (r_cursect st ≠ None) && truthy (r_optname st)
         && (r_indent st <? indent)%nat
      then (cur_append st (clean line), None)
      else
        let st1 := set_indent st indent in
        match sect_match (clean line) with
        | Some header => handle_header st1 header
        | None =>
            match r_cursect st1 with
            | None => (st1, Some MissingSectionHeaderError)
            | Some _ => handle_option st1 line
            end
        end
  end.

Fixpoint read_lines (st : rstate) (ls : list str) : rstate * option exn :=
  match ls with
  | [] => (st, None)
  | l :: ls' =>
      match read_line st l with
      | (st', None) => read_lines st' ls'
      | (st', Some e) => (st', Some e)
      end
  end.

(** [_join_multiline_values] *)
Definition join_value (v : rawval) : str :=
  match v with
  | Joined s => s
  | Lines l => rstrip (join [LF] l)
  end.

Definition join_dict (d : dict rawval) : dict str :=
  map (fun kv => (fst kv, join_value (snd kv))) d.

Definition unjoin_dict (d : dict str) : dict rawval :=
  map (fun kv => (fst kv, Joined (snd kv))) d.

Definition start (p : t) : rstate :=
  mkR (unjoin_dict (defaults p))
      (map (fun s => (fst s, unjoin_dict (snd s))) (sections p))
      None None None 0%nat [] false.

Definition finish (st : rstate) : t :=
  mk (join_dict (r_defaults st))
     (map (fun s => (fst s, join_dict (snd s))) (r_sections st)).

(** [parser.read_string(text)]: the parser after the call (it keeps what
    was read before an exception) and the exception, if any.  A
    [ParsingError] is raised once the whole text has been read. *)
Definition read_string (p : t) (text : str) : t * option exn :=
  match read_lines (start p) (lines text) with
  | (st, Some e) => (finish st, Some e)
  | (st, None) =>
      (finish st, if r_errors st then Some ParsingError else None)
  end.

(** *** Writing *)

(** The [fp.write] calls of [_write_section]. *)
Definition write_item (kv : str * str) : str :=
  fst kv ++ lit " = " ++ replace_lf_lftab (snd kv) ++ [LF].

Definition write_section (name : str) (items : dict str) : list str :=
  ([OPEN_BRACKET] ++ name ++ [CLOSE_BRACKET; LF])
    :: map write_item items ++ [[LF]].

(** [parser.write(fp)], as the sequence of strings passed to [fp.write]. *)
Definition write (p : t) : list str :=
  (match defaults p with
   | [] => []
   | _ => write_section DEFAULTSECT (defaults p)
   end)
  ++ concat (map (fun s => write_section (fst s) (snd s)) (sections p)).

(** *** Interpolation ([BasicInterpolation]) *)

Definition OPEN_PAREN : N := 40.
Definition CLOSE_PAREN : N := 41.
Definition LETTER_s : N := 115.

Definition has_percent (s : str) : bool := existsb (N.eqb PERCENT) s.

(** Split at the first occurrence of [c]. *)
Fixpoint split_first (c : N) (s : str) : option (str * str) :=
  match s with
  | [] => None
  | x :: s' =>
      if x =? c then Some ([], s')
      else match split_first c s' with
           | Some (a, b) => Some (x :: a, b)
           | None => None
           end
  end.

(** [_KEYCRE.match]: a reference of the form percent, open parenthesis,
    non-empty name, close parenthesis, letter s at the start of [s]; the
    name and what follows the reference. *)
Definition key_match (s : str) : option (str * str) :=
  match s with
  | c1 :: c2 :: s' =>
      if (c1 =? PERCENT) && (c2 =? OPEN_PAREN) then
        match split_first CLOSE_PAREN s' with
        | Some (name, c3 :: rest) =>
            match name with
            | [] => None
            | _ => if c3 =? LETTER_s then Some (name, rest) else None
            end
        | _ => None
        end
      else None
  | _ => None
  end.

(** [value.replace('%%', '')] *)
Fixpoint drop_escaped (s : str) : str :=
  match s with
  | [] => []
  | c :: s1 =>
      if c =? PERCENT then
        match s1 with
        | c2 :: s2 =>
            if c2 =? PERCENT then drop_escaped s2 else c :: drop_escaped s1
        | [] => [c]
        end
      else c :: drop_escaped s1
  end.

(** [_KEYCRE.sub('', s)]; [n] bounds the number of steps. *)
Fixpoint drop_keys (n : nat) (s : str) : str :=
  match n with
  | O => s
  | S n' =>
      match s with
      | [] => []
      | c :: s' =>
          match key_match s with
          | Some (_, rest) => drop_keys n' rest
          | None => c :: drop_keys n' s'
          end
      end
  end.

(** [before_set] *)
Definition before_set (value : str) : result str :=
  let tmp := drop_escaped value in
  let tmp := drop_keys (length tmp) tmp in
  if has_percent tmp then Raise ValueError else Ok value.

(** [before_get] / [_interpolate_some]; [lookup] is the mapping the
    references are resolved in.  [depth] counts the levels still allowed,
    [n] bounds the steps over one string. *)
Fixpoint interpolate_some (depth : nat) (lookup : str -> option str)
    (value : str) : result str :=
  match depth with
  | O => Raise InterpolationDepthError
  | S depth' =>
      (fix loop (n : nat) (rest : str) : result str :=
         match n, rest with
         | _, [] => Ok []
         | O, _ => Ok []
         | S n', c :: tl =>
             if negb (c =? PERCENT) then
               match loop n' tl with
               | Ok r => Ok (c :: r)
               | Raise e => Raise e
               end
             else
               match tl with
               | [] => Raise InterpolationSyntaxError
               | c2 :: tl2 =>
                   if c2 =? PERCENT then
                     match loop n' tl2 with
                     | Ok r => Ok (PERCENT :: r)
                     | Raise e => Raise e
                     end
                   else if c2 =? OPEN_PAREN then
                     match key_match rest with
                     | None => Raise InterpolationSyntaxError
                     | Some (var, rest') =>
                         match lookup var with
                         | None => Raise InterpolationMissingOptionError
                         | Some v =>
                             match (if has_percent v
                                    then interpolate_some depth' lookup v
                                    else Ok v) with
                             | Raise e => Raise e
                             | Ok r1 =>
                                 match loop n' rest' with
                                 | Ok r2 => Ok (r1 ++ r2)
                                 | Raise e => Raise e
                                 end
                             end
                         end
                     end
                   else Raise InterpolationSyntaxError
               end
         end) (length value) value
  end.

Definition before_get (lookup : str -> option str) (value : str)
  : result str :=
  interpolate_some MAX_INTERPOLATION_DEPTH lookup value.

(** *** Accessors *)

(** [parser.sections()] *)
Definition sections_list (p : t) : list str := dict_keys (sections p).

(** [parser.has_section(section)] *)
Definition has_section (p : t) (section : str) : bool :=
  dict_mem (sections p) section.

(** [parser.add_section(section)] *)
Definition add_section (p : t) (section : str) : result t :=
  if str_eqb section DEFAULTSECT then Raise ValueError
  else if dict_mem (sections p) section then Raise DuplicateSectionError
  else Ok (mk (defaults p) (dict_set (sections p) section [])).

(** [parser.options(section)]: the keys of the section, then the keys of
    the defaults the section does not have. *)
Definition options (p : t) (section : str) : result (list str) :=
  match dict_get (sections p) section with
  | None => Raise NoSectionError
  | Some opts => Ok (dict_keys (dict_update opts (defaults p)))
  end.

(** The [ChainMap] of [_unify_values]: the section first, then the
    defaults. *)
Definition chain_lookup (sect dflt : dict str) (k : str) : option str :=
  match dict_get sect k with
  | Some v => Some v
  | None => dict_get dflt k
  end.

(** [parser.get(section, option, fallback=fallback)] *)
Definition get (p : t) (section option fallback : str) : result str :=
  match (match dict_get (sections p) section with
         | Some d => Some d
         | None => if str_eqb section DEFAULTSECT then Some [] else None
         end) with
  | None => Ok fallback
  | Some sect =>
      match chain_lookup sect (defaults p) option with
      | None => Ok fallback
      | Some value => before_get (chain_lookup sect (defaults p)) value
      end
  end.

Fixpoint collect {A B} (f : A -> result B) (l : list A) : result (list B) :=
  match l with
  | [] => Ok []
  | a :: l' =>
      match f a with
      | Raise e => Raise e
      | Ok b => match collect f l' with
                | Ok bs => Ok (b :: bs)
                | Raise e => Raise e
                end
      end
  end.

(** [parser.items(section)]: defaults overlaid with the section, every
    value interpolated. *)
Definition items (p : t) (section : str) : result (list (str * str)) :=
  match (match dict_get (sections p) section with
         | Some d => Some d
         | None => if str_eqb section DEFAULTSECT then Some [] else None
         end) with
  | None => Raise NoSectionError
  | Some sect =>
      let d := dict_update (defaults p) sect in
      collect (fun kv =>
                 match before_get (dict_get d) (snd kv) with
                 | Ok v => Ok (fst kv, v)
                 | Raise e => Raise e
                 end) d
  end.

(** The dict [set] and [remove_option] work on. *)
Definition has_option (p : t) (section option : str) : bool :=
  if bool_decide (section = []) || str_eqb section DEFAULTSECT
  then dict_mem (defaults p) option
  else match dict_get (sections p) section with
       | None => false
       | Some d => dict_mem d option || dict_mem (defaults p) option
       end.

Definition update_sectdict (p : t) (section : str)
    (f : dict str -> dict str) : result t :=
  if bool_decide (section = []) || str_eqb section DEFAULTSECT
  then Ok (mk (f (defaults p)) (sections p))
  else match dict_get (sections p) section with
       | None => Raise NoSectionError
       | Some d => Ok (mk (defaults p) (dict_set (sections p) section (f d)))
       end.

(** [parser.set(section, option, value)] *)
Definition set (p : t) (section option value : str) : result t :=
  match (match value with [] => Ok value | _ => before_set value end) with
  | Raise e => Raise e
  | Ok value => update_sectdict p section (fun d => dict_set d option value)
  end.

(** [parser.remove_option(section, option)] *)
Definition remove_option (p : t) (section option : str) : result t :=
  update_sectdict p section
    (fun d => if dict_mem d option then dict_del d option else d).

(** [parser.remove_section(section)] *)
Definition remove_section (p : t) (section : str) : t :=
  if dict_mem (sections p) section
  then mk (defaults p) (dict_del (sections p) section)
  else p.

End ConfigParser.

(* ===================================================================== *)
(** ** The file system and the effects of the engine *)
(* ===================================================================== *)

Module Fs.

(** A path is the sequence of its components. *)
Definition Path := list str.

(** [folder / name] *)
Definition child (folder : Path) (name : str) : Path := folder ++ [name].
Definition parent (p : Path) : Path := removelast p.
(** [path.name] *)
Definition leaf (p : Path) : str := List.last p [].

Inductive node :=
| Dir (attrs : Z)
| File (attrs : Z) (content : bytes).

Definition node_attrs (n : node) : Z :=
  match n with Dir a => a | File a _ => a end.

Definition with_attrs (n : node) (a : Z) : node :=
  match n with Dir _ => Dir a | File _ c => File a c end.

(** The calls that change the file system, in the order they happen. *)
Inductive event :=
| EvSetFileAttributes (p : Path) (attrs : Z)
| EvWrite (p : Path) (content : bytes)
| EvUnlink (p : Path).

(** The file system: its nodes, the calls made so far, and what the
    platform refuses whatever the attributes of a node are: the paths the
    process has no right to write to, create or delete ([write_denied]),
    and the paths whose attributes it may not change ([attrs_denied]:
    access control, or a volume that keeps no such attributes). *)
Record world := mkWorld {
  nodes : gmap Path node;
  events : list event;
  write_denied : gset Path;
  attrs_denied : gset Path
}.

(** Computations of the engine: they read and change the world and
    either return or raise; the world persists when they raise. *)
Definition M (A : Type) : Type := world -> result A * world.

Definition ret {A} (a : A) : M A := fun w => (Ok a, w).
Definition raise {A} (e : exn) : M A := fun w => (Raise e, w).
Definition bind {A B} (m : M A) (k : A -> M B) : M B :=
  fun w =>
    match m w with
    | (Ok a, w') => k a w'
    | (Raise e, w') => (Raise e, w')
    end.
Definition lift {A} (r : result A) : M A := fun w => (r, w).
Definition gets {A} (f : world -> A) : M A := fun w => (Ok (f w), w).

(** [path.exists()] *)
Definition exists_ (w : world) (p : Path) : bool :=
  bool_decide (is_Some (nodes w !! p)).

Definition FILE_ATTRIBUTE_READONLY : Z := 0x1.
Definition FILE_ATTRIBUTE_ARCHIVE : Z := 0x20.
Definition FILE_ATTRIBUTE_NORMAL : Z := 0x80.

(** READONLY, HIDDEN and SYSTEM: a file that carries one of them is not
    opened for writing with [CREATE_ALWAYS]. *)
Definition PROTECTING : Z := 0x7.

(** The attributes [SetFileAttributesW] sets: READONLY, HIDDEN, SYSTEM,
    ARCHIVE, NORMAL, TEMPORARY, OFFLINE and NOT_CONTENT_INDEXED.  The
    others (DIRECTORY, REPARSE_POINT, COMPRESSED, ...) say what the node
    is and stay as they are. *)
Definition SETTABLE : Z := 0x31A7.

(** What a node with the attributes [old] carries once [attrs] have been
    set: the settable bits of [attrs] and the other bits of [old]; NORMAL
    stands only alone. *)
Definition stored_attrs (old attrs : Z) : Z :=
  let v := Z.ldiff (Z.lor (Z.ldiff old SETTABLE) (Z.land attrs SETTABLE))
                   FILE_ATTRIBUTE_NORMAL in
  if (v =? 0)%Z then FILE_ATTRIBUTE_NORMAL else v.

(** The attributes of a file after it has been overwritten: ARCHIVE is
    added to what it carried. *)
Definition overwritten_attrs (old : Z) : Z :=
  Z.ldiff (Z.lor old FILE_ATTRIBUTE_ARCHIVE) FILE_ATTRIBUTE_NORMAL.

(** Results of [ctypes] foreign calls come back as C [int]. *)
Definition to_c_int (x : Z) : Z := ((x + 2 ^ 31) mod 2 ^ 32 - 2 ^ 31)%Z.
(** Integer arguments are masked to 32 bits. *)
Definition to_DWORD (x : Z) : Z := (x mod 2 ^ 32)%Z.

(** [kernel32.GetFileAttributesW]: the attributes, or the DWORD
    0xFFFFFFFF for a path that does not resolve. *)
Definition GetFileAttributesW (w : world) (p : Path) : Z :=
  match nodes w !! p with
  | Some n => to_c_int (node_attrs n)
  | None => to_c_int 0xFFFFFFFF
  end.

(** [kernel32.SetFileAttributesW]: non-zero on success, zero when the
    path does not resolve or the change is refused. *)
Definition SetFileAttributesW (p : Path) (attrs : Z) : M Z :=
  fun w =>
    match nodes w !! p with
    | Some n =>
        if bool_decide (p ∈ attrs_denied w) then (Ok 0%Z, w)
        else
          (Ok 1%Z,
           mkWorld
             (<[p := with_attrs n (stored_attrs (node_attrs n)
                                                (to_DWORD attrs))]> (nodes w))
             (events w ++ [EvSetFileAttributes p (to_DWORD attrs)])
             (write_denied w) (attrs_denied w))
    | None => (Ok 0%Z, w)
    end.

(** [path.read_text(encoding=..)]: decoding, then universal newlines. *)
Definition read_text (w : world) (p : Path) (decode : bytes -> option str)
  : result str :=
  match nodes w !! p with
  | None => Raise FileNotFoundError
  | Some (Dir _) => Raise PermissionError
  | Some (File _ content) =>
      match decode content with
      | Some text => Ok (Codec.universal_newlines text)
      | None => Raise UnicodeDecodeError
      end
  end.

(** A file the platform lets the process open for writing: it carries
    none of READONLY, HIDDEN and SYSTEM. *)
Definition overwritable (attrs : Z) : bool :=
  (Z.land attrs PROTECTING =? 0)%Z.

(** [with path.open("w", encoding="utf-16") as f: <chunks written>].
    Opening creates or truncates the file ([CREATE_ALWAYS]); the
    directory that is to hold it must exist.  The platform refuses to
    open a directory, a file that is read-only, hidden or system, and a
    path the process may not write to: [PermissionError], and nothing
    is changed. *)
Definition write_text_utf16 (p : Path) (chunks : list str) : M unit :=
  fun w =>
    match nodes w !! p with
    | Some (Dir _) => (Raise PermissionError, w)
    | Some (File attrs _) =>
        if negb (overwritable attrs) || bool_decide (p ∈ write_denied w)
        then (Raise PermissionError, w)
        else
          let '(content, err) := Codec.write_chunks true [] chunks in
          (match err with Some e => Raise e | None => Ok tt end,
           mkWorld (<[p := File (overwritten_attrs attrs) content]> (nodes w))
                   (events w ++ [EvWrite p content])
                   (write_denied w) (attrs_denied w))
    | None =>
        match nodes w !! parent p with
        | Some (Dir _) =>
            if bool_decide (p ∈ write_denied w)
            then (Raise PermissionError, w)
            else
              let '(content, err) := Codec.write_chunks true [] chunks in
              (match err with Some e => Raise e | None => Ok tt end,
               mkWorld (<[p := File FILE_ATTRIBUTE_ARCHIVE content]> (nodes w))
                       (events w ++ [EvWrite p content])
                       (write_denied w) (attrs_denied w))
        | _ => (Raise FileNotFoundError, w)
        end
    end.

(** [path.unlink()]: a read-only file is not deleted, nor is a path the
    process may not write to. *)
Definition unlink (p : Path) : M unit :=
  fun w =>
    match nodes w !! p with
    | Some (File attrs _) =>
        if negb (Z.land attrs FILE_ATTRIBUTE_READONLY =? 0)%Z
           || bool_decide (p ∈ write_denied w)
        then (Raise PermissionError, w)
        else
          (Ok tt,
           mkWorld (delete p (nodes w)) (events w ++ [EvUnlink p])
                   (write_denied w) (attrs_denied w))
    | Some (Dir _) => (Raise PermissionError, w)
    | None => (Raise FileNotFoundError, w)
    end.

End Fs.

Import Fs.

Notation "'do' x <- m ; k" := (Fs.bind m (fun x => k))
  (at level 10, x name, m at level 100, k at level 200).
Notation "'run' m ; k" := (Fs.bind m (fun _ => k))
  (at level 10, m at level 100, k at level 200).

(* ===================================================================== *)
(** ** core/constants.py *)
(* ===================================================================== *)

Definition FILE_ATTRIBUTE_HIDDEN : Z := 0x0002.
Definition FILE_ATTRIBUTE_SYSTEM : Z := 0x0004.
Definition INVALID_FILE_ATTRIBUTES : Z := 0xFFFFFFFF.

Definition DEFAULT_SKIP_NAMES : gset str :=
  {[ lit "$RECYCLE.BIN"; lit "System Volume Information" ]}.

(* ===================================================================== *)
(** ** core/utils.py *)
(* ===================================================================== *)

Section Utils.

(** The decoder of the platform's ANSI code page (the [mbcs] codec); it
    depends on the machine the program runs on. *)
Variable mbcs_decode : bytes -> option str.

Definition get_file_attributes (path : Path) : M Z :=
  do attr <- gets (fun w => GetFileAttributesW w path);
  if (attr =? INVALID_FILE_ATTRIBUTES)%Z then raise FileNotFoundError
  else ret attr.

Definition set_file_attributes (path : Path) (attributes : Z) : M unit :=
  do ok <- SetFileAttributesW path attributes;
  if (ok =? 0)%Z then raise OtherOSError else ret tt.

(** The loop of [safe_read_config] over the candidate encodings; the
    same parser object is handed to every attempt. *)
Fixpoint try_encodings (w : world) (ini_path : Path)
    (parser : ConfigParser.t) (encodings : list (bytes -> option str))
  : ConfigParser.t :=
  match encodings with
  | [] => parser
  | decode :: rest =>
      match read_text w ini_path decode with
      | Raise _ => try_encodings w ini_path parser rest
      | Ok text =>
          match ConfigParser.read_string parser text with
          | (parser', None) => parser'
          | (parser', Some _) => try_encodings w ini_path parser' rest
          end
      end
  end.

Definition safe_read_config (w : world) (ini_path : Path)
  : ConfigParser.t :=
  let parser := ConfigParser.empty in
  if negb (exists_ w ini_path) then parser
  else try_encodings w ini_path parser
         [Codec.utf16_decode; Codec.utf8_sig_decode; mbcs_decode].

Definition write_config (ini_path : Path) (parser : ConfigParser.t)
  : M unit :=
  write_text_utf16 ini_path (ConfigParser.write parser).

Definition ensure_folder_system (folder : Path) : M unit :=
  do attributes <- get_file_attributes folder;
  if negb (Z.land attributes FILE_ATTRIBUTE_SYSTEM =? 0)%Z then ret tt
  else set_file_attributes folder (Z.lor attributes FILE_ATTRIBUTE_SYSTEM).

Definition ensure_ini_hidden_system (ini_path : Path) : M unit :=
  do attributes <- get_file_attributes ini_path;
  let target :=
    Z.lor (Z.lor attributes FILE_ATTRIBUTE_HIDDEN) FILE_ATTRIBUTE_SYSTEM in
  if negb (target =? attributes)%Z then set_file_attributes ini_path target
  else ret tt.

(* =================================================================== *)
(** ** core/ini_service.py *)
(* =================================================================== *)

Record FolderRemark := mkFolderRemark {
  name : str;
  path : Path;
  original_remark : str;
  current_remark : str
}.

Record DesktopIniService := mkService { skip_names : gset str }.

(** [DesktopIniService.__init__] *)
Definition init (names : gset str) : DesktopIniService :=
  mkService (set_map lower names).

(** What [os.scandir] and [Path.exists] report about a directory. *)
Record DirEntry := mkEntry {
  entry_name : str;
  entry_is_dir : result bool   (* [entry.is_dir(follow_symlinks=False)] *)
}.

(** [os.scandir(parent)] and the iteration over it: the call raises,
    or the iterator yields its entries and stops, or it yields some
    entries and then raises. *)
Inductive scandir_result :=
| Scan (entries : list DirEntry)
| ScanRaises (e : exn)
| ScanBreaks (entries : list DirEntry) (e : exn).

Record Listing := mkListing {
  ls_exists : Path -> bool;
  ls_scandir : Path -> scandir_result
}.

(** Order of [WindowsPath] values: component by component, without
    regard to case. *)
Fixpoint str_ltb (a b : str) : bool :=
  match a, b with
  | _, [] => false
  | [], _ :: _ => true
  | x :: a', y :: b' => (x <? y) || ((x =? y) && str_ltb a' b')
  end.

Fixpoint parts_ltb (p q : list str) : bool :=
  match p, q with
  | _, [] => false
  | [], _ :: _ => true
  | x :: p', y :: q' => str_ltb x y || (str_eqb x y && parts_ltb p' q')
  end.

Definition path_ltb (p q : Path) : bool :=
  parts_ltb (map lower p) (map lower q).

(** [sorted(..)]: stable, by [<] alone. *)
Fixpoint insert_sorted (x : Path) (l : list Path) : list Path :=
  match l with
  | [] => [x]
  | y :: l' => if path_ltb x y then x :: l else y :: insert_sorted x l'
  end.

Definition sorted (l : list Path) : list Path :=
  fold_left (fun acc x => insert_sorted x acc) l [].

(** The [for entry in entries] loop of [list_subfolders]. *)
Fixpoint scan_entries (self : DesktopIniService) (parent : Path)
    (entries : list DirEntry) (subfolders : list Path)
  : result (list Path) :=
  match entries with
  | [] => Ok subfolders
  | entry :: rest =>
      match entry_is_dir entry with
      | Raise PermissionError => scan_entries self parent rest subfolders
      | Raise e => Raise e
      | Ok false => scan_entries self parent rest subfolders
      | Ok true =>
          if bool_decide (lower (entry_name entry) ∈ skip_names self)
          then scan_entries self parent rest subfolders
          else scan_entries self parent rest
                 (subfolders ++ [child parent (entry_name entry)])
      end
  end.

Definition list_subfolders (self : DesktopIniService) (os : Listing)
    (parent : Path) : result (list Path) :=
  let subfolders := [] in
  if negb (ls_exists os parent) then Ok subfolders
  else
    match ls_scandir os parent with
    | ScanRaises PermissionError => Ok subfolders
    | ScanRaises e => Raise e
    | Scan entries =>
        match scan_entries self parent entries subfolders with
        | Ok subfolders => Ok (sorted subfolders)
        | Raise e => Raise e
        end
    | ScanBreaks entries e =>
        match scan_entries self parent entries subfolders with
        | Ok subfolders =>
            match e with
            | PermissionError => Ok subfolders
            | _ => Raise e
            end
        | Raise e' => Raise e'
        end
    end.

Definition SECTION : str := lit ".ShellClassInfo".
Definition INFOTIP : str := lit "InfoTip".

Definition is_infotip (option : str) : bool :=
  str_eqb (lower option) (lit "infotip").

(** The [for option in parser.options(section)] loop of
    [read_info_tip]. *)
Fixpoint read_info_tip_loop (parser : ConfigParser.t) (opts : list str)
  : result str :=
  match opts with
  | [] => Ok []
  | option :: rest =>
      if is_infotip option
      then ConfigParser.get parser SECTION option []
      else read_info_tip_loop parser rest
  end.

Definition read_info_tip (w : world) (folder : Path) : result str :=
  let ini_path := child folder (lit "desktop.ini") in
  let parser := safe_read_config w ini_path in
  if negb (ConfigParser.has_section parser SECTION) then Ok []
  else
    match ConfigParser.options parser SECTION with
    | Raise e => Raise e
    | Ok opts => read_info_tip_loop parser opts
    end.

(** The loop of [write_info_tip] that removes every case variant of the
    key. *)
Fixpoint remove_infotip_loop (parser : ConfigParser.t) (opts : list str)
  : result ConfigParser.t :=
  match opts with
  | [] => Ok parser
  | option :: rest =>
      if is_infotip option then
        match ConfigParser.remove_option parser SECTION option with
        | Ok parser' => remove_infotip_loop parser' rest
        | Raise e => Raise e
        end
      else remove_infotip_loop parser rest
  end.

Definition write_info_tip (folder : Path) (remark : str) : M unit :=
  do folder_exists <- gets (fun w => exists_ w folder);
  if negb folder_exists then raise FileNotFoundError
  else
    run ensure_folder_system folder;
    let ini_path := child folder (lit "desktop.ini") in
    do parser <- gets (fun w => safe_read_config w ini_path);
    do parser <-
      (if bool_decide (SECTION ∈ ConfigParser.sections_list parser)
       then ret parser
       else lift (ConfigParser.add_section parser SECTION));
    do opts <- lift (ConfigParser.options parser SECTION);
    do parser <- lift (remove_infotip_loop parser opts);
    do parser <-
      (match remark with
       | _ :: _ => lift (ConfigParser.set parser SECTION INFOTIP remark)
       | [] =>
           do parser <-
             (if ConfigParser.has_option parser SECTION INFOTIP
              then lift (ConfigParser.remove_option parser SECTION INFOTIP)
              else ret parser);
           do items <- lift (ConfigParser.items parser SECTION);
           match items with
           | [] => ret (ConfigParser.remove_section parser SECTION)
           | _ :: _ => ret parser
           end
       end);
    match ConfigParser.sections_list parser with
    | [] =>
        do ini_exists <- gets (fun w => exists_ w ini_path);
        if ini_exists then unlink ini_path else ret tt
    | _ :: _ =>
        run write_config ini_path parser;
        ensure_ini_hidden_system ini_path
    end.

(* =================================================================== *)
(** ** ui/main_window.py: the batch save *)
(* =================================================================== *)

(** The state [_save_changes] works on: the rows of the window, keyed by
    path string, and the two report lists.  The list [changed] of the
    source holds references to rows of [rows_by_path]; here a reference
    is the key of the row. *)
Record SaveState := mkSave {
  rows_by_path : dict FolderRemark;
  success_items : list str;
  failed_items : list (str * exn)
}.

Definition is_dirty (row : FolderRemark) : bool :=
  negb (str_eqb (current_remark row) (original_remark row)).

Definition changed_rows (rows : dict FolderRemark) : list str :=
  dict_keys (filter (fun kv => is_dirty (snd kv)) rows).

Definition mark_saved (row : FolderRemark) : FolderRemark :=
  mkFolderRemark (name row) (path row) (current_remark row)
                 (current_remark row).

(** The [for row in changed] loop with its [try] / [except Exception]. *)
Fixpoint save_loop (changed : list str) (st : SaveState) (w : world)
  : SaveState * world :=
  match changed with
  | [] => (st, w)
  | key :: rest =>
      match dict_get (rows_by_path st) key with
      | None => save_loop rest st w
      | Some row =>
          match write_info_tip (path row) (current_remark row) w with
          | (Ok _, w') =>
              save_loop rest
                (mkSave (dict_set (rows_by_path st) key (mark_saved row))
                        (success_items st ++ [name row])
                        (failed_items st))
                w'
          | (Raise exc, w') =>
              save_loop rest
                (mkSave (rows_by_path st) (success_items st)
                        (failed_items st ++ [(name row, exc)]))
                w'
          end
      end
  end.

(** [_save_changes] from its start to the report: the rows and the two
    lists the result dialog is built from, as they are when the dialog is
    shown.  The reload of the window that follows the dialog is in
    [_save_changes_reload] below. *)
Definition _save_changes (rows : dict FolderRemark) (w : world)
  : SaveState * world :=
  let changed := changed_rows rows in
  save_loop changed (mkSave rows [] []) w.

End Utils.

(* ===================================================================== *)
(** ** core/single_instance.py *)
(* ===================================================================== *)

(** Errors of the socket layer; all of them are [OSError]s. *)
Inductive socket_error :=
| ConnectionRefused
| TimedOut
| OtherSocketError.

Definition exn_of_socket_error (e : socket_error) : exn :=
  match e with
  | ConnectionRefused | TimedOut | OtherSocketError => OtherOSError
  end.

(** The rendezvous endpoint as the client sees it: the outcome of
    [socket.create_connection(.., timeout=1)] and of [conn.sendall]. *)
Record Endpoint := mkEndpoint {
  create_connection : option socket_error;
  sendall : bytes -> option socket_error
}.

Definition send_payload (net : Endpoint) (payload : str) : result bool :=
  let body : result unit :=
    match create_connection net with
    | Some e => Raise (exn_of_socket_error e)
    | None =>
        match Codec.utf8_encode payload with
        | None => Raise UnicodeEncodeError
        | Some data =>
            match sendall net data with
            | Some e => Raise (exn_of_socket_error e)
            | None => Ok tt
            end
        end
    end in
  match body with
  | Ok _ => Ok true
  | Raise e => if is_OSError e then Ok false else Raise e
  end.

(* ===================================================================== *)
(** ** ui/dialogs.py *)
(* ===================================================================== *)

(** [str.splitlines()]: the line boundaries of Python, CR LF counting as
    one; no empty last line after a final boundary. *)
Definition is_linebreak (c : N) : bool :=
  ((10 <=? c) && (c <=? 13)) || ((0x1C <=? c) && (c <=? 0x1E))
  || (c =? 0x85) || (c =? 0x2028) || (c =? 0x2029).

Fixpoint splitlines_from (cur : str) (s : str) : list str :=
  match s with
  | [] => match cur with [] => [] | _ :: _ => [rev cur] end
  | c :: s' =>
      if is_linebreak c then
        rev cur ::
          (if c =? CR then
             match s' with
             | c' :: s'' =>
                 if c' =? LF then splitlines_from [] s''
                 else splitlines_from [] s'
             | [] => []
             end
           else splitlines_from [] s')
      else splitlines_from (c :: cur) s'
  end.

Definition splitlines (s : str) : list str := splitlines_from [] s.

Definition HYPHEN : N := 45.
Definition GREATER : N := 62.

(** [s.split("->", 1)] when ["->" in s]: the text before the first arrow
    and the text after it; [None] when [s] holds no arrow. *)
Fixpoint split_arrow (s : str) : option (str * str) :=
  match s with
  | [] => None
  | c :: s' =>
      match s' with
      | c2 :: s'' =>
          if (c =? HYPHEN) && (c2 =? GREATER) then Some ([], s'')
          else match split_arrow s' with
               | Some (a, b) => Some (c :: a, b)
               | None => None
               end
      | [] => None
      end
  end.

(** The message boxes of [parse_mapping_lines]. *)
Inductive notice :=
| MissingArrow (line_no : nat) (line : str)
| EmptyName (line_no : nat) (line : str)
| NoMapping.

(** The [for line in raw_lines] loop of [parse_mapping_lines] and what
    follows it: the mapping returned and the message box shown, if
    any. *)
Fixpoint parse_lines (raw_lines : list str) (line_no : nat)
    (mapping_dict : dict str) : dict str * option notice :=
  match raw_lines with
  | [] =>
      match mapping_dict with
      | [] => ([], Some NoMapping)
      | _ :: _ => (mapping_dict, None)
      end
  | line :: rest =>
      let line_no := S line_no in
      let stripped := strip line in
      match stripped with
      | [] => parse_lines rest line_no mapping_dict
      | _ :: _ =>
          match split_arrow stripped with
          | None => ([], Some (MissingArrow line_no line))
          | Some (name_part, remark_part) =>
              match strip name_part with
              | [] => ([], Some (EmptyName line_no line))
              | _ :: _ =>
                  parse_lines rest line_no
                    (dict_set mapping_dict (strip name_part) remark_part)
              end
          end
      end
  end.

(** [parse_mapping_lines]; [text] is what [text_widget.get("1.0", tk.END)]
    returns. *)
Definition parse_mapping_lines (text : str) : dict str * option notice :=
  parse_lines (splitlines text) 0 [].

(** [f"{name}->{remark}"] for a row [(name, remark, path)]. *)
Definition mapping_line (m : str * str * str) : str :=
  fst (fst m) ++ lit "->" ++ snd (fst m).

(** The text [mapping_dialog] puts into the widget: one line per
    selected row. *)
Definition mapping_text (mappings : list (str * str * str)) : str :=
  join [LF] (map mapping_line mappings).

(* ===================================================================== *)
(** ** ui/table_actions.py and the table of ui/main_window.py

    The table widget is the list of the value tuples of its items, in
    display order, as [table.item(item_id, "values")] returns them. *)
(* ===================================================================== *)

(** [row.current_remark = remark] *)
Definition set_current (row : FolderRemark) (remark : str) : FolderRemark :=
  mkFolderRemark (name row) (path row) (original_remark row) remark.

(** [sync_remark_to_rows]: the table and the rows after the loop over
    the items. *)
Fixpoint sync_remark_to_rows (table : list (list str))
    (rows_by_path : dict FolderRemark) (paths : list str) (remark : str)
  : list (list str) * dict FolderRemark :=
  match table with
  | [] => ([], rows_by_path)
  | values :: rest =>
      match values with
      | v0 :: _ :: path_str :: _ =>
          if bool_decide (path_str ∈ paths) then
            let updated := [v0; remark; path_str] in
            let rows_by_path :=
              match dict_get rows_by_path path_str with
              | Some row =>
                  dict_set rows_by_path path_str (set_current row remark)
              | None => rows_by_path
              end in
            let '(table', rows') :=
              sync_remark_to_rows rest rows_by_path paths remark in
            (updated :: table', rows')
          else
            let '(table', rows') :=
              sync_remark_to_rows rest rows_by_path paths remark in
            (values :: table', rows')
      | _ =>
          let '(table', rows') :=
            sync_remark_to_rows rest rows_by_path paths remark in
          (values :: table', rows')
      end
  end.

Section Window.

Variable mbcs_decode : bytes -> option str.

(** [str(path)] of a [WindowsPath]. *)
Variable path_str : Path -> str.

(** The [for folder in subfolders] loop of [_load_directory]; an
    exception of [read_info_tip] ends it and leaves what was loaded. *)
Fixpoint load_rows (w : world) (subfolders : list Path)
    (table : list (list str)) (rows_by_path : dict FolderRemark)
  : result unit * (list (list str) * dict FolderRemark) :=
  match subfolders with
  | [] => (Ok tt, (table, rows_by_path))
  | folder :: rest =>
      match read_info_tip mbcs_decode w folder with
      | Raise e => (Raise e, (table, rows_by_path))
      | Ok remark =>
          let row := mkFolderRemark (leaf folder) folder remark remark in
          load_rows w rest
            (table ++ [[name row; current_remark row; path_str (path row)]])
            (dict_set rows_by_path (path_str folder) row)
      end
  end.

(** [_load_directory]: the table and [rows_by_path] it leaves. *)
Definition _load_directory (self : DesktopIniService) (os : Listing)
    (w : world) (path : Path)
  : result unit * (list (list str) * dict FolderRemark) :=
  match list_subfolders self os path with
  | Raise e => (Raise e, ([], []))
  | Ok subfolders => load_rows w subfolders [] []
  end.

(** [_save_changes] to its end.  With nothing to save it returns after
    a message box and the window is as it was; otherwise the loop runs,
    the result is shown, and the window is loaded again from the current
    directory when there is one ([self._load_directory(self.current_path)]),
    which replaces the table and the rows the loop worked on. *)
Definition _save_changes_reload (self : DesktopIniService) (os : Listing)
    (current_path : option Path) (table : list (list str))
    (rows : dict FolderRemark) (w : world)
  : result unit * (list (list str) * dict FolderRemark) * world :=
  match changed_rows rows with
  | [] => (Ok tt, (table, rows), w)
  | _ :: _ =>
      let '(st, w') := _save_changes mbcs_decode rows w in
      match current_path with
      | Some path => (_load_directory self os w' path, w')
      | None => (Ok tt, (table, rows_by_path st), w')
      end
  end.

End Window.

(** *** The Apply button of the mapping dialog *)

(** The four lists of the report of [apply_callback]. *)
Record MappingReport := mkReport {
  applied : list str;
  unchanged : list str;
  extra : list str;
  missing : list str
}.

(** [{name: (remark, path) for name, remark, path in mappings}] *)
Definition name_to_info (mappings : list (str * str * str))
  : dict (str * str) :=
  fold_left (fun d m => dict_set d (fst (fst m)) (snd (fst m), snd m))
            mappings [].

(** The [for name, remark in mapping_dict.items()] loop. *)
Fixpoint apply_entries (info : dict (str * str)) (entries : dict str)
    (table : list (list str)) (rows_by_path : dict FolderRemark)
    (report : MappingReport)
  : list (list str) * dict FolderRemark * MappingReport :=
  match entries with
  | [] => (table, rows_by_path, report)
  | (name, remark) :: rest =>
      match dict_get info name with
      | Some (current_remark, path) =>
          if str_eqb remark current_remark then
            apply_entries info rest table rows_by_path
              (mkReport (applied report) (unchanged report ++ [name])
                        (extra report) (missing report))
          else
            let '(table', rows') :=
              sync_remark_to_rows table rows_by_path [path] remark in
            apply_entries info rest table' rows'
              (mkReport (applied report ++ [name]) (unchanged report)
                        (extra report) (missing report))
      | None =>
          apply_entries info rest table rows_by_path
            (mkReport (applied report) (unchanged report)
                      (extra report ++ [name]) (missing report))
      end
  end.

(** [apply_callback] of [_bulk_mapping_dialog]: the table and the rows
    it leaves, and what the user sees: the message box of the parser
    when the mapping is empty, else the report and whether the dialog is
    closed.  [mappings] are the selected rows, [text] is what the text
    widget holds. *)
Inductive apply_outcome :=
| Rejected (shown : option notice)
| Reported (report : MappingReport) (closed : bool).

Definition apply_callback (mappings : list (str * str * str)) (text : str)
    (table : list (list str)) (rows_by_path : dict FolderRemark)
  : list (list str) * dict FolderRemark * apply_outcome :=
  match parse_mapping_lines text with
  | ([], shown) => (table, rows_by_path, Rejected shown)
  | (mapping_dict, _) =>
      let info := name_to_info mappings in
      let '(table', rows', report) :=
        apply_entries info mapping_dict table rows_by_path
          (mkReport [] [] [] []) in
      let missing_names :=
        filter (fun name => negb (dict_mem mapping_dict name))
               (dict_keys info) in
      let report :=
        mkReport (applied report) (unchanged report) (extra report)
                 missing_names in
      (table', rows',
       Reported report
         (match missing_names, extra report with
          | [], [] => true
          | _, _ => false
          end))
  end.

(* ===================================================================== *)
(** ** core/utils.py: [list_drives] *)
(* ===================================================================== *)

Definition NUL : N := 0.

(** [raw.split("\x00")] *)
Fixpoint split_nul_from (cur : str) (s : str) : list str :=
  match s with
  | [] => [rev cur]
  | c :: s' =>
      if c =? NUL then rev cur :: split_nul_from [] s'
      else split_nul_from (c :: cur) s'
  end.

(** [list_drives]; [raw] is [buf[:buf_len]], the characters the call of
    [GetLogicalDriveStringsW] left in the buffer. *)
Definition list_drives (raw : str) : list str :=
  filter (fun item => item ≠ []) (split_nul_from [] raw).

(* ===================================================================== *)
(** ** main.py: [_normalize_path_arg] *)
(* ===================================================================== *)

Definition QUOTE : N := 34.
Definition COLON_CHAR : N := 58.
Definition BACKSLASH : N := 92.

(** [text.strip(..)] with the double quote as the character to strip. *)
Fixpoint lstrip_quote (s : str) : str :=
  match s with
  | [] => []
  | c :: s' => if c =? QUOTE then lstrip_quote s' else s
  end.

Definition strip_quote (s : str) : str :=
  lstrip_quote (rev (lstrip_quote (rev s))).

Section Main.

(** [Path(text).expanduser().resolve()], which depends on the file
    system and the environment, and the text of the warning. *)
Variable resolve : str -> result Path.
Variable warning : str.

Definition _normalize_path_arg (raw : str) : option Path * option str :=
  let text := strip_quote (strip raw) in
  match text with
  | [] => (None, None)
  | _ :: _ =>
      let text :=
        if (length text =? 2)%nat && (List.last text 0 =? COLON_CHAR)
        then text ++ [BACKSLASH] else text in
      match resolve text with
      | Ok p => (Some p, None)
      | Raise _ => (None, Some warning)
      end
  end.

End Main.

(* ===================================================================== *)
(** ** core/single_instance.py: the accepting side *)
(* ===================================================================== *)

(** What becomes of one accepted connection in the loop of [_run]: the
    payload is handed to the handler, nothing is done, or an error is
    logged. *)
Inductive delivery :=
| Delivered (payload : str)
| Ignored
| Logged (e : exn).

(** The body of the loop for one connection, for a handler that is set
    and returns; [data] is what [conn.recv(4096)] returned. *)
Definition handle_connection (data : bytes) : delivery :=
  match Codec.utf8_decode data with
  | None => Logged UnicodeDecodeError
  | Some text =>
      match strip text with
      | [] => Ignored
      | payload => Delivered payload
      end
  end.

(* ===================================================================== *)
(** * Vocabulary of the properties *)
(* ===================================================================== *)

(** ** Enumeration *)

(** [p] does not come after [q] in the order of path values. *)
Definition path_le (p q : Path) : Prop := path_ltb q p = false.

(** ** The parser operations of [write_info_tip] *)

(** The parser object as [write_info_tip] has it when it decides between
    deleting and writing the sidecar: the section ensured, every case
    variant of the key removed, the remark set or the emptied section
    dropped. *)
Definition updated_parser (parser : ConfigParser.t) (remark : str)
  : result ConfigParser.t :=
  match (if bool_decide (SECTION ∈ ConfigParser.sections_list parser)
         then Ok parser
         else ConfigParser.add_section parser SECTION) with
  | Raise e => Raise e
  | Ok parser =>
      match ConfigParser.options parser SECTION with
      | Raise e => Raise e
      | Ok opts =>
          match remove_infotip_loop parser opts with
          | Raise e => Raise e
          | Ok parser =>
              match remark with
              | _ :: _ => ConfigParser.set parser SECTION INFOTIP remark
              | [] =>
                  match (if ConfigParser.has_option parser SECTION INFOTIP
                         then ConfigParser.remove_option parser SECTION INFOTIP
                         else Ok parser) with
                  | Raise e => Raise e
                  | Ok parser =>
                      match ConfigParser.items parser SECTION with
                      | Raise e => Raise e
                      | Ok [] => Ok (ConfigParser.remove_section parser SECTION)
                      | Ok (_ :: _) => Ok parser
                      end
                  end
              end
          end
      end
  end.

(** Removing keys one after the other, as the loop of [write_info_tip]
    does through [remove_option]. *)
Definition remove_keys {V} (d : dict V) (ks : list str) : dict V :=
  fold_left (fun d k => if dict_mem d k then dict_del d k else d) ks d.

(** The options of a section without the case variants of the key. *)
Definition strip_infotip (d : dict str) : dict str :=
  filter (fun kv => is_infotip (fst kv) = false) d.

(** The sections after a remark has been set: every case variant of the
    key is gone from [.ShellClassInfo] and [InfoTip] closes the section;
    the section is appended when the document lacks it. *)
Fixpoint set_tip (secs : dict (dict str)) (r : str) : dict (dict str) :=
  match secs with
  | [] => [(SECTION, [(INFOTIP, r)])]
  | (n, d) :: rest =>
      if str_eqb n SECTION
      then (n, strip_infotip d ++ [(INFOTIP, r)]) :: rest
      else (n, d) :: set_tip rest r
  end.

(** The sections after the remark has been cleared: the key is gone, and
    so is the section when nothing else was in it. *)
Fixpoint clear_tip (secs : dict (dict str)) : dict (dict str) :=
  match secs with
  | [] => []
  | (n, d) :: rest =>
      if str_eqb n SECTION
      then match strip_infotip d with
           | [] => rest
           | d' => (n, d') :: rest
           end
      else (n, d) :: clear_tip rest
  end.

(** No value of the [.ShellClassInfo] section, the remark apart, holds a
    percent sign. *)
Definition section_plain (secs : dict (dict str)) : Prop :=
  ∀ d, (SECTION, d) ∈ secs ->
       Forall (fun kv => ConfigParser.has_percent (snd kv) = false)
              (strip_infotip d).

Definition section_keys_distinct (secs : dict (dict str)) : Prop :=
  ∀ d, (SECTION, d) ∈ secs -> NoDup (dict_keys d).

(** ** The file system *)

(** A world that differs from [w] by attribute changes of [p] alone. *)
Definition attrs_changed (p : Path) (w w1 : world) : Prop :=
  (∀ q, q ≠ p -> nodes w1 !! q = nodes w !! q)
  ∧ (∀ n, nodes w !! p = Some n -> ∃ a, nodes w1 !! p = Some (with_attrs n a))
  ∧ (∃ evs, events w1 = events w ++ evs
            ∧ Forall (fun e => ∃ a, e = EvSetFileAttributes p a) evs)
  ∧ write_denied w1 = write_denied w
  ∧ attrs_denied w1 = attrs_denied w.

(** The platform lets the process delete [p]: the process has the right
    to, and a file at [p] is not read-only. *)
Definition deletable (w : world) (p : Path) : Prop :=
  (p ∉ write_denied w)
  ∧ ∀ a c, nodes w !! p = Some (File a c) ->
           (Z.land a FILE_ATTRIBUTE_READONLY =? 0)%Z = true.

(** The platform lets the process write the file [p]: the process has
    the right to, and a file at [p] is neither read-only nor hidden nor
    system. *)
Definition writable (w : world) (p : Path) : Prop :=
  (p ∉ write_denied w)
  ∧ ∀ a c, nodes w !! p = Some (File a c) -> overwritable a = true.

(** The bytes of the sidecar of a folder, if it has one. *)
Definition sidecar (w : world) (folder : Path) : option bytes :=
  match nodes w !! child folder (lit "desktop.ini") with
  | Some (File _ content) => Some content
  | _ => None
  end.

(** ** The batch save *)

Section BatchVocabulary.

Variable mbcs_decode : bytes -> option str.

(** The attempts the claim speaks of: one call of [write_info_tip] per
    changed entry, in order, every call on the file system the calls
    before it left behind, whether they returned or raised. *)
Inductive attempts :
  list (str * FolderRemark) -> world ->
  list (str * FolderRemark * result unit) -> world -> Prop :=
| attempts_nil w : attempts [] w [] w
| attempts_cons key row rest w r w1 outs w2 :
    write_info_tip mbcs_decode (path row) (current_remark row) w = (r, w1) ->
    attempts rest w1 outs w2 ->
    attempts ((key, row) :: rest) w ((key, row, r) :: outs) w2.

End BatchVocabulary.

(** The names reported as saved, and the names reported as failed with
    the error of the attempt. *)
Fixpoint successes (outs : list (str * FolderRemark * result unit))
  : list str :=
  match outs with
  | [] => []
  | (_, row, Ok _) :: outs' => name row :: successes outs'
  | (_, _, Raise _) :: outs' => successes outs'
  end.

Fixpoint failures (outs : list (str * FolderRemark * result unit))
  : list (str * exn) :=
  match outs with
  | [] => []
  | (_, _, Ok _) :: outs' => failures outs'
  | (_, row, Raise e) :: outs' => (name row, e) :: failures outs'
  end.

(** The row of an entry once its attempt is over. *)
Definition row_after (row : FolderRemark) (r : result unit) : FolderRemark :=
  match r with
  | Ok _ => mark_saved row
  | Raise _ => row
  end.

(** ** Documents the sidecar holds and gives back *)

(** A string with no blank at either end. *)
Definition trimmed (s : str) : Prop :=
  lstrip s = s ∧ rstrip s = s.

Section Documents.

Import ConfigParser.

(** A key that sits on a line of its own and is found again: not empty, no
    blank at either end, not starting like a comment or a section header,
    without delimiter or line feed. *)
Definition key_ok (k : str) : bool :=
  match k with
  | [] => false
  | c :: _ =>
      negb (isspace c) && negb (c =? HASH) && negb (c =? SEMICOLON)
      && negb (c =? OPEN_BRACKET)
  end
  && negb (isspace (List.last k 0))
  && forallb (fun c => negb (is_delim c) && negb (c =? LF)) k.

(** A section name: not empty, without line feed, not the default
    section. *)
Definition name_ok (n : str) : bool :=
  match n with [] => false | _ :: _ => true end
  && forallb (fun c => negb (c =? LF)) n
  && negb (str_eqb n DEFAULTSECT).

Definition no_lf (s : str) : bool := forallb (fun c => negb (c =? LF)) s.

(** The first line of a text and the lines after it. *)
Fixpoint split_lf (s : str) : str * list str :=
  match s with
  | [] => ([], [])
  | c :: s' =>
      let '(l, ls) := split_lf s' in
      if c =? LF then ([], l :: ls) else (c :: l, ls)
  end.

(** The lines [write] produces for one option, for one section and for
    the sections of a document. *)
Definition item_lines (kv : str * str) : list str :=
  let '(v0, vs) := split_lf (snd kv) in
  (fst kv ++ lit " = " ++ v0) :: map (cons TAB) vs.

Definition section_lines (sec : str * dict str) : list str :=
  ([OPEN_BRACKET] ++ fst sec ++ [CLOSE_BRACKET])
    :: flat_map item_lines (snd sec) ++ [[]].

Definition doc_lines (secs : dict (dict str)) : list str :=
  flat_map section_lines secs.

(** What the reader appends to the current value for a continuation
    line. *)
Definition cont_line (line : str) : list str :=
  match clean line with
  | [] => if has_comments line then [] else [[]]
  | cl => [cl]
  end.

(** The lines the reader collects for a written value, and the value it
    makes of them. *)
Definition parsed_lines (v : str) : list str :=
  let '(v0, vs) := split_lf v in
  strip v0 :: flat_map (fun vi => cont_line (TAB :: vi)) vs.

Definition parsed_value (v : str) : str := rstrip (join [LF] (parsed_lines v)).

Definition map_values (f : str -> str) (items : dict str) : dict str :=
  map (fun kv => (fst kv, f (snd kv))) items.

(** The document as the reader returns it after [write]. *)
Definition parsed_sections (secs : dict (dict str)) : dict (dict str) :=
  map (fun sec => (fst sec, map_values parsed_value (snd sec))) secs.

Definition section_ok (sec : str * dict str) : Prop :=
  name_ok (fst sec) = true
  ∧ NoDup (dict_keys (snd sec))
  ∧ Forall (fun kv => key_ok (fst kv) = true) (snd sec).

(** A document without defaults, with well-formed and distinct section
    names and, in every section, well-formed and distinct keys. *)
Definition doc_ok (secs : dict (dict str)) : Prop :=
  NoDup (dict_keys secs) ∧ Forall section_ok secs.

(** Every value of the document is one the reader returns unchanged. *)
Definition stable (secs : dict (dict str)) : Prop :=
  Forall (fun sec =>
            Forall (fun kv => parsed_value (snd kv) = snd kv) (snd sec)) secs.

(** *** States of the reader *)

(** The reader inside section [n], which is the last one read so far. *)
Definition st_open (secs : dict (dict rawval)) (n : str) (d : dict rawval)
    (optname : option str) (added : list element) : rstate :=
  mkR [] (secs ++ [(n, d)]) (Some (InSection n)) (Some n) optname 0%nat
      added false.

(** The options read so far, as the reader holds them. *)
Definition raw_open (items : dict str) : dict rawval :=
  map (fun kv => (fst kv, Lines (parsed_lines (snd kv)))) items.

Definition last_key (items : dict str) : option str :=
  match rev items with
  | [] => None
  | kv :: _ => Some (fst kv)
  end.

(** Every option the reader has registered belongs to a section of
    [names], or is one of [keys] in section [n]. *)
Definition added_ok (names : list str) (n : str) (keys : list str)
    (added : list element) : Prop :=
  ∀ m k, ElOption m k ∈ added -> m ∈ names ∨ (m = n ∧ k ∈ keys).

End Documents.

(** ** The text layer *)

(** Text the sidecar can hold and give back: code points utf-16 encodes,
    and no carriage return (reading would turn it into a line feed). *)
Definition text_ok (s : str) : bool :=
  forallb (fun c => Codec.encodable_char c && negb (c =? CR)) s.

(** The code units and the bytes of an encodable text. *)
Definition units_of (s : str) : list N :=
  flat_map (fun c => default [] (Codec.utf16_units c)) s.

Definition utf16_body (s : str) : bytes :=
  flat_map Codec.le_bytes (units_of s).

(** Every name, key and value of the document is text the sidecar can
    hold. *)
Definition doc_text_ok (secs : dict (dict str)) : Prop :=
  Forall (fun sec =>
            text_ok (fst sec) = true
            ∧ Forall (fun kv => text_ok (fst kv) = true
                                ∧ text_ok (snd kv) = true) (snd sec)) secs.

(** The bytes [write_config] produces for a document. *)
Definition sidecar_bytes (secs : dict (dict str)) : bytes :=
  fst (Codec.write_chunks true []
         (ConfigParser.write (ConfigParser.mk [] secs))).

(** ** Sample inputs *)

(** Sample directory used to exercise the enumeration theorems: a recycle
    bin spelled in mixed case, two ordinary folders, a plain file and an
    entry that cannot be inspected. *)
Module EnumerationSample.

Definition drive : Path := [lit "D:"].

Definition entries : list DirEntry :=
  [ mkEntry (lit "zeta") (Ok true);
    mkEntry (lit "$Recycle.Bin") (Ok true);
    mkEntry (lit "notes.txt") (Ok false);
    mkEntry (lit "locked") (Raise PermissionError);
    mkEntry (lit "Alpha") (Ok true) ].

Definition os : Listing :=
  mkListing (fun p => bool_decide (p = drive)) (fun _ => Scan entries).

Definition service : DesktopIniService := init DEFAULT_SKIP_NAMES.

Definition alpha : Path := child drive (lit "Alpha").
Definition zeta : Path := child drive (lit "zeta").



End EnumerationSample.

(** A primary instance that accepts the connection and reads everything. *)
Definition listening_endpoint : Endpoint := mkEndpoint None (fun _ => None).

(** Folders and their sidecars. *)
Module Samples.

(** The bytes of a text file as an editor saves it in utf-16 with byte
    order mark and CR LF line ends, one entry of [text] per line. *)
Definition utf16_file (text : list str) : bytes :=
  Codec.BOM_LE
  ++ default []
       (Codec.utf16_le_encode
          (Codec.translate_out (concat (map (fun l => l ++ [LF]) text)))).

(** A stand-in for the ANSI code page: every byte is one character. *)
Definition latin1 (b : bytes) : option str := Some b.

Definition docs : Path := [lit "C:"; lit "docs"].
Definition docs_ini : Path := child docs (lit "desktop.ini").
Definition DIRECTORY : Z := 0x10.

(** A folder without sidecar. *)
Definition plain : world := mkWorld {[ docs := Dir DIRECTORY ]} [] ∅ ∅.

(** A sidecar as the shell and this program leave it: hidden and system
    (and archive). *)
Definition with_sidecar (content : bytes) : world :=
  mkWorld {[ docs := Dir DIRECTORY; docs_ini := File 0x26 content ]} [] ∅ ∅.

(** A sidecar as an editor saves it: archive, and no other attribute. *)
Definition with_plain_sidecar (content : bytes) : world :=
  mkWorld {[ docs := Dir DIRECTORY; docs_ini := File 0x20 content ]} [] ∅ ∅.

(** A sidecar that holds two case variants of the key and nothing else. *)
Definition only_infotip : world :=
  with_sidecar
    (utf16_file [lit "[.ShellClassInfo]"; lit "INFOTIP=old";
                 lit "infotip = older"]).

(** The same sidecar, read-only as well. *)
Definition only_infotip_readonly : world :=
  mkWorld {[ docs := Dir DIRECTORY;
             docs_ini := File 0x27
                           (utf16_file [lit "[.ShellClassInfo]";
                                        lit "INFOTIP=old";
                                        lit "infotip = older"]) ]} [] ∅ ∅.

(** The sidecar Windows itself keeps in a known folder: the tip is a
    resource reference. *)
Definition shell_folder : world :=
  with_sidecar
    (utf16_file [lit "[.ShellClassInfo]";
                 lit "InfoTip=@%SystemRoot%\system32\shell32.dll,-12688"]).

(** A sidecar with a line that is neither a section nor an option. *)
Definition stray_line : world :=
  with_sidecar
    (utf16_file [lit "[.ShellClassInfo]"; lit "InfoTip=kept"; lit "stray"]).

(** Two case variants of the key, the first with a percent sign. *)
Definition two_variants : world :=
  with_sidecar
    (utf16_file [lit "[.ShellClassInfo]"; lit "InfoTip=100% sure";
                 lit "infotip=other"]).

(** A sidecar with an icon and a remark under a lower-case key, saved by
    an editor. *)
Definition icon_and_tip : world :=
  with_plain_sidecar
    (utf16_file [lit "[.ShellClassInfo]"; lit "IconResource=C:\icons\docs.ico,0";
                 lit "infotip=old"]).


(** The same volume when the sidecar is there already. *)
Definition sidecar_refused : world :=
  mkWorld {[ docs := Dir DIRECTORY; docs_ini := File 0x20 [] ]} []
          ∅ {[ docs_ini ]}.

(** A folder whose attributes the platform refuses to change. *)
Definition folder_refused : world :=
  mkWorld {[ docs := Dir DIRECTORY ]} [] ∅ {[ docs ]}.

(** The document [safe_read_config] makes of it. *)
Definition icon_and_tip_doc : dict (dict str) :=
  [(lit ".ShellClassInfo",
    [(lit "IconResource", lit "C:\icons\docs.ico,0"); (lit "infotip", lit "old")])].

End Samples.

(** Three edited rows; the folder of the second one is gone. *)
Module BatchSample.

Definition folder (n : string) : Path := [lit "C:"; lit n].

Definition disk : world :=
  mkWorld {[ folder "a" := Dir 0x10%Z; folder "c" := Dir 0x10%Z ]} [] ∅ ∅.

Definition row (n : string) (edited : string) : FolderRemark :=
  mkFolderRemark (lit n) (folder n) [] (lit edited).

Definition rows : dict FolderRemark :=
  [ (lit "C:\a", row "a" "first");
    (lit "C:\b", row "b" "second");
    (lit "C:\c", row "c" "third") ].

End BatchSample.


(** ** What a call of [write_info_tip] may touch *)

(** A call that changes the file system and concerns the folder or its
    sidecar. *)
Definition sidecar_event (folder : Path) (e : event) : Prop :=
  (∃ a, e = EvSetFileAttributes folder a)
  ∨ (∃ a, e = EvSetFileAttributes (child folder (lit "desktop.ini")) a)
  ∨ (∃ c, e = EvWrite (child folder (lit "desktop.ini")) c)
  ∨ e = EvUnlink (child folder (lit "desktop.ini")).

(** The world [w1] differs from [w] at the folder and its sidecar at
    most, by calls that concern them. *)
Definition confined (folder : Path) (w w1 : world) : Prop :=
  (∀ q, q ≠ folder -> q ≠ child folder (lit "desktop.ini") ->
        nodes w1 !! q = nodes w !! q)
  ∧ ∃ evs, events w1 = events w ++ evs ∧ Forall (sidecar_event folder) evs.

(** ** Entries [list_subfolders] returns *)

(** The entry is reported as a directory and its name is not skipped. *)
Definition listed (self : DesktopIniService) (e : DirEntry) : bool :=
  match entry_is_dir e with
  | Ok true => negb (bool_decide (lower (entry_name e) ∈ skip_names self))
  | _ => false
  end.

(** Inspecting the entry returns, or fails for lack of permission. *)
Definition inspectable (e : DirEntry) : Prop :=
  ∀ ex, entry_is_dir e = Raise ex -> ex = PermissionError.

(** ** Lines of the mapping dialog *)

(** A line [parse_mapping_lines] passes over or takes an entry from. *)
Definition line_ok (line : str) : Prop :=
  strip line = []
  ∨ ∃ name_part remark_part,
      split_arrow (strip line) = Some (name_part, remark_part)
      ∧ strip name_part ≠ [].

Definition no_linebreak (s : str) : bool :=
  forallb (fun c => negb (is_linebreak c)) s.

(** A row of the table whose line [name->remark] is read back as it was
    written: a name that is not empty, has no blank at either end and
    holds no arrow; a remark with no blank at its end; no line boundary in
    either. *)
Definition entry_ok (m : str * str * str) : Prop :=
  fst (fst m) ≠ []
  ∧ trimmed (fst (fst m))
  ∧ split_arrow (fst (fst m)) = None
  ∧ rstrip (snd (fst m)) = snd (fst m)
  ∧ no_linebreak (fst (fst m)) = true
  ∧ no_linebreak (snd (fst m)) = true.

(** ** The table and the rows of the window *)

(** The paths the items of the table show in their third column. *)
Definition shown_paths (table : list (list str)) : list str :=
  omap (fun values => values !! 2%nat) table.

(** The item agrees with the row of its path, if there is one: it shows
    the row's current remark. *)
Definition shows (rows : dict FolderRemark) (values : list str) : Prop :=
  match values with
  | _ :: remark :: path_str :: _ =>
      ∀ row, dict_get rows path_str = Some row -> current_remark row = remark
  | _ => True
  end.

Definition table_consistent (table : list (list str))
    (rows : dict FolderRemark) : Prop :=
  Forall (shows rows) table.

(** The rows [rows'] are the rows [rows] up to their current remarks:
    the same keys in the same order, and under every key the same name,
    path and original remark. *)
Definition same_but_current (rows rows' : dict FolderRemark) : Prop :=
  dict_keys rows' = dict_keys rows
  ∧ ∀ k row', dict_get rows' k = Some row' ->
      ∃ row, dict_get rows k = Some row
             ∧ name row' = name row ∧ path row' = path row
             ∧ original_remark row' = original_remark row.

(** ** Drive strings *)

(** The buffer as [GetLogicalDriveStringsW] fills it: every drive string
    followed by a NUL, and [pad] NULs after the last one. *)
Definition drive_strings (drives : list str) (pad : nat) : str :=
  concat (map (fun d => d ++ [NUL]) drives) ++ replicate pad NUL.

(** A drive string: not empty and without NUL. *)
Definition drive_ok (d : str) : Prop := d ≠ [] ∧ NUL ∉ d.

(* ===================================================================== *)
(** * Properties *)
(* ===================================================================== *)

(** ** Enumeration: [list_subfolders] *)

Section Ordering.


Lemma str_ltb_trans (a b c : str) :
  str_ltb a b = true -> str_ltb b c = true -> str_ltb a c = true.
Proof.
  revert b c. induction a as [|x a IH]; intros [|y b] [|z c]; simpl; try done.
  rewrite !orb_true_iff, !andb_true_iff, !N.ltb_lt, !N.eqb_eq.
  intros [Hxy|[-> Hab]] [Hyz|[-> Hbc]]; eauto with lia.
Qed.

Lemma str_ltb_connex (a b : str) :
  str_ltb a b = false -> str_ltb b a = false -> a = b.
Proof.
  revert b. induction a as [|x a IH]; intros [|y b]; simpl; try done.
  rewrite !orb_false_iff, !andb_false_iff, !N.ltb_ge, !N.eqb_neq.
  intros [Hxy Hab] [Hyx Hba].
  assert (x = y) as -> by lia.
  f_equal. apply IH; [destruct Hab|destruct Hba]; done.
Qed.


Lemma parts_ltb_trans (p q r : list str) :
  parts_ltb p q = true -> parts_ltb q r = true -> parts_ltb p r = true.
Proof.
  revert q r. induction p as [|x p IH]; intros [|y q] [|z r]; simpl; try done.
  unfold str_eqb.
  rewrite !orb_true_iff, !andb_true_iff, !bool_decide_eq_true.
  intros [Hxy|[-> Hpq]] [Hyz|[-> Hqr]]; eauto using str_ltb_trans.
Qed.

Lemma parts_ltb_connex (p q : list str) :
  parts_ltb p q = false -> parts_ltb q p = false -> p = q.
Proof.
  revert q. induction p as [|x p IH]; intros [|y q]; simpl; try done.
  unfold str_eqb.
  rewrite !orb_false_iff, !andb_false_iff, !bool_decide_eq_false.
  intros [Hxy Hpq] [Hyx Hqp].
  assert (x = y) as -> by (by apply str_ltb_connex).
  f_equal. apply IH; [destruct Hpq|destruct Hqp]; done.
Qed.

#[export] Instance path_le_trans : Transitive path_le.
Proof.
  intros p q r Hpq Hqr. unfold path_le, path_ltb in *.
  destruct (parts_ltb (map lower r) (map lower p)) eqn:Hrp; [|done].
  destruct (parts_ltb (map lower p) (map lower q)) eqn:Hlt.
  - rewrite (parts_ltb_trans _ _ _ Hrp Hlt) in Hqr. done.
  - rewrite <- (parts_ltb_connex _ _ Hlt Hpq) in Hqr. congruence.
Qed.


Lemma insert_sorted_elem (x y : Path) (l : list Path) :
  x ∈ insert_sorted y l <-> x = y ∨ x ∈ l.
Proof.
  induction l as [|z l IH]; simpl.
  - rewrite list_elem_of_singleton, elem_of_nil. tauto.
  - destruct (path_ltb y z); rewrite !elem_of_cons; [tauto|].
    rewrite IH. tauto.
Qed.





Lemma sorted_from_elem (x : Path) (l acc : list Path) :
  x ∈ fold_left (fun acc x => insert_sorted x acc) l acc <-> x ∈ l ∨ x ∈ acc.
Proof.
  revert acc. induction l as [|y l IH]; intros acc; simpl.
  - rewrite elem_of_nil. tauto.
  - rewrite IH, insert_sorted_elem, elem_of_cons. tauto.
Qed.

Lemma sorted_elem (x : Path) (l : list Path) : x ∈ sorted l <-> x ∈ l.
Proof. unfold sorted. rewrite sorted_from_elem, elem_of_nil. tauto. Qed.

End Ordering.

Section Enumeration.

Lemma leaf_child (folder : Path) (n : str) : leaf (child folder n) = n.
Proof. unfold leaf, child. apply last_last. Qed.

Lemma scan_entries_elem self parent entries acc l p :
  scan_entries self parent entries acc = Ok l ->
  p ∈ l ->
  p ∈ acc ∨ (p = child parent (leaf p) ∧ lower (leaf p) ∉ skip_names self).
Proof.
  revert acc. induction entries as [|e entries IH]; intros acc; simpl.
  - intros [= ->]. by left.
  - destruct (entry_is_dir e) as [[|]|[]]; try done; try apply IH.
    case_bool_decide as Hskip; [apply IH|].
    intros Hscan Hp. destruct (IH _ Hscan Hp) as [Hin|?]; [|by right].
    apply elem_of_app in Hin as [?|Hin]; [by left|].
    apply list_elem_of_singleton in Hin as ->.
    right. by rewrite leaf_child.
Qed.

Lemma list_subfolders_elem self os parent l p :
  list_subfolders self os parent = Ok l ->
  p ∈ l ->
  lower (leaf p) ∉ skip_names self.
Proof.
  unfold list_subfolders.
  destruct (ls_exists os parent); simpl; [|intros [= <-]; set_solver].
  destruct (ls_scandir os parent) as [entries|[]|entries e]; try done;
    try (intros [= <-]; set_solver).
  - destruct (scan_entries _ _ _ _) as [sub|] eqn:Hscan; [|done].
    intros [= <-] Hp. rewrite sorted_elem in Hp.
    destruct (scan_entries_elem _ _ _ _ _ _ Hscan Hp) as [Hin|[_ ?]]; [|done].
    set_solver.
  - destruct (scan_entries _ _ _ _) as [sub|] eqn:Hscan; [|done].
    destruct e; try done. intros [= <-] Hp.
    destruct (scan_entries_elem _ _ _ _ _ _ Hscan Hp) as [Hin|[_ ?]]; [|done].
    set_solver.
Qed.

(** C6 — skip-set exclusion.  Whatever the directory holds and however
    the skip names were spelled when the service was built, no path
    returned by [list_subfolders] has a leaf name whose lower-case form
    is in the skip set of the service; in particular no returned leaf
    name agrees, up to case, with a configured name. *)
Theorem list_subfolders_skip_set (names : gset str) (os : Listing)
    (parent : Path) (l : list Path) (p : Path) :
  list_subfolders (init names) os parent = Ok l ->
  p ∈ l ->
  (lower (leaf p) ∉ skip_names (init names))
  ∧ (∀ n, n ∈ names -> lower (leaf p) ≠ lower n).
Proof.
  intros Hl Hp.
  pose proof (list_subfolders_elem _ _ _ _ _ Hl Hp) as Hskip.
  split; [done|]. intros n Hn Heq. apply Hskip.
  simpl. rewrite Heq. apply elem_of_map. eauto.
Qed.


End Enumeration.

Example enumeration_sample_listing :
  list_subfolders EnumerationSample.service EnumerationSample.os
    EnumerationSample.drive
  = Ok [EnumerationSample.alpha; EnumerationSample.zeta].
Proof. vm_compute. reflexivity. Qed.

Lemma list_subfolders_skip_set_witness :
  list_subfolders (init DEFAULT_SKIP_NAMES) EnumerationSample.os
    EnumerationSample.drive
  = Ok [EnumerationSample.alpha; EnumerationSample.zeta]
  ∧ EnumerationSample.alpha ∈ [EnumerationSample.alpha; EnumerationSample.zeta]
  ∧ (lower (leaf EnumerationSample.alpha) ∉ skip_names (init DEFAULT_SKIP_NAMES))
  ∧ (∀ n, n ∈ DEFAULT_SKIP_NAMES ->
          lower (leaf EnumerationSample.alpha) ≠ lower n).
Proof.
  assert (list_subfolders (init DEFAULT_SKIP_NAMES) EnumerationSample.os
            EnumerationSample.drive
          = Ok [EnumerationSample.alpha; EnumerationSample.zeta]) as Hl
    by (vm_compute; reflexivity).
  assert (EnumerationSample.alpha
          ∈ [EnumerationSample.alpha; EnumerationSample.zeta]) as Hp
    by (apply elem_of_cons; left; reflexivity).
  split; [exact Hl|]. split; [exact Hp|].
  exact (list_subfolders_skip_set _ _ _ _ _ Hl Hp).
Defined.



(** ** Forwarding to the running instance: [send_payload] *)

Section Forwarding.

Lemma utf8_char_encodable (c : N) :
  Codec.encodable_char c = true -> is_Some (Codec.utf8_char c).
Proof.
  unfold Codec.encodable_char, Codec.utf8_char.
  destruct (Codec.is_surrogate c); simpl; [done|].
  intros Hle. rewrite Hle.
  repeat (match goal with |- context [if ?b then _ else _] => destruct b end);
    eauto.
Qed.

Lemma utf8_encode_encodable (s : str) :
  Codec.encodable s = true -> is_Some (Codec.utf8_encode s).
Proof.
  induction s as [|c s IH]; simpl; [eauto|].
  rewrite andb_true_iff. intros [Hc Hs].
  destruct (utf8_char_encodable c Hc) as [b ->].
  destruct (IH Hs) as [bs ->]. eauto.
Qed.

(** C9, as amended — for every payload without lone surrogates (that is,
    every payload utf-8 can encode) [send_payload] returns a boolean and
    never raises: [True] exactly when both the connection and the write
    of the encoded payload succeed, [False] for every error of the
    connection or of the write, a timeout included. *)
Theorem send_payload_returns_bool (net : Endpoint) (payload : str) :
  Codec.encodable payload = true ->
  ∃ data, Codec.utf8_encode payload = Some data
    ∧ send_payload net payload
      = Ok (match create_connection net, sendall net data with
            | None, None => true
            | _, _ => false
            end).
Proof.
  intros Henc. destruct (utf8_encode_encodable _ Henc) as [data Hdata].
  exists data. split; [done|].
  unfold send_payload. rewrite Hdata.
  destruct (create_connection net) as [[]|]; [done..|].
  destruct (sendall net data) as [[]|]; done.
Qed.

End Forwarding.

Lemma send_payload_returns_bool_witness :
  Codec.encodable (lit "C:\Users") = true
  ∧ ∃ data, Codec.utf8_encode (lit "C:\Users") = Some data
      ∧ send_payload listening_endpoint (lit "C:\Users")
        = Ok (match create_connection listening_endpoint,
                    sendall listening_endpoint data with
              | None, None => true
              | _, _ => false
              end).
Proof.
  split; [vm_compute; reflexivity|].
  apply (send_payload_returns_bool listening_endpoint (lit "C:\Users")).
  vm_compute; reflexivity.
Defined.

(** C9, counterexample to the claim as stated — a payload that holds the
    lone surrogate U+D800 (a [str] Python accepts, for instance from a
    command line argument on Windows) makes [send_payload] raise once the
    connection is established: the encoding error is not an [OSError]. *)
Lemma send_payload_lone_surrogate_raises :
  send_payload listening_endpoint [0xD800] = Raise UnicodeEncodeError
  ∧ ¬ ∃ b : bool, send_payload listening_endpoint [0xD800] = Ok b.
Proof.
  split; [vm_compute; reflexivity|].
  intros [b Hb]. vm_compute in Hb. discriminate Hb.
Qed.

(** ** The effects of [write_info_tip] *)

Section WriteEffects.

Variable mbcs_decode : bytes -> option str.

Lemma write_info_tip_unfold (folder : Path) (remark : str) (w : world) :
  write_info_tip mbcs_decode folder remark w =
  if negb (exists_ w folder) then (Raise FileNotFoundError, w)
  else
    match ensure_folder_system folder w with
    | (Raise e, w1) => (Raise e, w1)
    | (Ok _, w1) =>
        let ini_path := child folder (lit "desktop.ini") in
        match updated_parser (safe_read_config mbcs_decode w1 ini_path)
                remark with
        | Raise e => (Raise e, w1)
        | Ok parser =>
            match ConfigParser.sections_list parser with
            | [] => if exists_ w1 ini_path then unlink ini_path w1
                    else (Ok tt, w1)
            | _ :: _ =>
                match write_config ini_path parser w1 with
                | (Raise e, w2) => (Raise e, w2)
                | (Ok _, w2) => ensure_ini_hidden_system ini_path w2
                end
            end
        end
    end.
Proof.
  unfold write_info_tip, updated_parser, Fs.bind, gets, lift, ret, raise.
  destruct (exists_ w folder); cbn [negb]; [|done].
  destruct (ensure_folder_system folder w) as [[[]|e] w1]; [|done].
  set (p0 := safe_read_config mbcs_decode w1 _).
  destruct (bool_decide (SECTION ∈ ConfigParser.sections_list p0));
    [|destruct (ConfigParser.add_section p0 SECTION) as [p0'|]; [|done]];
    (match goal with
     | |- context [ConfigParser.options ?p SECTION] =>
         destruct (ConfigParser.options p SECTION) as [opts|]; [|done];
         destruct (remove_infotip_loop p opts) as [p1|]; [|done]
     end);
    (destruct remark as [|c r];
     [destruct (ConfigParser.has_option p1 SECTION INFOTIP);
      [destruct (ConfigParser.remove_option p1 SECTION INFOTIP) as [p2|];
       [|done]|];
      (match goal with
       | |- context [ConfigParser.items ?p SECTION] =>
           destruct (ConfigParser.items p SECTION) as [[|i its]|]; [| |done]
       end)
     |destruct (ConfigParser.set p1 SECTION INFOTIP (c :: r)) as [p2|];
      [|done]]);
    (match goal with
     | |- context [ConfigParser.sections_list ?p] =>
         destruct (ConfigParser.sections_list p); [|done]
     end);
    destruct (exists_ w1 _); done.
Qed.

End WriteEffects.

Section FileSystemFacts.

Variable mbcs_decode : bytes -> option str.

Lemma child_neq (folder : Path) (n : str) : child folder n ≠ folder.
Proof.
  unfold child. intros H. apply (f_equal length) in H.
  rewrite length_app in H. simpl in H. lia.
Qed.

Lemma to_c_int_valid (x : Z) :
  (to_c_int x =? INVALID_FILE_ATTRIBUTES)%Z = false.
Proof.
  apply Z.eqb_neq. unfold to_c_int, INVALID_FILE_ATTRIBUTES.
  pose proof (Z.mod_pos_bound (x + 2 ^ 31) (2 ^ 32)) as H. lia.
Qed.

(** The comparison with [INVALID_FILE_ATTRIBUTES] never succeeds on a value
    that came back as a C [int]. *)
Lemma get_file_attributes_returns (path : Path) (w : world) :
  get_file_attributes path w = (Ok (GetFileAttributesW w path), w).
Proof.
  unfold get_file_attributes, Fs.bind, gets, GetFileAttributesW.
  destruct (nodes w !! path); by rewrite to_c_int_valid.
Qed.

Lemma attrs_changed_refl (p : Path) (w : world) : attrs_changed p w w.
Proof.
  split; [done|]. split.
  - intros n Hn. exists (node_attrs n). rewrite Hn. by destruct n.
  - split; [|done]. exists []. by rewrite app_nil_r.
Qed.

(** The attribute call when the platform allows the change. *)
Lemma set_file_attributes_spec (p : Path) (a : Z) (w : world) (n : node) :
  nodes w !! p = Some n ->
  p ∉ attrs_denied w ->
  set_file_attributes p a w
  = (Ok tt,
     mkWorld (<[p := with_attrs n (stored_attrs (node_attrs n) (to_DWORD a))]>
                (nodes w))
             (events w ++ [EvSetFileAttributes p (to_DWORD a)])
             (write_denied w) (attrs_denied w)).
Proof.
  intros Hn Hp. unfold set_file_attributes, Fs.bind, SetFileAttributesW.
  rewrite Hn. by rewrite bool_decide_eq_false_2.
Qed.

(** The attribute call when the platform refuses the change: the call
    reports failure, [set_file_attributes] raises [OSError], and nothing
    has changed. *)
Lemma set_file_attributes_denied (p : Path) (a : Z) (w : world) (n : node) :
  nodes w !! p = Some n ->
  p ∈ attrs_denied w ->
  set_file_attributes p a w = (Raise OtherOSError, w).
Proof.
  intros Hn Hp. unfold set_file_attributes, Fs.bind, SetFileAttributesW.
  rewrite Hn. by rewrite bool_decide_eq_true_2.
Qed.

Lemma set_file_attributes_changed (p : Path) (a : Z) (w : world) (n : node) :
  nodes w !! p = Some n ->
  p ∉ attrs_denied w ->
  ∃ w1, set_file_attributes p a w = (Ok tt, w1) ∧ attrs_changed p w w1
        ∧ nodes w1 !! p
          = Some (with_attrs n (stored_attrs (node_attrs n) (to_DWORD a))).
Proof.
  intros Hn Hp. rewrite (set_file_attributes_spec _ _ _ _ Hn Hp).
  eexists. split; [done|]. split.
  - split; [|split; [|split]]; simpl.
    + intros q Hq. by rewrite lookup_insert_ne.
    + intros n' Hn'. rewrite lookup_insert_eq.
      assert (n' = n) as -> by congruence. eauto.
    + eexists. split; [done|]. repeat constructor. eauto.
    + done.
  - simpl. by rewrite lookup_insert_eq.
Qed.

(** Whatever the platform allows, [ensure_folder_system] on a path that
    exists returns or raises [OSError]; it raises only when the change
    it asks for is refused, and then nothing has changed. *)
Lemma ensure_folder_system_outcome (folder : Path) (w : world) :
  is_Some (nodes w !! folder) ->
  ∃ res w1, ensure_folder_system folder w = (res, w1)
    ∧ attrs_changed folder w w1
    ∧ (res = Ok tt
       ∨ (res = Raise OtherOSError ∧ w1 = w ∧ folder ∈ attrs_denied w)).
Proof.
  intros [n Hn]. unfold ensure_folder_system, Fs.bind.
  rewrite get_file_attributes_returns.
  destruct (negb _).
  - exists (Ok tt), w. split; [done|]. split; [apply attrs_changed_refl|].
    by left.
  - destruct (decide (folder ∈ attrs_denied w)) as [Hd|Hd].
    + rewrite (set_file_attributes_denied _ _ _ _ Hn Hd).
      exists (Raise OtherOSError), w. split; [done|].
      split; [apply attrs_changed_refl|]. by right.
    + destruct (set_file_attributes_changed folder
                  (Z.lor (GetFileAttributesW w folder) FILE_ATTRIBUTE_SYSTEM)
                  w n Hn Hd) as (w1 & -> & Hch & _).
      exists (Ok tt), w1. split; [done|]. split; [done|]. by left.
Qed.

Lemma ensure_folder_system_spec (folder : Path) (w : world) :
  is_Some (nodes w !! folder) ->
  folder ∉ attrs_denied w ->
  ∃ w1, ensure_folder_system folder w = (Ok tt, w1)
        ∧ attrs_changed folder w w1.
Proof.
  intros Hex Hd.
  destruct (ensure_folder_system_outcome folder w Hex)
    as (res & w1 & -> & Hch & [->|(_ & _ & Hin)]); [eauto|done].
Qed.

Lemma ensure_ini_hidden_system_spec (ini : Path) (w : world) n :
  nodes w !! ini = Some n ->
  ini ∉ attrs_denied w ->
  ∃ w1 a, ensure_ini_hidden_system ini w = (Ok tt, w1)
        ∧ attrs_changed ini w w1
        ∧ nodes w1 !! ini = Some (with_attrs n a).
Proof.
  intros Hn Hd. unfold ensure_ini_hidden_system, Fs.bind.
  rewrite get_file_attributes_returns.
  destruct (negb _).
  - destruct (set_file_attributes_changed ini
                (Z.lor (Z.lor (GetFileAttributesW w ini) FILE_ATTRIBUTE_HIDDEN)
                   FILE_ATTRIBUTE_SYSTEM) w n Hn Hd) as (w1 & -> & Hch & Hn1).
    eauto.
  - exists w, (node_attrs n). split; [done|].
    split; [apply attrs_changed_refl|].
    rewrite Hn. by destruct n.
Qed.

Lemma exists_Some (w : world) (p : Path) :
  exists_ w p = true <-> is_Some (nodes w !! p).
Proof. unfold exists_. apply bool_decide_eq_true. Qed.

Lemma exists_None (w : world) (p : Path) :
  exists_ w p = false <-> nodes w !! p = None.
Proof.
  unfold exists_. rewrite bool_decide_eq_false. symmetry.
  apply eq_None_not_Some.
Qed.

(** Reading the sidecar looks at the node of the sidecar only. *)
Lemma try_encodings_ext (w w' : world) (ini : Path) encodings parser :
  nodes w' !! ini = nodes w !! ini ->
  try_encodings w' ini parser encodings = try_encodings w ini parser encodings.
Proof.
  intros Heq. revert parser.
  induction encodings as [|dec rest IH]; intros parser; simpl; [done|].
  unfold read_text. rewrite Heq.
  destruct (nodes w !! ini) as [[|a c]|]; try apply IH.
  destruct (dec c); [|apply IH].
  destruct (ConfigParser.read_string _ _) as [p' [e|]]; [apply IH|done].
Qed.

Lemma safe_read_config_ext (w w' : world) (ini : Path) :
  nodes w' !! ini = nodes w !! ini ->
  safe_read_config mbcs_decode w' ini = safe_read_config mbcs_decode w ini.
Proof.
  intros Heq. unfold safe_read_config, exists_. rewrite Heq.
  destruct (negb _); [done|]. by apply try_encodings_ext.
Qed.

Lemma try_encodings_no_file (w : world) (ini : Path) encodings parser :
  (∀ a c, nodes w !! ini ≠ Some (File a c)) ->
  try_encodings w ini parser encodings = parser.
Proof.
  intros Hno. induction encodings as [|dec rest IH]; simpl; [done|].
  unfold read_text. destruct (nodes w !! ini) as [[|a c]|] eqn:Hn; try done.
  by destruct (Hno a c).
Qed.

(** A sidecar that is not a regular file reads as the empty document. *)
Lemma safe_read_config_no_file (w : world) (ini : Path) :
  (∀ a c, nodes w !! ini ≠ Some (File a c)) ->
  safe_read_config mbcs_decode w ini = ConfigParser.empty.
Proof.
  intros Hno. unfold safe_read_config.
  destruct (negb _); [done|]. by apply try_encodings_no_file.
Qed.

Lemma safe_read_config_is_file (w : world) (ini : Path) :
  safe_read_config mbcs_decode w ini ≠ ConfigParser.empty ->
  ∃ a c, nodes w !! ini = Some (File a c).
Proof.
  intros Hne. destruct (nodes w !! ini) as [[a|a c]|] eqn:Hn; [| eauto |];
    destruct Hne; apply safe_read_config_no_file; intros ? ?; congruence.
Qed.

(** C7 — writing a remark for a folder that does not exist raises
    [FileNotFoundError] to the caller and leaves the file system, its
    attributes and its sidecar files as they were: no call that changes it
    is made. *)
Theorem write_info_tip_not_found (w : world) (folder : Path) (remark : str) :
  exists_ w folder = false ->
  write_info_tip mbcs_decode folder remark w = (Raise FileNotFoundError, w).
Proof.
  intros Hex. unfold write_info_tip, Fs.bind, gets, raise. by rewrite Hex.
Qed.

End FileSystemFacts.

(** ** Attribute bits and the calls that set them *)

Section AttributeFacts.

Local Open Scope Z_scope.

Lemma land_bit (x k : Z) :
  0 <= k -> Z.land x (2 ^ k) = if Z.testbit x k then 2 ^ k else 0.
Proof.
  intros Hk. apply Z.bits_inj'. intros i Hi. rewrite Z.land_spec.
  destruct (Z.testbit x k) eqn:E.
  - rewrite Z.pow2_bits_eqb by done.
    destruct (Z.eqb_spec k i) as [->|]; [by rewrite E|apply andb_false_r].
  - rewrite Z.bits_0, Z.pow2_bits_eqb by done.
    destruct (Z.eqb_spec k i) as [<-|]; [by rewrite E|apply andb_false_r].
Qed.

Lemma to_c_int_bits (a i : Z) :
  0 <= i < 32 -> Z.testbit (to_c_int a) i = Z.testbit a i.
Proof.
  intros Hi.
  rewrite <- (Z.mod_pow2_bits_low (to_c_int a) 32 i) by lia.
  rewrite <- (Z.mod_pow2_bits_low a 32 i) by lia.
  f_equal. unfold to_c_int. rewrite Zminus_mod_idemp_l. f_equal. lia.
Qed.

Lemma to_DWORD_bits (x i : Z) :
  0 <= i < 32 -> Z.testbit (to_DWORD x) i = Z.testbit x i.
Proof. intros Hi. unfold to_DWORD. apply Z.mod_pow2_bits_low. lia. Qed.

Lemma with_attrs_same (n : node) : with_attrs n (node_attrs n) = n.
Proof. by destruct n. Qed.

Lemma node_attrs_with_attrs (n : node) (a : Z) :
  node_attrs (with_attrs n a) = a.
Proof. by destruct n. Qed.

(** The bits of the attributes a node carries after a call that sets
    SYSTEM among others. *)
Lemma stored_attrs_bits (old attrs i : Z) :
  0 <= i ->
  Z.testbit attrs 2 = true ->
  Z.testbit (stored_attrs old attrs) i
  = ((Z.testbit old i && negb (Z.testbit SETTABLE i))
     || (Z.testbit attrs i && Z.testbit SETTABLE i))
    && negb (7 =? i).
Proof.
  intros Hi H2. unfold stored_attrs.
  set (v := Z.ldiff _ _).
  assert (∀ j, 0 <= j ->
            Z.testbit v j
            = ((Z.testbit old j && negb (Z.testbit SETTABLE j))
               || (Z.testbit attrs j && Z.testbit SETTABLE j))
              && negb (7 =? j)) as Hv.
  { intros j Hj. unfold v.
    rewrite Z.ldiff_spec, Z.lor_spec, Z.ldiff_spec, Z.land_spec.
    change FILE_ATTRIBUTE_NORMAL with (2 ^ 7).
    by rewrite Z.pow2_bits_eqb by lia. }
  cbv zeta. destruct (Z.eqb_spec v 0) as [H0|_]; [|by apply Hv].
  exfalso. pose proof (Hv 2 ltac:(lia)) as Hb.
  rewrite H0, Z.bits_0, H2 in Hb.
  change (Z.testbit SETTABLE 2) with true in Hb.
  change (7 =? 2) with false in Hb. cbn [negb andb] in Hb.
  rewrite orb_true_r in Hb. discriminate Hb.
Qed.

(** A file with the HIDDEN or the SYSTEM bit is not opened for writing,
    and one that is opened for writing is not read-only. *)
Lemma overwritable_bits (a : Z) :
  overwritable a = true ->
  Z.testbit a 0 = false ∧ Z.testbit a 1 = false ∧ Z.testbit a 2 = false.
Proof.
  unfold overwritable. intros H. apply Z.eqb_eq in H.
  assert (∀ i, 0 <= i < 3 -> Z.testbit a i = false) as Hb.
  { intros i Hi.
    assert (Z.testbit (Z.land a PROTECTING) i = false) as Hz
      by (by rewrite H, Z.bits_0).
    rewrite Z.land_spec in Hz.
    assert (Z.testbit PROTECTING i = true) as Hp.
    { assert (i = 0 ∨ i = 1 ∨ i = 2) as [->|[->| ->]] by lia; reflexivity. }
    by rewrite Hp, andb_true_r in Hz. }
  repeat split; apply Hb; lia.
Qed.

Lemma overwritable_not_readonly (a : Z) :
  overwritable a = true -> (Z.land a FILE_ATTRIBUTE_READONLY =? 0) = true.
Proof.
  intros H. apply overwritable_bits in H as (H0 & _).
  change FILE_ATTRIBUTE_READONLY with (2 ^ 0).
  rewrite land_bit by lia. by rewrite H0.
Qed.


(** [ensure_folder_system] when the SYSTEM bit is set already: no call is
    made. *)
Lemma ensure_folder_system_noop (folder : Path) (w : world) (n : node) :
  nodes w !! folder = Some n ->
  Z.testbit (node_attrs n) 2 = true ->
  ensure_folder_system folder w = (Ok tt, w).
Proof.
  intros Hn Hbit. unfold ensure_folder_system, Fs.bind.
  rewrite get_file_attributes_returns. unfold GetFileAttributesW. rewrite Hn.
  change FILE_ATTRIBUTE_SYSTEM with (2 ^ 2).
  rewrite land_bit, to_c_int_bits by lia. by rewrite Hbit.
Qed.

(** [ensure_folder_system] when the platform refuses the change. *)
Lemma ensure_folder_system_refused (folder : Path) (w : world) (n : node) :
  nodes w !! folder = Some n ->
  folder ∈ attrs_denied w ->
  ensure_folder_system folder w
  = (if Z.testbit (node_attrs n) 2 then Ok tt else Raise OtherOSError, w).
Proof.
  intros Hn Hd. destruct (Z.testbit (node_attrs n) 2) eqn:Hbit.
  - by apply (ensure_folder_system_noop folder w n).
  - unfold ensure_folder_system, Fs.bind.
    rewrite get_file_attributes_returns. unfold GetFileAttributesW.
    rewrite Hn. change FILE_ATTRIBUTE_SYSTEM with (2 ^ 2).
    rewrite land_bit, to_c_int_bits by lia. rewrite Hbit. cbn [Z.eqb negb].
    by apply (set_file_attributes_denied _ _ _ n).
Qed.

(** What [ensure_folder_system] does to a path that exists when the
    platform allows the change. *)
Lemma ensure_folder_system_effect (folder : Path) (w : world) (n : node) :
  nodes w !! folder = Some n ->
  folder ∉ attrs_denied w ->
  ∃ w1 a1,
    ensure_folder_system folder w = (Ok tt, w1)
    ∧ nodes w1 !! folder = Some (with_attrs n a1)
    ∧ Z.testbit a1 2 = true
    ∧ (∀ i, 0 <= i < 32 -> i ≠ 2 -> i ≠ 7 ->
            Z.testbit a1 i = Z.testbit (node_attrs n) i)
    ∧ (∀ q, q ≠ folder -> nodes w1 !! q = nodes w !! q)
    ∧ (Z.testbit (node_attrs n) 2 = true -> w1 = w)
    ∧ write_denied w1 = write_denied w
    ∧ attrs_denied w1 = attrs_denied w.
Proof.
  intros Hn Hd.
  destruct (Z.testbit (node_attrs n) 2) eqn:E.
  - exists w, (node_attrs n).
    rewrite (ensure_folder_system_noop folder w n Hn E).
    rewrite with_attrs_same. by repeat split.
  - unfold ensure_folder_system, Fs.bind.
    rewrite get_file_attributes_returns. unfold GetFileAttributesW.
    rewrite Hn. change FILE_ATTRIBUTE_SYSTEM with (2 ^ 2).
    rewrite land_bit, to_c_int_bits by lia. rewrite E. cbn [Z.eqb negb].
    rewrite (set_file_attributes_spec _ _ _ _ Hn Hd).
    set (attrs := to_DWORD (Z.lor (to_c_int (node_attrs n)) (2 ^ 2))).
    assert (∀ i, 0 <= i < 32 ->
              Z.testbit attrs i = Z.testbit (node_attrs n) i || (2 =? i))
      as Hbits.
    { intros i Hi. unfold attrs.
      by rewrite to_DWORD_bits, Z.lor_spec, Z.pow2_bits_eqb, to_c_int_bits
        by lia. }
    assert (Z.testbit attrs 2 = true) as H2
      by (rewrite Hbits by lia; apply orb_true_r).
    eexists _, _. split; [done|]. cbn [nodes write_denied attrs_denied].
    split; [apply lookup_insert_eq|].
    split; [|split; [|split; [|split; [done|done]]]].
    + rewrite stored_attrs_bits by (done || lia). rewrite H2.
      change (Z.testbit SETTABLE 2) with true. by rewrite orb_true_r.
    + intros i Hi Hne2 Hne7.
      rewrite stored_attrs_bits by (done || lia). rewrite Hbits by done.
      rewrite (proj2 (Z.eqb_neq 2 i)), (proj2 (Z.eqb_neq 7 i))
        by congruence.
      destruct (Z.testbit (node_attrs n) i), (Z.testbit SETTABLE i); done.
    + intros q Hq. by rewrite lookup_insert_ne.
Qed.

(** What is known when [ensure_folder_system] has returned. *)
Lemma ensure_folder_system_returned (folder : Path) (w w1 : world)
    (n : node) :
  nodes w !! folder = Some n ->
  ensure_folder_system folder w = (Ok tt, w1) ->
  ∃ a1,
    nodes w1 !! folder = Some (with_attrs n a1)
    ∧ Z.testbit a1 2 = true
    ∧ (∀ q, q ≠ folder -> nodes w1 !! q = nodes w !! q)
    ∧ write_denied w1 = write_denied w
    ∧ attrs_denied w1 = attrs_denied w.
Proof.
  intros Hn. destruct (decide (folder ∈ attrs_denied w)) as [Hd|Hd].
  - rewrite (ensure_folder_system_refused folder w n Hn Hd).
    destruct (Z.testbit (node_attrs n) 2) eqn:E; [|done].
    intros [= <-]. exists (node_attrs n). rewrite with_attrs_same.
    by repeat split.
  - destruct (ensure_folder_system_effect folder w n Hn Hd)
      as (w1' & a1 & -> & Hn1 & Hbit & _ & Hother & _ & Hwd & Had).
    intros [= <-]. by exists a1.
Qed.

(** [ensure_ini_hidden_system] when both bits are set already: no call
    is made. *)
Lemma ensure_ini_hidden_system_noop (ini : Path) (w : world) (n : node) :
  nodes w !! ini = Some n ->
  Z.testbit (node_attrs n) 1 = true ->
  Z.testbit (node_attrs n) 2 = true ->
  ensure_ini_hidden_system ini w = (Ok tt, w).
Proof.
  intros Hn H1 H2. unfold ensure_ini_hidden_system, Fs.bind.
  rewrite get_file_attributes_returns. unfold GetFileAttributesW. rewrite Hn.
  cbv zeta. set (c := to_c_int (node_attrs n)).
  assert (Z.lor (Z.lor c FILE_ATTRIBUTE_HIDDEN) FILE_ATTRIBUTE_SYSTEM = c)
    as ->; [|by rewrite Z.eqb_refl].
  apply Z.bits_inj'. intros i Hi.
  change FILE_ATTRIBUTE_HIDDEN with (2 ^ 1).
  change FILE_ATTRIBUTE_SYSTEM with (2 ^ 2).
  rewrite !Z.lor_spec, !Z.pow2_bits_eqb by lia.
  destruct (Z.eqb_spec 1 i) as [<-|];
    [unfold c; rewrite to_c_int_bits by lia; by rewrite H1|].
  destruct (Z.eqb_spec 2 i) as [<-|];
    [unfold c; rewrite to_c_int_bits by lia; by rewrite H2|].
  by rewrite !orb_false_r.
Qed.

(** The call [ensure_ini_hidden_system] makes when a bit is missing. *)
Lemma ensure_ini_hidden_system_call (ini : Path) (w : world) (n : node) :
  nodes w !! ini = Some n ->
  Z.testbit (node_attrs n) 1 && Z.testbit (node_attrs n) 2 = false ->
  ∃ attrs,
    ensure_ini_hidden_system ini w = set_file_attributes ini attrs w
    ∧ (∀ i, 0 <= i < 32 ->
            Z.testbit (to_DWORD attrs) i
            = Z.testbit (node_attrs n) i || (1 =? i) || (2 =? i)).
Proof.
  intros Hn Hmiss. unfold ensure_ini_hidden_system, Fs.bind.
  rewrite get_file_attributes_returns. unfold GetFileAttributesW. rewrite Hn.
  cbv zeta. set (c := to_c_int (node_attrs n)).
  change FILE_ATTRIBUTE_HIDDEN with (2 ^ 1).
  change FILE_ATTRIBUTE_SYSTEM with (2 ^ 2).
  set (target := Z.lor (Z.lor c (2 ^ 1)) (2 ^ 2)).
  assert (∀ i, 0 <= i ->
            Z.testbit target i = Z.testbit c i || (1 =? i) || (2 =? i))
    as Hbits.
  { intros i Hi. unfold target.
    by rewrite !Z.lor_spec, !Z.pow2_bits_eqb by lia. }
  exists target. split.
  - destruct (Z.eqb_spec target c) as [Heq|Hne]; [|done].
    exfalso.
    assert (Z.testbit (node_attrs n) 1 = true) as H1.
    { rewrite <- (to_c_int_bits _ 1) by lia. fold c. rewrite <- Heq.
      rewrite Hbits by lia. rewrite orb_false_r. apply orb_true_r. }
    assert (Z.testbit (node_attrs n) 2 = true) as H2.
    { rewrite <- (to_c_int_bits _ 2) by lia. fold c. rewrite <- Heq.
      rewrite Hbits by lia. apply orb_true_r. }
    by rewrite H1, H2 in Hmiss.
  - intros i Hi. rewrite to_DWORD_bits, Hbits by lia.
    unfold c. by rewrite to_c_int_bits by lia.
Qed.

(** [ensure_ini_hidden_system] when the platform refuses the change. *)
Lemma ensure_ini_hidden_system_refused (ini : Path) (w : world) (n : node) :
  nodes w !! ini = Some n ->
  ini ∈ attrs_denied w ->
  ensure_ini_hidden_system ini w
  = (if Z.testbit (node_attrs n) 1 && Z.testbit (node_attrs n) 2
     then Ok tt else Raise OtherOSError, w).
Proof.
  intros Hn Hd.
  destruct (Z.testbit (node_attrs n) 1 && Z.testbit (node_attrs n) 2)
    eqn:Hbits.
  - apply andb_true_iff in Hbits as [H1 H2].
    by apply (ensure_ini_hidden_system_noop ini w n).
  - destruct (ensure_ini_hidden_system_call ini w n Hn Hbits)
      as (attrs & -> & _).
    by apply (set_file_attributes_denied _ _ _ n).
Qed.

(** What [ensure_ini_hidden_system] does to a path that exists when the
    platform allows the change. *)
Lemma ensure_ini_hidden_system_effect (ini : Path) (w : world) (n : node) :
  nodes w !! ini = Some n ->
  ini ∉ attrs_denied w ->
  ∃ w1 a1,
    ensure_ini_hidden_system ini w = (Ok tt, w1)
    ∧ nodes w1 !! ini = Some (with_attrs n a1)
    ∧ Z.testbit a1 1 = true
    ∧ Z.testbit a1 2 = true
    ∧ (∀ i, 0 <= i < 32 -> i ≠ 1 -> i ≠ 2 -> i ≠ 7 ->
            Z.testbit a1 i = Z.testbit (node_attrs n) i)
    ∧ (∀ q, q ≠ ini -> nodes w1 !! q = nodes w !! q)
    ∧ (Z.testbit (node_attrs n) 1 = true ->
       Z.testbit (node_attrs n) 2 = true -> w1 = w)
    ∧ write_denied w1 = write_denied w
    ∧ attrs_denied w1 = attrs_denied w.
Proof.
  intros Hn Hd.
  destruct (Z.testbit (node_attrs n) 1 && Z.testbit (node_attrs n) 2)
    eqn:Hboth.
  - apply andb_true_iff in Hboth as [H1 H2].
    exists w, (node_attrs n).
    rewrite (ensure_ini_hidden_system_noop ini w n Hn H1 H2).
    rewrite with_attrs_same. by repeat split.
  - destruct (ensure_ini_hidden_system_call ini w n Hn Hboth)
      as (attrs & -> & Hbits).
    rewrite (set_file_attributes_spec _ _ _ _ Hn Hd).
    assert (Z.testbit (to_DWORD attrs) 2 = true) as H2
      by (rewrite Hbits by lia; apply orb_true_r).
    eexists _, _. split; [done|]. cbn [nodes write_denied attrs_denied].
    split; [apply lookup_insert_eq|].
    split; [|split; [|split; [|split; [|split; [|done]]]]].
    + rewrite stored_attrs_bits by (done || lia). rewrite Hbits by lia.
      change (Z.testbit SETTABLE 1) with true.
      change (1 =? 1) with true. by rewrite orb_true_r, orb_true_r.
    + rewrite stored_attrs_bits by (done || lia). rewrite H2.
      change (Z.testbit SETTABLE 2) with true. by rewrite orb_true_r.
    + intros i Hi Hn1 Hn2 Hn7.
      rewrite stored_attrs_bits by (done || lia). rewrite Hbits by done.
      rewrite (proj2 (Z.eqb_neq 1 i)), (proj2 (Z.eqb_neq 2 i)),
        (proj2 (Z.eqb_neq 7 i)) by congruence.
      destruct (Z.testbit (node_attrs n) i), (Z.testbit SETTABLE i); done.
    + intros q Hq. by rewrite lookup_insert_ne.
    + intros H1 H2'. by rewrite H1, H2' in Hboth.
Qed.

(** What is known when [ensure_ini_hidden_system] has returned. *)
Lemma ensure_ini_hidden_system_returned (ini : Path) (w w1 : world)
    (n : node) :
  nodes w !! ini = Some n ->
  ensure_ini_hidden_system ini w = (Ok tt, w1) ->
  ∃ a1,
    nodes w1 !! ini = Some (with_attrs n a1)
    ∧ Z.testbit a1 1 = true
    ∧ Z.testbit a1 2 = true
    ∧ (∀ q, q ≠ ini -> nodes w1 !! q = nodes w !! q)
    ∧ write_denied w1 = write_denied w
    ∧ attrs_denied w1 = attrs_denied w.
Proof.
  intros Hn. destruct (decide (ini ∈ attrs_denied w)) as [Hd|Hd].
  - rewrite (ensure_ini_hidden_system_refused ini w n Hn Hd).
    destruct (Z.testbit (node_attrs n) 1 && Z.testbit (node_attrs n) 2)
      eqn:E; [|done].
    apply andb_true_iff in E as [H1 H2].
    intros [= <-]. exists (node_attrs n). rewrite with_attrs_same.
    by repeat split.
  - destruct (ensure_ini_hidden_system_effect ini w n Hn Hd)
      as (w1' & a1 & -> & Hn1 & Hb1 & Hb2 & _ & Hother & _ & Hwd & Had).
    intros [= <-]. by exists a1.
Qed.

End AttributeFacts.

(** ** Ordered dictionaries *)

Section DictFacts.

Context {V : Type}.
Implicit Types (d : dict V) (k : str) (v : V).

Lemma str_eqb_refl (a : str) : str_eqb a a = true.
Proof. unfold str_eqb. by apply bool_decide_eq_true_2. Qed.

Lemma str_eqb_eq (a b : str) : str_eqb a b = true <-> a = b.
Proof. unfold str_eqb. apply bool_decide_eq_true. Qed.

Lemma str_eqb_neq (a b : str) : str_eqb a b = false <-> a ≠ b.
Proof. unfold str_eqb. apply bool_decide_eq_false. Qed.

Lemma dict_get_None d k : dict_get d k = None <-> k ∉ dict_keys d.
Proof.
  induction d as [|[k' v'] d IH]; simpl.
  - split; [intros _; apply not_elem_of_nil|done].
  - rewrite not_elem_of_cons. destruct (str_eqb k' k) eqn:E.
    + apply str_eqb_eq in E. split; [done|]. intros [? _]. congruence.
    + apply str_eqb_neq in E. rewrite IH. split; [|tauto].
      intros ?. split; [congruence|done].
Qed.

Lemma dict_mem_elem d k : dict_mem d k = true <-> k ∈ dict_keys d.
Proof.
  unfold dict_mem. destruct (dict_get d k) eqn:E.
  - split; [|done]. intros _.
    destruct (decide (k ∈ dict_keys d)) as [|Hn]; [done|].
    apply dict_get_None in Hn. congruence.
  - apply dict_get_None in E. split; [done|]. intros ?. by destruct E.
Qed.

Lemma dict_mem_not_elem d k : dict_mem d k = false <-> k ∉ dict_keys d.
Proof. rewrite <- dict_mem_elem. by destruct (dict_mem d k). Qed.

Lemma dict_get_middle d1 d2 k v :
  k ∉ dict_keys d1 -> dict_get (d1 ++ (k, v) :: d2) k = Some v.
Proof.
  induction d1 as [|[k' v'] d1 IH]; simpl.
  - intros _. by rewrite str_eqb_refl.
  - rewrite not_elem_of_cons. intros [Hne Hk].
    rewrite (proj2 (str_eqb_neq k' k)) by congruence. by apply IH.
Qed.

Lemma dict_set_middle d1 d2 k v v' :
  k ∉ dict_keys d1 ->
  dict_set (d1 ++ (k, v) :: d2) k v' = d1 ++ (k, v') :: d2.
Proof.
  induction d1 as [|[k' v''] d1 IH]; simpl.
  - intros _. by rewrite str_eqb_refl.
  - rewrite not_elem_of_cons. intros [Hne Hk].
    rewrite (proj2 (str_eqb_neq k' k)) by congruence. by rewrite IH.
Qed.

Lemma dict_del_middle d1 d2 k v :
  k ∉ dict_keys d1 -> dict_del (d1 ++ (k, v) :: d2) k = d1 ++ d2.
Proof.
  induction d1 as [|[k' v''] d1 IH]; simpl.
  - intros _. by rewrite str_eqb_refl.
  - rewrite not_elem_of_cons. intros [Hne Hk].
    rewrite (proj2 (str_eqb_neq k' k)) by congruence. by rewrite IH.
Qed.

Lemma dict_set_fresh d k v :
  k ∉ dict_keys d -> dict_set d k v = d ++ [(k, v)].
Proof.
  induction d as [|[k' v'] d IH]; simpl; [done|].
  rewrite not_elem_of_cons. intros [Hne Hk].
  rewrite (proj2 (str_eqb_neq k' k)) by congruence. by rewrite IH.
Qed.

Lemma dict_keys_split d k :
  k ∈ dict_keys d ->
  ∃ d1 v d2, d = d1 ++ (k, v) :: d2 ∧ k ∉ dict_keys d1.
Proof.
  induction d as [|[k' v'] d IH]; simpl.
  - intros H. by apply elem_of_nil in H.
  - intros H. destruct (decide (k' = k)) as [->|Hne].
    + exists [], v', d. split; [done|]. apply not_elem_of_nil.
    + apply elem_of_cons in H as [?|H]; [congruence|].
      destruct (IH H) as (d1 & v & d2 & -> & Hk).
      exists ((k', v') :: d1), v, d2. split; [done|].
      simpl. rewrite not_elem_of_cons. split; [congruence|done].
Qed.

Lemma dict_update_nil d : dict_update d [] = d.
Proof. done. Qed.

Lemma remove_keys_cons_other d k v ks :
  k ∉ ks -> remove_keys ((k, v) :: d) ks = (k, v) :: remove_keys d ks.
Proof.
  revert d. induction ks as [|k' ks IH]; intros d; simpl; [done|].
  rewrite not_elem_of_cons. intros [Hne Hk].
  unfold dict_mem at 1. simpl.
  rewrite (proj2 (str_eqb_neq k k')) by done.
  fold (dict_mem d k'). destruct (dict_mem d k'); by apply IH.
Qed.

Lemma remove_keys_own (P : str -> bool) d :
  remove_keys d (filter (fun k => P k = true) (dict_keys d))
  = filter (fun kv => P (fst kv) = false) d.
Proof.
  induction d as [|[k v] d IH]; [done|].
  simpl. rewrite filter_cons, (filter_cons _ (k, v)). simpl.
  destruct (decide (P k = true)) as [HP|HP].
  - rewrite decide_False by congruence. simpl.
    unfold dict_mem. simpl. rewrite str_eqb_refl. exact IH.
  - rewrite decide_True by (by destruct (P k)).
    rewrite remove_keys_cons_other; [by rewrite IH|].
    intros Hin. apply list_elem_of_filter in Hin as [? _]. done.
Qed.

End DictFacts.

(** ** The parser operations of [write_info_tip] on a document *)

Section ParserFacts.

Implicit Types (d : dict str) (secs : dict (dict str)).

Lemma section_not_default :
  bool_decide (SECTION = []) || str_eqb SECTION ConfigParser.DEFAULTSECT
  = false.
Proof. vm_compute. reflexivity. Qed.

Lemma section_neq_default : str_eqb SECTION ConfigParser.DEFAULTSECT = false.
Proof. vm_compute. reflexivity. Qed.

Lemma infotip_is_infotip : is_infotip INFOTIP = true.
Proof. vm_compute. reflexivity. Qed.

Lemma infotip_not_in_stripped d : INFOTIP ∉ dict_keys (strip_infotip d).
Proof.
  unfold strip_infotip, dict_keys. intros Hin.
  apply list_elem_of_fmap in Hin as ([k v] & Hk & Hin).
  apply list_elem_of_filter in Hin as [Hf _]. simpl in *. subst k.
  by rewrite infotip_is_infotip in Hf.
Qed.

Lemma remove_option_middle dflt secs1 secs2 d k :
  SECTION ∉ dict_keys secs1 ->
  ConfigParser.remove_option
    (ConfigParser.mk dflt (secs1 ++ (SECTION, d) :: secs2)) SECTION k
  = Ok (ConfigParser.mk dflt
          (secs1 ++ (SECTION, if dict_mem d k then dict_del d k else d)
                 :: secs2)).
Proof.
  intros Hs. unfold ConfigParser.remove_option, ConfigParser.update_sectdict.
  rewrite section_not_default. simpl.
  by rewrite dict_get_middle, dict_set_middle.
Qed.

Lemma remove_infotip_loop_middle dflt secs1 secs2 d ks :
  SECTION ∉ dict_keys secs1 ->
  remove_infotip_loop
    (ConfigParser.mk dflt (secs1 ++ (SECTION, d) :: secs2)) ks
  = Ok (ConfigParser.mk dflt
          (secs1 ++ (SECTION,
                     remove_keys d (filter (fun k => is_infotip k = true) ks))
                 :: secs2)).
Proof.
  intros Hs. revert d. induction ks as [|k ks IH]; intros d; simpl; [done|].
  rewrite filter_cons. destruct (is_infotip k) eqn:Hk.
  - rewrite remove_option_middle by done. rewrite IH.
    by rewrite decide_True.
  - rewrite IH. by rewrite decide_False.
Qed.

Lemma options_middle secs1 secs2 d :
  SECTION ∉ dict_keys secs1 ->
  ConfigParser.options
    (ConfigParser.mk [] (secs1 ++ (SECTION, d) :: secs2)) SECTION
  = Ok (dict_keys d).
Proof.
  intros Hs. unfold ConfigParser.options. simpl.
  by rewrite dict_get_middle.
Qed.

(** What the removal loop leaves of a document without defaults. *)
Lemma remove_infotip_all secs1 secs2 d :
  SECTION ∉ dict_keys secs1 ->
  remove_infotip_loop
    (ConfigParser.mk [] (secs1 ++ (SECTION, d) :: secs2)) (dict_keys d)
  = Ok (ConfigParser.mk [] (secs1 ++ (SECTION, strip_infotip d) :: secs2)).
Proof.
  intros Hs. rewrite remove_infotip_loop_middle by done.
  by rewrite (remove_keys_own is_infotip).
Qed.

Lemma in_sections_list secs n :
  bool_decide (n ∈ ConfigParser.sections_list (ConfigParser.mk [] secs))
  = dict_mem secs n.
Proof.
  unfold ConfigParser.sections_list. simpl.
  destruct (dict_mem secs n) eqn:E.
  - apply bool_decide_eq_true. by apply dict_mem_elem.
  - apply bool_decide_eq_false. by apply dict_mem_not_elem.
Qed.

Lemma has_option_stripped secs1 secs2 d :
  SECTION ∉ dict_keys secs1 ->
  ConfigParser.has_option
    (ConfigParser.mk [] (secs1 ++ (SECTION, strip_infotip d) :: secs2))
    SECTION INFOTIP = false.
Proof.
  intros Hs. unfold ConfigParser.has_option.
  rewrite section_not_default. simpl. rewrite dict_get_middle by done.
  rewrite orb_false_r. apply dict_mem_not_elem, infotip_not_in_stripped.
Qed.

Lemma set_infotip_middle secs1 secs2 d remark :
  SECTION ∉ dict_keys secs1 ->
  ConfigParser.before_set remark = Ok remark ->
  ConfigParser.set
    (ConfigParser.mk [] (secs1 ++ (SECTION, strip_infotip d) :: secs2))
    SECTION INFOTIP remark
  = Ok (ConfigParser.mk []
          (secs1 ++ (SECTION, strip_infotip d ++ [(INFOTIP, remark)])
                 :: secs2)).
Proof.
  intros Hs Hset. unfold ConfigParser.set.
  destruct remark; [|rewrite Hset];
    unfold ConfigParser.update_sectdict; rewrite section_not_default; simpl;
    rewrite dict_get_middle, dict_set_middle by done;
    by rewrite dict_set_fresh by apply infotip_not_in_stripped.
Qed.

Lemma remove_section_middle secs1 secs2 d :
  SECTION ∉ dict_keys secs1 ->
  ConfigParser.remove_section
    (ConfigParser.mk [] (secs1 ++ (SECTION, d) :: secs2)) SECTION
  = ConfigParser.mk [] (secs1 ++ secs2).
Proof.
  intros Hs. unfold ConfigParser.remove_section. simpl.
  assert (dict_mem (secs1 ++ (SECTION, d) :: secs2) SECTION = true) as ->.
  { unfold dict_mem. by rewrite dict_get_middle. }
  by rewrite dict_del_middle.
Qed.

(** [updated_parser] once the section is known to be there. *)
Lemma updated_parser_middle secs1 secs2 d remark :
  SECTION ∉ dict_keys secs1 ->
  updated_parser (ConfigParser.mk [] (secs1 ++ (SECTION, d) :: secs2)) remark
  = let stripped :=
      ConfigParser.mk [] (secs1 ++ (SECTION, strip_infotip d) :: secs2) in
    match remark with
    | _ :: _ => ConfigParser.set stripped SECTION INFOTIP remark
    | [] =>
        match ConfigParser.items stripped SECTION with
        | Raise e => Raise e
        | Ok [] => Ok (ConfigParser.mk [] (secs1 ++ secs2))
        | Ok (_ :: _) => Ok stripped
        end
    end.
Proof.
  intros Hs. unfold updated_parser.
  rewrite in_sections_list.
  assert (dict_mem (secs1 ++ (SECTION, d) :: secs2) SECTION = true) as ->.
  { unfold dict_mem. by rewrite dict_get_middle. }
  rewrite options_middle, remove_infotip_all by done.
  destruct remark; [|done].
  rewrite has_option_stripped by done.
  destruct (ConfigParser.items _ _) as [[|]|]; [|done..].
  by rewrite remove_section_middle.
Qed.

(** [updated_parser] when the section has to be added first. *)
Lemma updated_parser_absent secs remark :
  SECTION ∉ dict_keys secs ->
  updated_parser (ConfigParser.mk [] secs) remark
  = updated_parser (ConfigParser.mk [] (secs ++ [(SECTION, [])])) remark.
Proof.
  intros Hs. unfold updated_parser at 1.
  rewrite in_sections_list.
  rewrite (proj2 (dict_mem_not_elem secs SECTION)) by done.
  unfold ConfigParser.add_section. rewrite section_neq_default. simpl.
  rewrite (proj2 (dict_mem_not_elem secs SECTION)) by done.
  rewrite dict_set_fresh by done.
  unfold updated_parser. rewrite in_sections_list.
  assert (dict_mem (secs ++ [(SECTION, [])]) SECTION = true) as ->; [|done].
  unfold dict_mem. by rewrite dict_get_middle.
Qed.

Lemma items_empty_section secs1 secs2 :
  SECTION ∉ dict_keys secs1 ->
  ConfigParser.items
    (ConfigParser.mk [] (secs1 ++ (SECTION, []) :: secs2)) SECTION = Ok [].
Proof.
  intros Hs. unfold ConfigParser.items. simpl.
  by rewrite dict_get_middle.
Qed.

End ParserFacts.

(** ** Clearing a remark: [write_info_tip] with the empty remark *)

Section Deletion.

Variable mbcs_decode : bytes -> option str.

Lemma strip_infotip_all (d : dict str) :
  Forall (fun kv => is_infotip (fst kv) = true) d -> strip_infotip d = [].
Proof.
  induction 1 as [|[k v] d Hk _ IH]; [done|].
  unfold strip_infotip. rewrite (filter_cons _ (k, v)). simpl in *.
  rewrite decide_False by congruence. exact IH.
Qed.

(** C2, as the code has it — deletion invariant.  For an existing folder
    whose attributes the platform lets the engine set, and whose sidecar
    is not read-only, may be deleted and decodes to a document with the
    [.ShellClassInfo] section alone and, in it, nothing but case variants
    of the [InfoTip] key, writing the empty remark succeeds and removes
    the sidecar: afterwards the file is gone, and the only calls that
    touched the file system were attribute settings of the folder
    followed by one unlink of the sidecar — no document was written. *)
Theorem write_empty_remark_deletes_sidecar (w : world) (folder : Path)
    (opts : dict str) :
  exists_ w folder = true ->
  folder ∉ attrs_denied w ->
  deletable w (child folder (lit "desktop.ini")) ->
  safe_read_config mbcs_decode w (child folder (lit "desktop.ini"))
  = ConfigParser.mk [] [(SECTION, opts)] ->
  Forall (fun kv => is_infotip (fst kv) = true) opts ->
  ∃ w' evs,
    write_info_tip mbcs_decode folder [] w = (Ok tt, w')
    ∧ nodes w' !! child folder (lit "desktop.ini") = None
    ∧ events w' = events w ++ evs ++ [EvUnlink (child folder (lit "desktop.ini"))]
    ∧ Forall (fun e => ∃ a, e = EvSetFileAttributes folder a) evs.
Proof.
  intros Hex Hfolder [Hdel Hrw] Hdoc Hopts.
  set (ini := child folder (lit "desktop.ini")) in *.
  rewrite write_info_tip_unfold. rewrite Hex. cbn [negb].
  apply exists_Some in Hex.
  destruct (ensure_folder_system_spec folder w Hex Hfolder)
    as (w1 & -> & Hsame & _ & (evs & Hev & Hevs) & Hwd & _).
  assert (nodes w1 !! ini = nodes w !! ini) as Hini
    by (apply Hsame, child_neq).
  cbv zeta. fold ini.
  rewrite (safe_read_config_ext mbcs_decode w w1 ini Hini), Hdoc.
  pose proof (updated_parser_middle [] [] opts [] (not_elem_of_nil _)) as Hup.
  pose proof (items_empty_section [] [] (not_elem_of_nil _)) as Hitems.
  cbn [app] in Hup, Hitems. cbv zeta in Hup.
  rewrite (strip_infotip_all opts Hopts), Hitems in Hup.
  rewrite Hup. cbn [ConfigParser.sections_list ConfigParser.sections dict_keys
                    map].
  destruct (safe_read_config_is_file mbcs_decode w ini) as (a & c & Hfile).
  { rewrite Hdoc. discriminate. }
  pose proof (Hrw a c Hfile) as Ha.
  rewrite <- Hini in Hfile.
  rewrite (proj2 (exists_Some w1 ini)) by (rewrite Hfile; eauto).
  unfold unlink. rewrite Hfile, Ha, Hwd.
  rewrite bool_decide_eq_false_2 by done. cbn [Z.eqb negb orb].
  eexists _, evs. split; [done|]. simpl.
  split; [apply lookup_delete_eq|]. split; [|done].
  by rewrite Hev, <- app_assoc.
Qed.

End Deletion.

Lemma write_empty_remark_deletes_sidecar_witness :
  exists_ Samples.only_infotip Samples.docs = true
  ∧ deletable Samples.only_infotip (child Samples.docs (lit "desktop.ini"))
  ∧ safe_read_config Samples.latin1 Samples.only_infotip
      (child Samples.docs (lit "desktop.ini"))
    = ConfigParser.mk []
        [(SECTION, [(lit "INFOTIP", lit "old"); (lit "infotip", lit "older")])]
  ∧ ∃ w' evs,
      write_info_tip Samples.latin1 Samples.docs [] Samples.only_infotip
      = (Ok tt, w')
      ∧ nodes w' !! child Samples.docs (lit "desktop.ini") = None
      ∧ events w'
        = events Samples.only_infotip ++ evs
          ++ [EvUnlink (child Samples.docs (lit "desktop.ini"))]
      ∧ Forall (fun e => ∃ a, e = EvSetFileAttributes Samples.docs a) evs.
Proof.
  assert (exists_ Samples.only_infotip Samples.docs = true) as Hex
    by (vm_compute; reflexivity).
  assert (safe_read_config Samples.latin1 Samples.only_infotip
            (child Samples.docs (lit "desktop.ini"))
          = ConfigParser.mk []
              [(SECTION,
                [(lit "INFOTIP", lit "old"); (lit "infotip", lit "older")])])
    as Hdoc by (vm_compute; reflexivity).
  assert (deletable Samples.only_infotip
            (child Samples.docs (lit "desktop.ini"))) as Hdel.
  { split; [apply not_elem_of_empty|].
    intros a c H. vm_compute in H. by injection H as <- _. }
  split; [exact Hex|]. split; [exact Hdel|]. split; [exact Hdoc|].
  apply (write_empty_remark_deletes_sidecar Samples.latin1
           Samples.only_infotip Samples.docs _ Hex
           (not_elem_of_empty _) Hdel Hdoc).
  repeat constructor.
Defined.

(** C2, counterexample to the claim as stated — the same sidecar with
    the read-only attribute.  The platform does not delete a read-only
    file: [unlink] raises [PermissionError], [write_info_tip] passes it
    on, and the sidecar is on disk as before. *)
Lemma write_empty_remark_readonly_sidecar :
  safe_read_config Samples.latin1 Samples.only_infotip_readonly
    (child Samples.docs (lit "desktop.ini"))
  = ConfigParser.mk []
      [(SECTION, [(lit "INFOTIP", lit "old"); (lit "infotip", lit "older")])]
  ∧ fst (write_info_tip Samples.latin1 Samples.docs []
           Samples.only_infotip_readonly)
    = Raise PermissionError
  ∧ nodes (snd (write_info_tip Samples.latin1 Samples.docs []
                  Samples.only_infotip_readonly))
      !! child Samples.docs (lit "desktop.ini")
    = nodes Samples.only_infotip_readonly
        !! child Samples.docs (lit "desktop.ini")
  ∧ sidecar (snd (write_info_tip Samples.latin1 Samples.docs []
                    Samples.only_infotip_readonly)) Samples.docs ≠ None.
Proof.
  split; [vm_compute; reflexivity|]. split; [vm_compute; reflexivity|].
  split; [vm_compute; reflexivity|].
  intros H. vm_compute in H. discriminate H.
Qed.

(** ** Reading a remark: [read_info_tip] *)

Section Reading.

Variable mbcs_decode : bytes -> option str.

(** A folder without sidecar has the empty remark. *)
Lemma read_info_tip_no_sidecar (w : world) (folder : Path) :
  (∀ a c, nodes w !! child folder (lit "desktop.ini") ≠ Some (File a c)) ->
  read_info_tip mbcs_decode w folder = Ok [].
Proof.
  intros Hno. unfold read_info_tip.
  by rewrite safe_read_config_no_file.
Qed.

(** The loop returns what [get] yields for the first case variant of the
    key among the options. *)
Lemma read_info_tip_loop_first (parser : ConfigParser.t) (ks1 ks2 : list str)
    (k : str) :
  Forall (fun k' => is_infotip k' = false) ks1 ->
  is_infotip k = true ->
  read_info_tip_loop parser (ks1 ++ k :: ks2)
  = ConfigParser.get parser SECTION k [].
Proof.
  intros Hks1 Hk. induction Hks1 as [|k' ks1 Hk' _ IH]; simpl.
  - by rewrite Hk.
  - by rewrite Hk'.
Qed.

Lemma read_info_tip_loop_none (parser : ConfigParser.t) (ks : list str) :
  Forall (fun k' => is_infotip k' = false) ks ->
  read_info_tip_loop parser ks = Ok [].
Proof.
  induction 1 as [|k ks Hk _ IH]; simpl; [done|]. by rewrite Hk.
Qed.

(** C3, the code at a failing input — the sidecar of a Windows known
    folder stores its tip as a resource reference with percent signs.  It
    decodes and parses under the first encoding, and [read_info_tip]
    raises [InterpolationSyntaxError] instead of returning a string. *)
Theorem read_info_tip_raises_on_percent :
  read_info_tip mbcs_decode Samples.shell_folder Samples.docs
  = Raise InterpolationSyntaxError.
Proof. vm_compute. reflexivity. Qed.

(** C10, the code at a failing input — with two case variants of the key
    in the section, the first holding [100% sure], [read_info_tip] does
    not return the value of the first variant: the interpolation of that
    value raises. *)
Theorem read_info_tip_first_variant_raises :
  safe_read_config mbcs_decode Samples.two_variants Samples.docs_ini
  = ConfigParser.mk []
      [(SECTION, [(lit "InfoTip", lit "100% sure"); (lit "infotip", lit "other")])]
  ∧ read_info_tip mbcs_decode Samples.two_variants Samples.docs
    = Raise InterpolationSyntaxError.
Proof. split; vm_compute; reflexivity. Qed.

End Reading.

(** The second way [read_info_tip] departs from C3: a sidecar that fails
    to parse under every candidate encoding still yields the remark read
    before the failure, because the attempts share one parser object. *)
Lemma read_info_tip_after_failed_parse :
  fst (ConfigParser.read_string ConfigParser.empty
         (lit "[.ShellClassInfo]" ++ [LF] ++ lit "InfoTip=kept" ++ [LF]
          ++ lit "stray" ++ [LF]))
  = ConfigParser.mk [] [(SECTION, [(lit "InfoTip", lit "kept")])]
  ∧ snd (ConfigParser.read_string ConfigParser.empty
           (lit "[.ShellClassInfo]" ++ [LF] ++ lit "InfoTip=kept" ++ [LF]
            ++ lit "stray" ++ [LF]))
    = Some ParsingError
  ∧ read_info_tip Samples.latin1 Samples.stray_line Samples.docs
    = Ok (lit "kept").
Proof. repeat split; vm_compute; reflexivity. Qed.

(** ** The batch save of the window *)

Section BatchSave.

Variable mbcs_decode : bytes -> option str.

Lemma dict_get_set_eq {V} (d : dict V) k v :
  dict_get (dict_set d k v) k = Some v.
Proof.
  induction d as [|[k' v'] d IH]; simpl.
  - by rewrite str_eqb_refl.
  - destruct (str_eqb k' k) eqn:E; simpl; by rewrite E.
Qed.

Lemma dict_get_set_ne {V} (d : dict V) k k' v :
  k ≠ k' -> dict_get (dict_set d k v) k' = dict_get d k'.
Proof.
  intros Hne. induction d as [|[k0 v0] d IH]; simpl.
  - by rewrite (proj2 (str_eqb_neq k k')).
  - destruct (str_eqb k0 k) eqn:E; simpl.
    + apply str_eqb_eq in E as ->.
      by rewrite (proj2 (str_eqb_neq k k')).
    + by rewrite IH.
Qed.

Lemma dict_get_elem {V} (d : dict V) k v :
  NoDup (dict_keys d) -> (k, v) ∈ d -> dict_get d k = Some v.
Proof.
  induction d as [|[k' v'] d IH]; simpl.
  - intros _ H. by apply elem_of_nil in H.
  - rewrite NoDup_cons. intros [Hk Hd] Hin.
    apply elem_of_cons in Hin as [[= -> ->]|Hin].
    + by rewrite str_eqb_refl.
    + destruct (str_eqb k' k) eqn:E; [|by apply IH].
      apply str_eqb_eq in E as ->. destruct Hk.
      apply list_elem_of_fmap. by exists (k, v).
Qed.

Lemma save_loop_spec (changed : list (str * FolderRemark)) (st : SaveState)
    (w : world) :
  NoDup (dict_keys changed) ->
  (∀ key row, (key, row) ∈ changed ->
              dict_get (rows_by_path st) key = Some row) ->
  ∃ outs,
    attempts mbcs_decode changed w outs
      (snd (save_loop mbcs_decode (dict_keys changed) st w))
    ∧ success_items (fst (save_loop mbcs_decode (dict_keys changed) st w))
      = success_items st ++ successes outs
    ∧ failed_items (fst (save_loop mbcs_decode (dict_keys changed) st w))
      = failed_items st ++ failures outs
    ∧ (∀ key row r, (key, row, r) ∈ outs ->
         dict_get
           (rows_by_path (fst (save_loop mbcs_decode (dict_keys changed) st w)))
           key
         = Some (row_after row r))
    ∧ (∀ key, key ∉ dict_keys changed ->
         dict_get
           (rows_by_path (fst (save_loop mbcs_decode (dict_keys changed) st w)))
           key
         = dict_get (rows_by_path st) key).
Proof.
  revert st w. induction changed as [|[key row] rest IH]; intros st w Hnd Hget.
  - exists []. simpl. rewrite !app_nil_r.
    split; [apply attempts_nil|]. split; [done|]. split; [done|].
    split; [|done].
    intros ? ? ? H. by apply elem_of_nil in H.
  - simpl in Hnd. apply NoDup_cons in Hnd as [Hkey Hnd].
    simpl. rewrite (Hget key row) by apply list_elem_of_here.
    destruct (write_info_tip mbcs_decode (path row) (current_remark row) w)
      as [r w1] eqn:Hw.
    set (st1 := match r with
                | Ok _ => mkSave (dict_set (rows_by_path st) key (mark_saved row))
                                 (success_items st ++ [name row])
                                 (failed_items st)
                | Raise exc => mkSave (rows_by_path st) (success_items st)
                                 (failed_items st ++ [(name row, exc)])
                end).
    assert (∀ key' , key' ≠ key ->
              dict_get (rows_by_path st1) key' = dict_get (rows_by_path st) key')
      as Hother.
    { intros key' Hne. subst st1. destruct r; simpl; [|done].
      by apply dict_get_set_ne. }
    assert (dict_get (rows_by_path st1) key = Some (row_after row r)) as Hthis.
    { subst st1. destruct r; simpl.
      - apply dict_get_set_eq.
      - apply Hget, list_elem_of_here. }
    destruct (IH st1 w1 Hnd) as (outs & Hatt & Hsucc & Hfail & Hrows & Hrest).
    { intros key' row' Hin. rewrite Hother.
      - apply Hget. by apply list_elem_of_further.
      - intros ->. apply Hkey. apply list_elem_of_fmap. by exists (key, row'). }
    assert (save_loop mbcs_decode (dict_keys rest) st1 w1
            = match r with
              | Ok _ =>
                  save_loop mbcs_decode (dict_keys rest)
                    (mkSave (dict_set (rows_by_path st) key (mark_saved row))
                            (success_items st ++ [name row]) (failed_items st))
                    w1
              | Raise exc =>
                  save_loop mbcs_decode (dict_keys rest)
                    (mkSave (rows_by_path st) (success_items st)
                            (failed_items st ++ [(name row, exc)]))
                    w1
              end) as Heq by (subst st1; by destruct r).
    rewrite <- Heq. clear Heq.
    exists ((key, row, r) :: outs).
    split; [by econstructor|].
    split; [rewrite Hsucc; subst st1; destruct r; simpl;
            by rewrite <- ?app_assoc|].
    split; [rewrite Hfail; subst st1; destruct r; simpl;
            by rewrite <- ?app_assoc|].
    split.
    + intros key' row' r' Hin.
      apply elem_of_cons in Hin as [[= -> -> ->]|Hin]; [|by apply Hrows].
      rewrite Hrest by done. exact Hthis.
    + intros key' Hnotin. apply not_elem_of_cons in Hnotin as [Hne Hnotin].
      rewrite Hrest by done. by apply Hother.
Qed.

Lemma attempts_keys changed w outs w' :
  attempts mbcs_decode changed w outs w' -> map (fun o => fst (fst o)) outs = dict_keys changed.
Proof. induction 1; simpl; [done|]. by f_equal. Qed.

Lemma attempts_rows changed w outs w' key row r :
  attempts mbcs_decode changed w outs w' -> (key, row, r) ∈ outs -> (key, row) ∈ changed.
Proof.
  induction 1 as [|? ? ? ? ? ? ? ? ? ? IH]; intros Hin.
  - by apply elem_of_nil in Hin.
  - apply elem_of_cons in Hin as [[= -> -> ->]|Hin].
    + apply list_elem_of_here.
    + apply list_elem_of_further. by apply IH.
Qed.

(** C4 — batch partial failure.  Given the rows of the window (a dict, so
    with distinct keys), the batch save makes one attempt per dirty row,
    in order, each on the file system as the earlier attempts left it,
    whether they succeeded or raised; the report lists exactly the names of
    the rows whose attempt returned and, with the error, the names of
    those whose attempt raised; a dirty row keeps its name, path and
    edited remark, and its [original_remark] equals its [current_remark]
    afterwards if and only if its attempt succeeded; rows that were not
    dirty are left alone. *)
Theorem save_changes_partial_failure (rows : dict FolderRemark) (w : world) :
  NoDup (dict_keys rows) ->
  ∃ outs,
    attempts mbcs_decode (filter (fun kv => is_dirty (snd kv)) rows) w outs
      (snd (_save_changes mbcs_decode rows w))
    ∧ success_items (fst (_save_changes mbcs_decode rows w)) = successes outs
    ∧ failed_items (fst (_save_changes mbcs_decode rows w)) = failures outs
    ∧ (∀ key row r, (key, row, r) ∈ outs ->
         ∃ row',
           dict_get (rows_by_path (fst (_save_changes mbcs_decode rows w))) key
           = Some row'
           ∧ name row' = name row ∧ path row' = path row
           ∧ current_remark row' = current_remark row
           ∧ (original_remark row' = current_remark row' <-> ∃ u, r = Ok u))
    ∧ (∀ key row, dict_get rows key = Some row -> is_dirty row = false ->
         dict_get (rows_by_path (fst (_save_changes mbcs_decode rows w))) key
         = Some row).
Proof.
  intros Hnd. unfold _save_changes, changed_rows.
  set (changed := filter (fun kv => is_dirty (snd kv)) rows).
  assert (NoDup (dict_keys changed)) as Hndc.
  { eapply sublist_NoDup; [exact Hnd|].
    apply fmap_sublist, sublist_filter. }
  assert (∀ key row, (key, row) ∈ changed -> dict_get rows key = Some row)
    as Hget.
  { intros key row Hin. apply list_elem_of_filter in Hin as [_ Hin].
    by apply dict_get_elem. }
  destruct (save_loop_spec changed (mkSave rows [] []) w Hndc Hget)
    as (outs & Hatt & Hsucc & Hfail & Hrows & Hrest).
  exists outs. split; [done|]. split; [done|]. split; [done|]. split.
  - intros key row r Hin. exists (row_after row r).
    split; [by apply Hrows|].
    pose proof (attempts_rows _ _ _ _ _ _ _ Hatt Hin) as Hch.
    apply list_elem_of_filter in Hch as [Hdirty _]. simpl in Hdirty.
    unfold is_dirty in Hdirty. apply Is_true_true in Hdirty.
    apply negb_true_iff, str_eqb_neq in Hdirty.
    destruct r as [[]|e]; simpl; repeat split; try done; eauto.
    intros [u Hu]. discriminate Hu.
  - intros key row Hrow Hclean. rewrite Hrest; [done|].
    intros Hin. apply list_elem_of_fmap in Hin as ([key' row'] & -> & Hin).
    pose proof (Hget _ _ Hin) as Hrow'. simpl in *.
    apply list_elem_of_filter in Hin as [Hdirty _]. simpl in Hdirty.
    assert (row' = row) as -> by congruence.
    rewrite Hclean in Hdirty. done.
Qed.

End BatchSave.

Example save_changes_three_rows :
  let st := fst (_save_changes Samples.latin1 BatchSample.rows BatchSample.disk) in
  success_items st = [lit "a"; lit "c"]
  ∧ failed_items st = [(lit "b", FileNotFoundError)]
  ∧ map (fun kv => original_remark (snd kv)) (rows_by_path st)
    = [lit "first"; []; lit "third"].
Proof. vm_compute. done. Qed.

Lemma save_changes_partial_failure_witness :
  NoDup (dict_keys BatchSample.rows)
  ∧ ∃ outs,
      attempts Samples.latin1
        (filter (fun kv => is_dirty (snd kv)) BatchSample.rows)
        BatchSample.disk outs
        (snd (_save_changes Samples.latin1 BatchSample.rows BatchSample.disk))
      ∧ success_items
          (fst (_save_changes Samples.latin1 BatchSample.rows BatchSample.disk))
        = successes outs
      ∧ failed_items
          (fst (_save_changes Samples.latin1 BatchSample.rows BatchSample.disk))
        = failures outs
      ∧ (∀ key row r, (key, row, r) ∈ outs ->
           ∃ row',
             dict_get
               (rows_by_path
                  (fst (_save_changes Samples.latin1 BatchSample.rows
                          BatchSample.disk))) key
             = Some row'
             ∧ name row' = name row ∧ path row' = path row
             ∧ current_remark row' = current_remark row
             ∧ (original_remark row' = current_remark row'
                <-> ∃ u, r = Ok u))
      ∧ (∀ key row, dict_get BatchSample.rows key = Some row ->
           is_dirty row = false ->
           dict_get
             (rows_by_path
                (fst (_save_changes Samples.latin1 BatchSample.rows
                        BatchSample.disk))) key
           = Some row).
Proof.
  assert (NoDup (dict_keys BatchSample.rows)) as Hnd.
  { apply (bool_decide_unpack _). vm_compute. exact I. }
  split; [exact Hnd|].
  exact (save_changes_partial_failure Samples.latin1 BatchSample.rows
           BatchSample.disk Hnd).
Defined.

Lemma write_info_tip_not_found_witness :
  exists_ Samples.plain [lit "C:"; lit "gone"] = false
  ∧ write_info_tip Samples.latin1 [lit "C:"; lit "gone"] (lit "note")
      Samples.plain
    = (Raise FileNotFoundError, Samples.plain).
Proof.
  assert (exists_ Samples.plain [lit "C:"; lit "gone"] = false) as Hex
    by (vm_compute; reflexivity).
  split; [exact Hex|].
  exact (write_info_tip_not_found Samples.latin1 Samples.plain
           [lit "C:"; lit "gone"] (lit "note") Hex).
Defined.

(** ** Stripping *)

Section StripFacts.

Implicit Types (s a b : str) (c : N).

Lemma lstrip_app a b :
  lstrip (a ++ b) = match lstrip a with [] => lstrip b | l => l ++ b end.
Proof.
  induction a as [|c a IH]; simpl; [by destruct (lstrip b)|].
  destruct (isspace c); done.
Qed.

Lemma lstrip_nonspace c s : isspace c = false -> lstrip (c :: s) = c :: s.
Proof. intros H. simpl. by rewrite H. Qed.

Lemma lstrip_space c s : isspace c = true -> lstrip (c :: s) = lstrip s.
Proof. intros H. simpl. by rewrite H. Qed.

Lemma lstrip_idemp s : lstrip (lstrip s) = lstrip s.
Proof.
  induction s as [|c s IH]; simpl; [done|].
  destruct (isspace c) eqn:E; [done|]. simpl. by rewrite E.
Qed.

Lemma rstrip_nil : rstrip [] = [].
Proof. done. Qed.

(** Everything up to a non-blank character survives [rstrip]. *)
Lemma rstrip_app_nonspace a c b :
  isspace c = false -> rstrip (a ++ c :: b) = a ++ c :: rstrip b.
Proof.
  intros Hc. unfold rstrip.
  rewrite rev_app_distr. simpl. rewrite <- app_assoc. simpl.
  rewrite lstrip_app.
  assert (lstrip (c :: rev a) = c :: rev a) as Hl by by apply lstrip_nonspace.
  destruct (lstrip (rev b)) as [|x l] eqn:E.
  - rewrite Hl. simpl. by rewrite rev_involutive.
  - rewrite rev_app_distr. simpl. rewrite rev_involutive.
    by rewrite <- app_assoc.
Qed.

Lemma rstrip_cons_nonspace c s :
  isspace c = false -> rstrip (c :: s) = c :: rstrip s.
Proof. intros Hc. exact (rstrip_app_nonspace [] c s Hc). Qed.

Lemma rstrip_snoc_nonspace a c :
  isspace c = false -> rstrip (a ++ [c]) = a ++ [c].
Proof. intros Hc. by rewrite rstrip_app_nonspace. Qed.

Lemma rstrip_snoc_space a c :
  isspace c = true -> rstrip (a ++ [c]) = rstrip a.
Proof.
  intros Hc. unfold rstrip. rewrite rev_app_distr. simpl. by rewrite Hc.
Qed.

Lemma rstrip_cons_space c s :
  isspace c = true ->
  rstrip (c :: s) = match rstrip s with [] => [] | l => c :: l end.
Proof.
  intros Hc. induction s as [|x s IH] using rev_ind.
  - unfold rstrip. simpl. by rewrite Hc.
  - destruct (isspace x) eqn:Hx.
    + rewrite app_comm_cons, !rstrip_snoc_space by done. exact IH.
    + rewrite app_comm_cons, !rstrip_snoc_nonspace by done.
      by destruct s.
Qed.

Lemma strip_cons_space c s : isspace c = true -> strip (c :: s) = strip s.
Proof.
  intros Hc. unfold strip. rewrite rstrip_cons_space by done.
  destruct (rstrip s); [done|]. by rewrite lstrip_space.
Qed.

Lemma trimmed_nil : trimmed [].
Proof. done. Qed.

Lemma trimmed_strip_id s : trimmed s -> strip s = s.
Proof. intros [Hl Hr]. unfold strip. by rewrite Hr. Qed.

Lemma rstrip_idemp s : rstrip (rstrip s) = rstrip s.
Proof.
  induction s as [|x s IH] using rev_ind; [done|].
  destruct (isspace x) eqn:Hx.
  - by rewrite rstrip_snoc_space.
  - by rewrite !rstrip_snoc_nonspace.
Qed.

Lemma rstrip_lstrip s : rstrip (lstrip s) = lstrip (rstrip s).
Proof.
  induction s as [|c s IH]; [done|].
  destruct (isspace c) eqn:Hc.
  - rewrite lstrip_space by done. rewrite rstrip_cons_space by done.
    rewrite IH. destruct (rstrip s); [done|].
    by rewrite (lstrip_space c) by done.
  - rewrite lstrip_nonspace by done.
    rewrite !rstrip_cons_nonspace by done. simpl. by rewrite Hc.
Qed.

Lemma strip_trimmed s : trimmed (strip s).
Proof.
  unfold trimmed, strip. split.
  - apply lstrip_idemp.
  - by rewrite <- rstrip_lstrip, rstrip_idemp, rstrip_lstrip.
Qed.

Lemma strip_idemp s : strip (strip s) = strip s.
Proof. apply trimmed_strip_id, strip_trimmed. Qed.

Lemma rstrip_strip s : rstrip (strip s) = strip s.
Proof. apply strip_trimmed. Qed.

Lemma strip_rstrip s : strip (rstrip s) = strip s.
Proof. unfold strip. by rewrite rstrip_idemp. Qed.

Lemma strip_lstrip s : strip (lstrip s) = strip s.
Proof. unfold strip. by rewrite rstrip_lstrip, lstrip_idemp. Qed.

(** A trimmed string is empty or starts with a non-blank character. *)
Lemma trimmed_head c s : trimmed (c :: s) -> isspace c = false.
Proof.
  intros [Hl _]. simpl in Hl. destruct (isspace c) eqn:E; [|done].
  assert (length (lstrip s) ≤ length s)%nat as Hlen.
  { clear. induction s as [|x s IH]; simpl; [done|].
    destruct (isspace x); simpl; lia. }
  rewrite Hl in Hlen. simpl in Hlen. lia.
Qed.

Lemma trimmed_nonspace_ends c s c' :
  isspace c = false -> isspace c' = false -> trimmed (c :: s ++ [c']).
Proof.
  intros Hc Hc'. split.
  - by apply lstrip_nonspace.
  - by rewrite app_comm_cons, rstrip_snoc_nonspace.
Qed.

Lemma startswith_cons c s p :
  startswith (c :: s) [p] = (c =? p).
Proof. simpl. destruct s; by destruct (c =? p). Qed.

End StripFacts.

(** ** Reading back what [ConfigParser.write] wrote *)

Section ReadBack.

Import ConfigParser.

Implicit Types (s k n v : str) (c : N).

(** *** The readers of single lines *)

Lemma rsplit_snoc c s : rsplit c (s ++ [c]) = Some (s, []).
Proof.
  induction s as [|x s IH]; simpl.
  - by rewrite N.eqb_refl.
  - by rewrite IH.
Qed.

Lemma split_delim_app a c t :
  forallb (fun x => negb (is_delim x)) a = true ->
  is_delim c = true ->
  split_delim (a ++ c :: t) = Some (a, t).
Proof.
  intros Ha Hc. induction a as [|x a IH]; simpl in *.
  - by rewrite Hc.
  - apply andb_true_iff in Ha as [Hx Ha].
    apply negb_true_iff in Hx. rewrite Hx. by rewrite IH.
Qed.

Lemma first_nonspace_None s : first_nonspace s = None -> strip s = [].
Proof.
  intros H. assert (lstrip s = []) as Hl.
  { induction s as [|c s IH]; simpl in *; [done|].
    destruct (isspace c); [|done].
    destruct (first_nonspace s); [done|]. by apply IH. }
  unfold strip. by rewrite <- rstrip_lstrip, Hl.
Qed.

Lemma clean_nonempty_indent c s :
  isspace c = true -> clean (c :: s) ≠ [] ->
  (0 <? cur_indent_level (c :: s))%nat = true.
Proof.
  intros Hc Hcl. unfold cur_indent_level. simpl. rewrite Hc.
  destruct (first_nonspace s) eqn:E; [done|].
  destruct Hcl. unfold clean.
  rewrite strip_cons_space, first_nonspace_None by done.
  by destruct (is_comment _).
Qed.

(** The facts [key_ok] packs. *)
Lemma key_ok_inv k :
  key_ok k = true ->
  ∃ c k', k = c :: k'
    ∧ isspace c = false ∧ (c =? HASH) = false ∧ (c =? SEMICOLON) = false
    ∧ (c =? OPEN_BRACKET) = false
    ∧ rstrip k = k
    ∧ forallb (fun x => negb (is_delim x)) k = true.
Proof.
  unfold key_ok. destruct k as [|c k']; [done|].
  rewrite !andb_true_iff, !negb_true_iff.
  intros [[(((Hs & Hh) & Hsc) & Hb) Hlast] Hall].
  exists c, k'. repeat split; try done.
  - destruct (exists_last (l := c :: k')) as (a & x & Hax); [done|].
    rewrite Hax in Hlast |- *. rewrite last_last in Hlast.
    by apply rstrip_snoc_nonspace.
  - clear -Hall. induction (c :: k') as [|x l IH]; simpl in *; [done|].
    apply andb_true_iff in Hall as [Hx Hl].
    apply andb_true_iff in Hx as [Hx _]. rewrite Hx. by apply IH.
Qed.

Lemma name_ok_inv n :
  name_ok n = true -> n ≠ [] ∧ str_eqb n DEFAULTSECT = false.
Proof.
  unfold name_ok. rewrite !andb_true_iff, negb_true_iff.
  intros [[Hn _] Hd]. split; [by destruct n|done].
Qed.

Lemma lit_delim : lit " = " = [SPACE; EQUALS; SPACE].
Proof. reflexivity. Qed.

(** The stripped form of the first line of an option. *)
Lemma strip_item_line k v0 :
  key_ok k = true ->
  strip (k ++ lit " = " ++ v0) = k ++ SPACE :: EQUALS :: rstrip (SPACE :: v0).
Proof.
  intros Hk. destruct (key_ok_inv k Hk) as (c & k' & -> & Hc & _).
  rewrite lit_delim. unfold strip.
  assert ((c :: k') ++ [SPACE; EQUALS; SPACE] ++ v0
          = ((c :: k') ++ [SPACE]) ++ EQUALS :: SPACE :: v0) as ->
    by (by rewrite <- app_assoc).
  rewrite rstrip_app_nonspace by reflexivity.
  rewrite <- app_assoc. simpl. by rewrite Hc.
Qed.

Lemma stored_value v0 : strip (lstrip (rstrip (SPACE :: v0))) = strip v0.
Proof.
  rewrite strip_lstrip, strip_rstrip. by apply strip_cons_space.
Qed.

(** *** The reader on the lines of a section *)

Lemma clean_header n :
  clean (OPEN_BRACKET :: n ++ [CLOSE_BRACKET])
  = OPEN_BRACKET :: n ++ [CLOSE_BRACKET].
Proof.
  unfold clean, is_comment.
  rewrite (trimmed_strip_id (OPEN_BRACKET :: n ++ [CLOSE_BRACKET]))
    by (by apply trimmed_nonspace_ends).
  by rewrite !startswith_cons.
Qed.

Lemma read_header_line secs cur sn on added n :
  name_ok n = true ->
  n ∉ dict_keys secs ->
  read_line (mkR [] secs cur sn on 0%nat added false)
            (OPEN_BRACKET :: n ++ [CLOSE_BRACKET])
  = (st_open secs n [] None (ElSection n :: added), None).
Proof.
  intros Hn Hfresh. destruct (name_ok_inv n Hn) as [Hne Hdef].
  unfold read_line. rewrite clean_header.
  cbn [r_cursect r_optname r_indent].
  rewrite Nat.ltb_irrefl, andb_false_r.
  unfold sect_match. rewrite N.eqb_refl, rsplit_snoc.
  destruct n as [|c n']; [done|].
  unfold handle_header, set_indent. cbn [r_sections r_defaults r_cursect
    r_sectname r_optname r_indent r_added r_errors].
  rewrite (proj2 (dict_mem_not_elem secs (c :: n'))) by done.
  rewrite Hdef. by rewrite dict_set_fresh.
Qed.

Lemma cur_append_open secs n raw k l added line :
  n ∉ dict_keys secs ->
  k ∉ dict_keys raw ->
  cur_append (st_open secs n (raw ++ [(k, Lines l)]) (Some k) added) line
  = st_open secs n (raw ++ [(k, Lines (l ++ [line]))]) (Some k) added.
Proof.
  intros Hn Hk. unfold cur_append, cur_dict, st_open.
  cbn [r_cursect r_sections r_optname].
  rewrite dict_get_middle by done.
  rewrite dict_get_middle by done.
  unfold cur_store. cbn [r_cursect r_sections r_defaults r_sectname
    r_optname r_indent r_added r_errors].
  by rewrite !dict_set_middle by done.
Qed.

Lemma read_first_line secs n raw optname added k v0 :
  n ∉ dict_keys secs ->
  key_ok k = true ->
  k ∉ dict_keys raw ->
  ElOption n k ∉ added ->
  read_line (st_open secs n raw optname added) (k ++ lit " = " ++ v0)
  = (st_open secs n (raw ++ [(k, Lines [strip v0])]) (Some k)
       (ElOption n k :: added), None).
Proof.
  intros Hn Hk Hfresh Hadd.
  pose proof (strip_item_line k v0 Hk) as Hstrip.
  destruct (key_ok_inv k Hk) as (c & k' & -> & Hc & Hh & Hsc & Hb & Hr & Hd).
  assert (clean ((c :: k') ++ lit " = " ++ v0)
          = (c :: k') ++ SPACE :: EQUALS :: rstrip (SPACE :: v0)) as Hclean.
  { unfold clean, is_comment. rewrite Hstrip. simpl app.
    by rewrite !startswith_cons, Hh, Hsc. }
  unfold read_line, st_open. rewrite Hclean. simpl app at 1.
  assert (cur_indent_level ((c :: k') ++ lit " = " ++ v0) = 0%nat) as ->.
  { unfold cur_indent_level. simpl. by rewrite Hc. }
  cbn [r_indent]. rewrite Nat.ltb_irrefl, andb_false_r.
  unfold sect_match. simpl app at 1. cbv beta iota. rewrite Hb.
  unfold set_indent. cbn [r_sections r_defaults r_cursect r_sectname
    r_optname r_indent r_added r_errors].
  unfold handle_option. rewrite Hclean.
  unfold opt_match.
  assert ((c :: k') ++ SPACE :: EQUALS :: rstrip (SPACE :: v0)
          = ((c :: k') ++ [SPACE]) ++ EQUALS :: rstrip (SPACE :: v0)) as ->
    by (by rewrite <- app_assoc).
  rewrite split_delim_app; [|rewrite forallb_app, Hd; reflexivity|reflexivity].
  rewrite rstrip_snoc_space, Hr by reflexivity.
  cbn [r_sections r_defaults r_cursect r_sectname r_optname r_indent
    r_added r_errors default]. rewrite Hr.
  rewrite bool_decide_eq_false_2 by done.
  unfold cur_dict, cur_store. cbn [r_sections r_defaults r_cursect
    r_sectname r_optname r_indent r_added r_errors].
  rewrite dict_get_middle by done.
  rewrite dict_set_middle by done.
  rewrite dict_set_fresh by done.
  by rewrite stored_value.
Qed.

Lemma read_cont_line secs n raw k l added vi :
  n ∉ dict_keys secs ->
  k ≠ [] ->
  k ∉ dict_keys raw ->
  read_line (st_open secs n (raw ++ [(k, Lines l)]) (Some k) added)
            (TAB :: vi)
  = (st_open secs n (raw ++ [(k, Lines (l ++ cont_line (TAB :: vi)))])
       (Some k) added, None).
Proof.
  intros Hn Hk Hfresh. unfold read_line, cont_line.
  assert (truthy (Some k) = true) as Htr by (by destruct k).
  destruct (clean (TAB :: vi)) as [|c cl] eqn:Hclean.
  - cbn [st_open r_cursect r_optname]. rewrite Htr.
    rewrite bool_decide_eq_true_2 by done.
    destruct (has_comments (TAB :: vi)); cbn [negb andb].
    + by rewrite app_nil_r.
    + by rewrite (cur_append_open secs n raw k l).
  - cbn [st_open r_cursect r_optname r_indent]. rewrite Htr.
    rewrite bool_decide_eq_true_2 by done.
    rewrite clean_nonempty_indent; [|reflexivity|by rewrite Hclean].
    cbn [andb].
    by rewrite (cur_append_open secs n raw k l).
Qed.

Lemma read_blank_line_open secs n raw k l added :
  n ∉ dict_keys secs ->
  k ≠ [] ->
  k ∉ dict_keys raw ->
  read_line (st_open secs n (raw ++ [(k, Lines l)]) (Some k) added) []
  = (st_open secs n (raw ++ [(k, Lines (l ++ [[]]))]) (Some k) added, None).
Proof.
  intros Hn Hk Hfresh. unfold read_line.
  assert (truthy (Some k) = true) as Htr by (by destruct k).
  cbn [clean is_comment strip rstrip lstrip rev startswith orb].
  cbn [st_open r_cursect r_optname]. rewrite Htr.
  rewrite bool_decide_eq_true_2 by done.
  assert (has_comments [] = false) as -> by reflexivity.
  cbn [negb andb].
  by rewrite (cur_append_open secs n raw k l).
Qed.

Lemma read_blank_line_empty secs n added :
  read_line (st_open secs n [] None added) []
  = (st_open secs n [] None added, None).
Proof.
  unfold read_line.
  cbn [clean is_comment strip rstrip lstrip rev startswith orb].
  cbn [st_open r_cursect r_optname truthy]. by rewrite andb_false_r.
Qed.

(** *** The reader on whole sections and documents *)

Lemma read_lines_app st ls1 ls2 :
  read_lines st (ls1 ++ ls2)
  = match read_lines st ls1 with
    | (st', None) => read_lines st' ls2
    | (st', Some e) => (st', Some e)
    end.
Proof.
  revert st. induction ls1 as [|l ls1 IH]; intros st; simpl; [done|].
  destruct (read_line st l) as [st' [e|]]; [done|]. apply IH.
Qed.

Lemma read_cont_lines secs n raw k l added vs :
  n ∉ dict_keys secs ->
  k ≠ [] ->
  k ∉ dict_keys raw ->
  read_lines (st_open secs n (raw ++ [(k, Lines l)]) (Some k) added)
             (map (cons TAB) vs)
  = (st_open secs n
       (raw ++ [(k, Lines (l ++ flat_map (fun vi => cont_line (TAB :: vi)) vs))])
       (Some k) added, None).
Proof.
  intros Hn Hk Hfresh. revert l.
  induction vs as [|vi vs IH]; intros l; simpl.
  - by rewrite app_nil_r.
  - rewrite read_cont_line by done. rewrite IH. by rewrite <- app_assoc.
Qed.

(** Reading the lines of one option appends the option to the section. *)
Lemma read_item secs n raw optname added k v :
  n ∉ dict_keys secs ->
  key_ok k = true ->
  k ∉ dict_keys raw ->
  ElOption n k ∉ added ->
  read_lines (st_open secs n raw optname added) (item_lines (k, v))
  = (st_open secs n (raw ++ [(k, Lines (parsed_lines v))]) (Some k)
       (ElOption n k :: added), None).
Proof.
  intros Hn Hk Hfresh Hadd. unfold item_lines, parsed_lines. cbn [fst snd].
  destruct (split_lf v) as [v0 vs]. cbn [read_lines].
  rewrite read_first_line by done.
  apply read_cont_lines; try done.
  destruct (key_ok_inv k Hk) as (c & k' & -> & _). done.
Qed.

Lemma dict_keys_raw_open items : dict_keys (raw_open items) = dict_keys items.
Proof. unfold raw_open, dict_keys. rewrite map_map. done. Qed.

Lemma read_items secs n done_items items added :
  n ∉ dict_keys secs ->
  Forall (fun kv => key_ok (fst kv) = true) items ->
  NoDup (dict_keys (done_items ++ items)) ->
  added_ok (dict_keys secs) n (dict_keys done_items) added ->
  ∃ added',
    read_lines (st_open secs n (raw_open done_items) (last_key done_items) added)
               (flat_map item_lines items)
    = (st_open secs n (raw_open (done_items ++ items))
         (last_key (done_items ++ items)) added', None)
    ∧ added_ok (dict_keys secs) n (dict_keys (done_items ++ items)) added'.
Proof.
  intros Hn Hkeys. revert done_items added.
  induction Hkeys as [|[k v] items Hk _ IH]; intros done_items added Hnd Hadd.
  - exists added. rewrite app_nil_r. done.
  - simpl. rewrite read_lines_app.
    assert (k ∉ dict_keys done_items) as Hfresh.
    { unfold dict_keys in *. rewrite map_app in Hnd. simpl in Hnd.
      apply NoDup_app in Hnd as (_ & Hdisj & _).
      intros Hin. apply (Hdisj k Hin). apply list_elem_of_here. }
    rewrite read_item; try done.
    + assert (done_items ++ (k, v) :: items
              = (done_items ++ [(k, v)]) ++ items) as Hassoc
        by (by rewrite <- app_assoc).
      rewrite Hassoc in Hnd |- *.
      destruct (IH (done_items ++ [(k, v)]) (ElOption n k :: added) Hnd)
        as (added' & Hread & Hadd').
      { intros m k0 Hin. apply elem_of_cons in Hin as [[= -> ->]|Hin].
        - right. split; [done|]. unfold dict_keys. rewrite map_app.
          apply elem_of_app. right. apply list_elem_of_here.
        - destruct (Hadd m k0 Hin) as [?|[-> ?]]; [by left|].
          right. split; [done|]. unfold dict_keys in *. rewrite map_app.
          apply elem_of_app. by left. }
      exists added'. split; [|done]. rewrite <- Hread.
      f_equal. unfold st_open, raw_open, last_key.
      rewrite map_app, rev_app_distr. done.
    + by rewrite dict_keys_raw_open.
    + intros Hin. destruct (Hadd n k Hin) as [?|[_ ?]]; done.
Qed.

Lemma join_snoc sep (l : list str) x :
  l ≠ [] -> join sep (l ++ [x]) = join sep l ++ sep ++ x.
Proof.
  induction l as [|y l IH]; [done|]. intros _.
  destruct l as [|z l]; [done|].
  change (join sep ((y :: z :: l) ++ [x]))
    with (y ++ sep ++ join sep ((z :: l) ++ [x])).
  rewrite IH by done.
  change (join sep (y :: z :: l)) with (y ++ sep ++ join sep (z :: l)).
  by rewrite <- !app_assoc.
Qed.

Lemma parsed_lines_nonempty v : parsed_lines v ≠ [].
Proof. unfold parsed_lines. by destruct (split_lf v). Qed.

(** The blank line that ends a section does not change the value it is
    appended to. *)
Lemma join_value_closed v :
  join_value (Lines (parsed_lines v ++ [[]])) = parsed_value v.
Proof.
  unfold join_value, parsed_value.
  rewrite join_snoc by apply parsed_lines_nonempty.
  rewrite app_nil_r. by apply rstrip_snoc_space.
Qed.

Lemma join_dict_raw_open items :
  join_dict (raw_open items) = map_values parsed_value items.
Proof. unfold join_dict, raw_open, map_values. by rewrite map_map. Qed.

(** Reading the lines of one section adds the section with the values the
    reader makes of the written ones. *)
Lemma read_section secs cur sn on added n items :
  section_ok (n, items) ->
  n ∉ dict_keys secs ->
  added_ok (dict_keys secs) n [] added ->
  ∃ raw on' added',
    read_lines (mkR [] secs cur sn on 0%nat added false)
               (section_lines (n, items))
    = (st_open secs n raw on' added', None)
    ∧ join_dict raw = map_values parsed_value items
    ∧ added_ok (dict_keys (secs ++ [(n, raw)])) n [] added'.
Proof.
  intros (Hname & Hnd & Hkeys) Hn Hadd. simpl in *.
  unfold section_lines. simpl fst. simpl snd.
  cbn [read_lines]. rewrite read_header_line by done.
  rewrite read_lines_app.
  destruct (read_items secs n [] items (ElSection n :: added) Hn Hkeys Hnd)
    as (added' & Hread & Hadd').
  { intros m k Hin. apply elem_of_cons in Hin as [[=]|Hin]. by apply Hadd. }
  change (raw_open []) with (@nil (str * rawval)) in Hread.
  change (last_key []) with (@None str) in Hread.
  rewrite Hread. simpl app.
  assert (added_ok (dict_keys (secs ++ [(n, raw_open items)])) n [] added')
    as Hfinal.
  { intros m k Hin. left. unfold dict_keys. rewrite map_app.
    apply elem_of_app. destruct (Hadd' m k Hin) as [?|[-> _]]; [by left|].
    right. apply list_elem_of_here. }
  destruct items as [|kv items'] using rev_ind.
  - exists [], None, added'. simpl read_lines.
    change (raw_open []) with (@nil (str * rawval)).
    change (last_key []) with (@None str).
    split; [done|]. split; [done|]. exact Hfinal.
  - clear IHitems'. destruct kv as [k v].
    assert (key_ok k = true) as Hk.
    { apply Forall_app in Hkeys as [_ Hk]. by inversion Hk. }
    assert (k ∉ dict_keys (raw_open items')) as Hfresh.
    { rewrite dict_keys_raw_open. unfold dict_keys in *.
      rewrite map_app in Hnd. apply NoDup_app in Hnd as (_ & Hdisj & _).
      intros Hin. apply (Hdisj k Hin). apply list_elem_of_here. }
    exists (raw_open items' ++ [(k, Lines (parsed_lines v ++ [[]]))]),
           (Some k), added'.
    unfold raw_open at 1, last_key. rewrite map_app, rev_app_distr.
    simpl read_lines. fold (raw_open items').
    rewrite read_blank_line_open; try done.
    + split; [done|]. split.
      * unfold join_dict, map_values. rewrite !map_app. cbn [map fst snd].
        rewrite join_value_closed. f_equal.
        apply join_dict_raw_open.
      * intros m k0 Hin. destruct (Hfinal m k0 Hin) as [Hm|[_ Hk0]];
          [|by apply elem_of_nil in Hk0].
        left. unfold dict_keys in *. rewrite map_app in Hm.
        rewrite map_app. exact Hm.
    + destruct (key_ok_inv k Hk) as (c & k' & -> & _). done.
Qed.

Lemma read_doc todo secs cur sn on added :
  Forall section_ok todo ->
  NoDup (dict_keys secs ++ dict_keys todo) ->
  (∀ m k, ElOption m k ∈ added -> m ∈ dict_keys secs) ->
  ∃ secs' cur' sn' on' added',
    read_lines (mkR [] secs cur sn on 0%nat added false) (doc_lines todo)
    = (mkR [] (secs ++ secs') cur' sn' on' 0%nat added' false, None)
    ∧ map (fun sec => (fst sec, join_dict (snd sec))) secs'
      = parsed_sections todo.
Proof.
  intros Hok. revert secs cur sn on added.
  induction Hok as [|[n items] todo Hsec _ IH]; intros secs cur sn on added Hnd Hadd.
  - exists [], cur, sn, on, added. by rewrite app_nil_r.
  - unfold doc_lines. cbn [flat_map]. rewrite read_lines_app.
    assert (n ∉ dict_keys secs) as Hn.
    { apply NoDup_app in Hnd as (_ & Hdisj & _). intros Hin.
      apply (Hdisj n Hin). apply list_elem_of_here. }
    destruct (read_section secs cur sn on added n items Hsec Hn)
      as (raw & on' & added' & -> & Hjoin & Hadd').
    { intros m k Hin. left. by apply (Hadd m k). }
    unfold st_open.
    destruct (IH (secs ++ [(n, raw)]) (Some (InSection n)) (Some n) on' added')
      as (secs' & cur' & sn' & on'' & added'' & Hread & Hjoin').
    { unfold dict_keys in *. rewrite map_app, <- app_assoc. exact Hnd. }
    { intros m k Hin. destruct (Hadd' m k Hin) as [?|[_ Hk]]; [done|].
      by apply elem_of_nil in Hk. }
    exists ((n, raw) :: secs'), cur', sn', on'', added''.
    fold (doc_lines todo). rewrite Hread. rewrite <- app_assoc.
    split; [done|]. unfold parsed_sections in *. cbn [map fst snd].
    by rewrite Hjoin, Hjoin'.
Qed.

(** *** The lines of a written document *)

Lemma lines_from_line cur s t :
  no_lf s = true ->
  lines_from cur (s ++ LF :: t) = (rev cur ++ s) :: lines_from [] t.
Proof.
  revert cur. induction s as [|c s IH]; intros cur Hs; simpl in *.
  - by rewrite app_nil_r.
  - apply andb_true_iff in Hs as [Hc Hs]. apply negb_true_iff in Hc.
    rewrite Hc. rewrite IH by done. simpl. by rewrite <- app_assoc.
Qed.

Lemma lines_from_value pre v t :
  lines_from (rev pre) (replace_lf_lftab v ++ LF :: t)
  = (let '(v0, vs) := split_lf v in (pre ++ v0) :: map (cons TAB) vs)
    ++ lines_from [] t.
Proof.
  revert pre. induction v as [|c v IH]; intros pre; simpl.
  - by rewrite rev_involutive, app_nil_r.
  - destruct (c =? LF) eqn:Hc; simpl.
    + rewrite rev_involutive.
      specialize (IH [TAB]). simpl in IH. rewrite IH.
      destruct (split_lf v) as [v0 vs]. simpl. by rewrite app_nil_r.
    + rewrite Hc. specialize (IH (pre ++ [c])).
      rewrite rev_app_distr in IH. simpl in IH. rewrite IH.
      destruct (split_lf v) as [v0 vs]. simpl. by rewrite <- app_assoc.
Qed.

Lemma no_lf_app a b : no_lf (a ++ b) = no_lf a && no_lf b.
Proof. apply forallb_app. Qed.

Lemma key_ok_no_lf k : key_ok k = true -> no_lf k = true.
Proof.
  unfold key_ok, no_lf. rewrite !andb_true_iff. intros [_ Hall].
  induction k as [|c k IH]; simpl in *; [done|].
  apply andb_true_iff in Hall as [Hc Hall].
  apply andb_true_iff in Hc as [_ Hc]. rewrite Hc. by apply IH.
Qed.

Lemma name_ok_no_lf n : name_ok n = true -> no_lf n = true.
Proof. unfold name_ok. rewrite !andb_true_iff. by intros [[_ ?] _]. Qed.

Lemma lines_from_prefix pre rest cur :
  no_lf pre = true ->
  lines_from cur (pre ++ rest) = lines_from (rev pre ++ cur) rest.
Proof.
  revert cur. induction pre as [|c pre IH]; intros cur Hp; simpl in *.
  - done.
  - apply andb_true_iff in Hp as [Hc Hp]. apply negb_true_iff in Hc.
    rewrite Hc. rewrite IH by done. by rewrite <- app_assoc.
Qed.

Lemma lines_from_item kv t :
  key_ok (fst kv) = true ->
  lines_from [] (write_item kv ++ t) = item_lines kv ++ lines_from [] t.
Proof.
  intros Hk. destruct kv as [k v]. unfold write_item, item_lines.
  cbn [fst snd] in *.
  assert ((k ++ lit " = " ++ replace_lf_lftab v ++ [LF]) ++ t
          = (k ++ lit " = ") ++ replace_lf_lftab v ++ LF :: t) as ->
    by (by rewrite <- !app_assoc).
  assert (no_lf (k ++ lit " = ") = true) as Hno.
  { rewrite no_lf_app, key_ok_no_lf by done. reflexivity. }
  rewrite lines_from_prefix by done. rewrite app_nil_r.
  rewrite lines_from_value.
  destruct (split_lf v) as [v0 vs]. by rewrite <- app_assoc.
Qed.

Lemma lines_from_items items t :
  Forall (fun kv => key_ok (fst kv) = true) items ->
  lines_from [] (concat (map write_item items) ++ t)
  = flat_map item_lines items ++ lines_from [] t.
Proof.
  induction 1 as [|kv items Hk _ IH]; [done|].
  cbn [map concat flat_map]. rewrite <- !app_assoc.
  rewrite lines_from_item by done. by rewrite IH.
Qed.

Lemma lines_from_section sec t :
  section_ok sec ->
  lines_from [] (concat (write_section (fst sec) (snd sec)) ++ t)
  = section_lines sec ++ lines_from [] t.
Proof.
  intros (Hn & _ & Hkeys). destruct sec as [n items]. cbn [fst snd] in *.
  unfold write_section, section_lines. cbn [fst snd concat].
  rewrite concat_app. cbn [concat]. rewrite app_nil_r.
  rewrite <- !app_assoc. cbn [app].
  assert (OPEN_BRACKET :: n ++ CLOSE_BRACKET :: LF
            :: concat (map write_item items) ++ LF :: t
          = (OPEN_BRACKET :: n ++ [CLOSE_BRACKET])
              ++ LF :: concat (map write_item items) ++ LF :: t) as ->
    by (cbn [app]; by rewrite <- app_assoc).
  rewrite lines_from_line.
  - cbn [rev app]. f_equal.
    rewrite lines_from_items by done. rewrite <- app_assoc. f_equal.
  - cbn [no_lf forallb]. fold (no_lf (n ++ [CLOSE_BRACKET])).
    rewrite no_lf_app, name_ok_no_lf by done. reflexivity.
Qed.

Lemma lines_written secs :
  Forall section_ok secs ->
  lines (concat (write (mk [] secs))) = doc_lines secs.
Proof.
  unfold write, lines. cbn [defaults sections app].
  induction 1 as [|sec secs Hsec _ IH]; [done|].
  cbn [map concat]. rewrite concat_app.
  rewrite lines_from_section by done. unfold doc_lines. cbn [flat_map].
  by rewrite IH.
Qed.

(** Reading what [write] produced for such a document succeeds and
    yields the document with every value as the reader makes it. *)
Theorem read_string_written secs :
  doc_ok secs ->
  read_string empty (concat (write (mk [] secs)))
  = (mk [] (parsed_sections secs), None).
Proof.
  intros [Hnd Hok]. unfold read_string.
  rewrite lines_written by done.
  destruct (read_doc secs [] None None None [] Hok)
    as (secs' & cur' & sn' & on' & added' & Hread & Hjoin).
  { done. }
  { intros m k Hin. by apply elem_of_nil in Hin. }
  change (start empty) with (mkR [] [] None None None 0%nat [] false).
  rewrite Hread. cbn [r_errors app]. unfold finish.
  cbn [r_defaults r_sections join_dict map]. by rewrite Hjoin.
Qed.

End ReadBack.

(** ** The text layer: utf-16 and newline translation *)

Section CodecFacts.

Import Codec.

Implicit Types (s : str) (b : bytes).

Lemma text_ok_app s1 s2 : text_ok (s1 ++ s2) = text_ok s1 && text_ok s2.
Proof. apply forallb_app. Qed.

Lemma text_ok_encodable s : text_ok s = true -> encodable s = true.
Proof.
  induction s as [|c s IH]; simpl; [done|].
  rewrite !andb_true_iff. intros [[Hc _] Hs]. split; [done|by apply IH].
Qed.

Lemma utf16_units_encodable c :
  encodable_char c = true -> is_Some (utf16_units c).
Proof.
  unfold encodable_char, utf16_units. rewrite andb_true_iff, negb_true_iff.
  intros [-> ->]. destruct (c <? 0x10000); eauto.
Qed.

Lemma utf16_le_encode_body s :
  encodable s = true -> utf16_le_encode s = Some (utf16_body s).
Proof.
  induction s as [|c s IH]; simpl; [done|].
  rewrite andb_true_iff. intros [Hc Hs].
  destruct (utf16_units_encodable c Hc) as [us Hus].
  rewrite Hus, (IH Hs). unfold utf16_body, units_of. simpl.
  rewrite Hus. simpl. rewrite flat_map_app.
  f_equal. f_equal. clear.
  induction us as [|u us IH]; simpl; [done|]. by rewrite IH.
Qed.

Lemma units_of_bytes_le us b :
  units_of_bytes false (flat_map le_bytes us ++ b)
  = match units_of_bytes false b with
    | Some r => Some (us ++ r)
    | None => None
    end.
Proof.
  induction us as [|u us IH]; simpl.
  - by destruct (units_of_bytes false b).
  - rewrite IH. destruct (units_of_bytes false b); [|done].
    f_equal. f_equal. rewrite N.add_comm, N.mul_comm.
    symmetry. rewrite N.mul_comm. apply N.div_mod. lia.
Qed.

Lemma chars_of_units_of s :
  encodable s = true -> chars_of_units (units_of s) = Some s.
Proof.
  induction s as [|c s IH]; simpl; [done|].
  rewrite andb_true_iff. intros [Hc Hs]. specialize (IH Hs).
  unfold units_of in *. cbn [flat_map].
  unfold encodable_char in Hc. apply andb_true_iff in Hc as [Hsur Hmax].
  apply negb_true_iff in Hsur.
  destruct (c <? 0x10000) eqn:Hlow.
  - assert (utf16_units c = Some [c]) as ->
      by (unfold utf16_units; by rewrite Hsur, Hlow).
    unfold is_surrogate in Hsur. simpl.
    assert (is_high_surrogate c = false) as ->.
    { unfold is_high_surrogate. apply andb_false_iff in Hsur as [H|H];
        [by rewrite H|].
      apply N.leb_gt in H. apply andb_false_iff. right. apply N.leb_gt. lia. }
    assert (is_low_surrogate c = false) as ->.
    { unfold is_low_surrogate. apply andb_false_iff in Hsur as [H|H];
        [|by rewrite H, andb_false_r].
      apply N.leb_gt in H. apply andb_false_iff. left. apply N.leb_gt. lia. }
    by rewrite IH.
  - assert (utf16_units c
            = Some [0xD800 + (c - 0x10000) / 0x400;
                    0xDC00 + (c - 0x10000) mod 0x400]) as ->
      by (unfold utf16_units; by rewrite Hsur, Hlow, Hmax).
    apply N.leb_le in Hmax. apply N.ltb_ge in Hlow.
    pose proof (N.div_mod (c - 0x10000) 0x400 ltac:(lia)) as Hdm.
    pose proof (N.mod_lt (c - 0x10000) 0x400 ltac:(lia)) as Hmod.
    assert ((c - 0x10000) / 0x400 < 0x400) as Hdiv
      by (apply N.Div0.div_lt_upper_bound; lia).
    simpl.
    set (q := (c - 0x10000) / 0x400) in *.
    set (r := (c - 0x10000) mod 0x400) in *.
    clearbody q r.
    assert (is_high_surrogate (0xD800 + q) = true) as ->.
    { unfold is_high_surrogate. apply andb_true_iff.
      split; apply N.leb_le; lia. }
    assert (is_low_surrogate (0xDC00 + r) = true) as ->.
    { unfold is_low_surrogate. apply andb_true_iff.
      split; apply N.leb_le; lia. }
    rewrite IH. f_equal. f_equal. lia.
Qed.

Lemma utf16_decode_body s :
  encodable s = true -> utf16_decode (BOM_LE ++ utf16_body s) = Some s.
Proof.
  intros Hs. unfold utf16_decode, BOM_LE. cbn [app].
  change (units_of_bytes false (utf16_body s) ≫= chars_of_units = Some s).
  unfold utf16_body.
  pose proof (units_of_bytes_le (units_of s) []) as H.
  rewrite app_nil_r in H. rewrite H. simpl. rewrite app_nil_r.
  by apply chars_of_units_of.
Qed.

Lemma translate_out_app s1 s2 :
  translate_out (s1 ++ s2) = translate_out s1 ++ translate_out s2.
Proof.
  induction s1 as [|c s1 IH]; simpl; [done|].
  destruct (c =? LF); simpl; by rewrite IH.
Qed.

Lemma translate_out_encodable s :
  encodable (translate_out s) = encodable s.
Proof.
  induction s as [|c s IH]; simpl; [done|].
  destruct (c =? LF) eqn:E; simpl; rewrite IH; [|done].
  apply N.eqb_eq in E as ->. done.
Qed.

(** Written and read again, a text without carriage returns is itself. *)
Lemma universal_newlines_translate_out s :
  text_ok s = true -> universal_newlines (translate_out s) = s.
Proof.
  induction s as [|c s IH]; simpl; [done|].
  rewrite !andb_true_iff, negb_true_iff. intros [[_ Hcr] Hs].
  destruct (c =? LF) eqn:E; simpl.
  - apply N.eqb_eq in E as ->. simpl. by rewrite IH.
  - rewrite Hcr. by rewrite IH.
Qed.

Lemma utf16_body_app s1 s2 : utf16_body (s1 ++ s2) = utf16_body s1 ++ utf16_body s2.
Proof. unfold utf16_body, units_of. by rewrite !flat_map_app. Qed.

(** The bytes a successful sequence of [write] calls leaves in the file. *)
Lemma write_chunks_encodable first acc chunks :
  Forall (fun ch => encodable ch = true) chunks ->
  write_chunks first acc chunks
  = (acc ++ (if first then match chunks with [] => [] | _ => BOM_LE end
             else [])
         ++ utf16_body (translate_out (concat chunks)), None).
Proof.
  intros Hch. revert first acc.
  induction Hch as [|ch chunks Hc _ IH]; intros first acc; simpl.
  - by destruct first; rewrite !app_nil_r.
  - unfold encode_chunk.
    rewrite utf16_le_encode_body by by rewrite translate_out_encodable.
    rewrite IH. rewrite translate_out_app, utf16_body_app.
    destruct first; simpl; by rewrite <- !app_assoc.
Qed.

End CodecFacts.

(** ** The document [write_info_tip] persists *)

Section Mutation.

Implicit Types (secs : dict (dict str)) (d : dict str) (r : str).

Lemma set_tip_middle secs1 secs2 d r :
  SECTION ∉ dict_keys secs1 ->
  set_tip (secs1 ++ (SECTION, d) :: secs2) r
  = secs1 ++ (SECTION, strip_infotip d ++ [(INFOTIP, r)]) :: secs2.
Proof.
  induction secs1 as [|[n d'] secs1 IH]; cbn [set_tip app dict_keys map fst].
  - intros _. by rewrite str_eqb_refl.
  - rewrite not_elem_of_cons. intros [Hne Hs].
    rewrite (proj2 (str_eqb_neq n SECTION)) by congruence. by rewrite IH.
Qed.

Lemma set_tip_absent secs r :
  SECTION ∉ dict_keys secs ->
  set_tip secs r = secs ++ [(SECTION, [(INFOTIP, r)])].
Proof.
  induction secs as [|[n d'] secs IH]; cbn [set_tip app dict_keys map fst];
    [done|].
  rewrite not_elem_of_cons. intros [Hne Hs].
  rewrite (proj2 (str_eqb_neq n SECTION)) by congruence. by rewrite IH.
Qed.

Lemma clear_tip_middle secs1 secs2 d :
  SECTION ∉ dict_keys secs1 ->
  clear_tip (secs1 ++ (SECTION, d) :: secs2)
  = match strip_infotip d with
    | [] => secs1 ++ secs2
    | d' => secs1 ++ (SECTION, d') :: secs2
    end.
Proof.
  induction secs1 as [|[n d'] secs1 IH]; cbn [clear_tip app dict_keys map fst].
  - intros _. rewrite str_eqb_refl. by destruct (strip_infotip d).
  - rewrite not_elem_of_cons. intros [Hne Hs].
    rewrite (proj2 (str_eqb_neq n SECTION)) by congruence. rewrite IH by done.
    by destruct (strip_infotip d).
Qed.

Lemma clear_tip_absent secs :
  SECTION ∉ dict_keys secs -> clear_tip secs = secs.
Proof.
  induction secs as [|[n d'] secs IH]; cbn [clear_tip app dict_keys map fst];
    [done|].
  rewrite not_elem_of_cons. intros [Hne Hs].
  rewrite (proj2 (str_eqb_neq n SECTION)) by congruence. by rewrite IH.
Qed.

Lemma strip_infotip_idemp d : strip_infotip (strip_infotip d) = strip_infotip d.
Proof.
  unfold strip_infotip. induction d as [|[k v] d IH]; [done|].
  rewrite (filter_cons _ (k, v)). destruct (decide _) as [Hk|Hk]; [|done].
  rewrite (filter_cons _ (k, v)). rewrite decide_True by done. by rewrite IH.
Qed.

Lemma strip_infotip_tip d r :
  strip_infotip (strip_infotip d ++ [(INFOTIP, r)]) = strip_infotip d.
Proof.
  unfold strip_infotip at 1. rewrite filter_app.
  fold (strip_infotip (strip_infotip d)). rewrite strip_infotip_idemp.
  rewrite (filter_cons _ (INFOTIP, r)). cbn [fst].
  rewrite decide_False by (by rewrite infotip_is_infotip).
  by rewrite filter_nil, app_nil_r.
Qed.

(** Either the document lacks the section or the section splits it. *)
Lemma section_split secs :
  SECTION ∉ dict_keys secs
  ∨ ∃ secs1 d secs2,
      secs = secs1 ++ (SECTION, d) :: secs2 ∧ SECTION ∉ dict_keys secs1.
Proof.
  destruct (decide (SECTION ∈ dict_keys secs)) as [Hin|Hnot]; [|by left].
  right. destruct (dict_keys_split secs SECTION Hin) as (s1 & v & s2 & H).
  eauto.
Qed.

Lemma before_set_result r :
  ConfigParser.before_set r = Ok r ∨ ConfigParser.before_set r = Raise ValueError.
Proof. unfold ConfigParser.before_set. destruct (ConfigParser.has_percent _); eauto. Qed.

(** Setting a remark on a document without defaults. *)
Lemma updated_parser_set secs c r :
  updated_parser (ConfigParser.mk [] secs) (c :: r)
  = match ConfigParser.before_set (c :: r) with
    | Ok _ => Ok (ConfigParser.mk [] (set_tip secs (c :: r)))
    | Raise e => Raise e
    end.
Proof.
  assert (∀ secs1 d secs2, SECTION ∉ dict_keys secs1 ->
    updated_parser (ConfigParser.mk [] (secs1 ++ (SECTION, d) :: secs2)) (c :: r)
    = match ConfigParser.before_set (c :: r) with
      | Ok _ => Ok (ConfigParser.mk []
                      (secs1 ++ (SECTION, strip_infotip d ++ [(INFOTIP, c :: r)])
                             :: secs2))
      | Raise e => Raise e
      end) as Hmid.
  { intros secs1 d secs2 Hs. rewrite updated_parser_middle by done. cbv zeta.
    destruct (before_set_result (c :: r)) as [Hset|Hset]; rewrite Hset.
    - by apply set_infotip_middle.
    - unfold ConfigParser.set. by rewrite Hset. }
  destruct (section_split secs) as [Habs|(secs1 & d & secs2 & -> & Hs)].
  - rewrite updated_parser_absent by done. rewrite Hmid by done.
    rewrite set_tip_absent by done. done.
  - rewrite Hmid by done. by rewrite set_tip_middle.
Qed.

Lemma collect_length {A B} (f : A -> result B) l l' :
  ConfigParser.collect f l = Ok l' -> length l' = length l.
Proof.
  revert l'. induction l as [|a l IH]; intros l'; simpl.
  - by intros [= <-].
  - destruct (f a); [|done].
    destruct (ConfigParser.collect f l) eqn:E; [|done].
    intros [= <-]. simpl. f_equal. by apply IH.
Qed.

Lemma dict_update_fresh {V} (a d : dict V) :
  NoDup (dict_keys (a ++ d)) -> dict_update a d = a ++ d.
Proof.
  revert a. induction d as [|[k v] d IH]; intros a Hnd.
  - by rewrite app_nil_r.
  - unfold dict_update in *. simpl.
    assert (k ∉ dict_keys a) as Hk.
    { unfold dict_keys in Hnd. rewrite map_app in Hnd.
      apply NoDup_app in Hnd as (_ & Hdisj & _). intros Hin.
      apply (Hdisj k Hin). apply list_elem_of_here. }
    rewrite dict_set_fresh by done.
    assert (a ++ (k, v) :: d = (a ++ [(k, v)]) ++ d) as Hassoc
      by (by rewrite <- app_assoc).
    rewrite Hassoc in Hnd |- *. by apply IH.
Qed.

(** The items of the section are empty exactly when the section is. *)
Lemma items_stripped secs1 secs2 d its :
  SECTION ∉ dict_keys secs1 ->
  NoDup (dict_keys d) ->
  ConfigParser.items
    (ConfigParser.mk [] (secs1 ++ (SECTION, d) :: secs2)) SECTION = Ok its ->
  length its = length d.
Proof.
  intros Hs Hnd. unfold ConfigParser.items. cbn [ConfigParser.sections
    ConfigParser.defaults].
  rewrite dict_get_middle by done.
  rewrite (dict_update_fresh [] d) by done. simpl app.
  intros H. apply collect_length in H. done.
Qed.

Lemma NoDup_strip_infotip d :
  NoDup (dict_keys d) -> NoDup (dict_keys (strip_infotip d)).
Proof.
  intros H. eapply sublist_NoDup; [exact H|].
  apply fmap_sublist, sublist_filter.
Qed.

(** Clearing the remark of a document without defaults whose section has
    distinct keys: when it does not raise, the document is [clear_tip]. *)
Lemma updated_parser_clear secs p :
  (∀ d, (SECTION, d) ∈ secs -> NoDup (dict_keys d)) ->
  updated_parser (ConfigParser.mk [] secs) [] = Ok p ->
  p = ConfigParser.mk [] (clear_tip secs).
Proof.
  intros Hnd.
  destruct (section_split secs) as [Habs|(secs1 & d & secs2 & -> & Hs)].
  - rewrite updated_parser_absent by done.
    rewrite updated_parser_middle by done. cbv zeta.
    change (strip_infotip []) with (@nil (str * str)).
    rewrite items_empty_section by done. rewrite app_nil_r.
    rewrite clear_tip_absent by done. by intros [= <-].
  - rewrite updated_parser_middle by done. cbv zeta.
    rewrite clear_tip_middle by done.
    destruct (ConfigParser.items _ _) as [its|] eqn:Hits; [|done].
    apply items_stripped in Hits; [|done|].
    + destruct its, (strip_infotip d); try done; by intros [= <-].
    + apply NoDup_strip_infotip, Hnd.
      apply elem_of_app. right. apply list_elem_of_here.
Qed.

End Mutation.

(** ** Writing and reading the sidecar of a folder *)

Section Sidecar.

Variable mbcs_decode : bytes -> option str.

Implicit Types (secs : dict (dict str)) (w : world) (folder : Path).

Lemma text_ok_replace v : text_ok (replace_lf_lftab v) = text_ok v.
Proof.
  induction v as [|c v IH]; simpl; [done|].
  destruct (c =? LF) eqn:E; simpl; rewrite IH; [|done].
  apply N.eqb_eq in E as ->. done.
Qed.

Lemma text_ok_concat (chunks : list str) :
  Forall (fun ch => text_ok ch = true) chunks -> text_ok (concat chunks) = true.
Proof.
  induction 1 as [|ch chunks Hc _ IH]; [done|].
  simpl. by rewrite text_ok_app, Hc, IH.
Qed.

Lemma write_text_ok secs :
  doc_text_ok secs ->
  Forall (fun ch => text_ok ch = true)
         (ConfigParser.write (ConfigParser.mk [] secs)).
Proof.
  unfold ConfigParser.write. cbn [ConfigParser.defaults ConfigParser.sections app].
  induction 1 as [|[n items] secs [Hn Hitems] _ IH]; [constructor|].
  cbn [map concat fst snd] in *. apply Forall_app. split; [|exact IH].
  unfold ConfigParser.write_section. constructor.
  - rewrite !text_ok_app, Hn. reflexivity.
  - apply Forall_app. split; [|by repeat constructor].
    clear -Hitems. induction Hitems as [|[k v] items [Hk Hv] _ IH];
      [constructor|].
    cbn [map]. constructor; [|exact IH].
    unfold ConfigParser.write_item. cbn [fst snd] in *.
    rewrite !text_ok_app, Hk, text_ok_replace, Hv. reflexivity.
Qed.

Lemma write_chunks_doc secs :
  doc_text_ok secs ->
  Codec.write_chunks true [] (ConfigParser.write (ConfigParser.mk [] secs))
  = (sidecar_bytes secs, None)
  ∧ Codec.utf16_decode (sidecar_bytes secs)
    = Some (Codec.translate_out
              (concat (ConfigParser.write (ConfigParser.mk [] secs)))).
Proof.
  intros Hok. pose proof (write_text_ok secs Hok) as Hch.
  assert (Forall (fun ch => Codec.encodable ch = true)
            (ConfigParser.write (ConfigParser.mk [] secs))) as Henc.
  { eapply Forall_impl; [exact Hch|]. intros ch. apply text_ok_encodable. }
  unfold sidecar_bytes.
  rewrite (write_chunks_encodable true [] _ Henc). cbn [fst app].
  split; [done|].
  destruct (ConfigParser.write (ConfigParser.mk [] secs)) as [|ch chunks].
  - reflexivity.
  - apply utf16_decode_body.
    rewrite translate_out_encodable. apply text_ok_encodable.
    by apply text_ok_concat.
Qed.

Lemma stable_parsed secs : stable secs -> parsed_sections secs = secs.
Proof.
  induction 1 as [|[n items] secs Hitems _ IH]; [done|].
  unfold parsed_sections in *. cbn [map fst snd] in *. rewrite IH.
  f_equal. f_equal. clear -Hitems.
  induction Hitems as [|[k v] items Hv _ IH]; [done|].
  unfold map_values in *. cbn [map fst snd] in *. by rewrite Hv, IH.
Qed.

(** What the engine wrote for a well-formed document reads back as the
    document, every value as the reader makes it. *)
Lemma safe_read_written w (ini : Path) a secs :
  nodes w !! ini = Some (File a (sidecar_bytes secs)) ->
  doc_ok secs ->
  doc_text_ok secs ->
  safe_read_config mbcs_decode w ini
  = ConfigParser.mk [] (parsed_sections secs).
Proof.
  intros Hnode Hdoc Htext. unfold safe_read_config.
  rewrite (proj2 (exists_Some w ini)) by (rewrite Hnode; eauto).
  cbn [negb try_encodings]. unfold read_text. rewrite Hnode.
  destruct (write_chunks_doc secs Htext) as [_ ->].
  rewrite universal_newlines_translate_out
    by (by apply text_ok_concat, write_text_ok).
  by rewrite read_string_written.
Qed.

Lemma parent_child folder (n : str) : parent (child folder n) = folder.
Proof. unfold parent, child. apply removelast_last. Qed.

(** [write_config] on a sidecar that is absent (in an existing directory)
    or a regular file. *)
Lemma write_config_written w folder secs a :
  nodes w !! folder = Some (Dir a) ->
  (∀ a', nodes w !! child folder (lit "desktop.ini") ≠ Some (Dir a')) ->
  writable w (child folder (lit "desktop.ini")) ->
  doc_text_ok secs ->
  ∃ attrs,
    write_config (child folder (lit "desktop.ini")) (ConfigParser.mk [] secs) w
    = (Ok tt,
       mkWorld (<[child folder (lit "desktop.ini")
                  := File attrs (sidecar_bytes secs)]> (nodes w))
               (events w ++ [EvWrite (child folder (lit "desktop.ini"))
                                     (sidecar_bytes secs)])
               (write_denied w) (attrs_denied w)).
Proof.
  intros Hdir Hini [Hwd Hattrs] Htext. unfold write_config, write_text_utf16.
  destruct (write_chunks_doc secs Htext) as [-> _].
  rewrite (bool_decide_eq_false_2 _ Hwd).
  destruct (nodes w !! child folder (lit "desktop.ini")) as [[a'|a' c]|] eqn:E.
  - by destruct (Hini a').
  - rewrite (Hattrs a' c eq_refl). cbn [negb orb].
    by exists (overwritten_attrs a').
  - rewrite parent_child, Hdir. by exists FILE_ATTRIBUTE_ARCHIVE.
Qed.


End Sidecar.

(** ** Values without percent sign *)

Section Plain.

Import ConfigParser.

Implicit Types (s v r : str) (d : dict str) (secs : dict (dict str)).

Lemma drop_escaped_plain s : has_percent s = false -> drop_escaped s = s.
Proof.
  unfold has_percent. induction s as [|c s IH]; [done|].
  cbn [existsb drop_escaped]. rewrite orb_false_iff. intros [Hc Hs].
  rewrite N.eqb_sym in Hc. rewrite Hc. by rewrite IH.
Qed.

Lemma key_match_plain s : has_percent s = false -> key_match s = None.
Proof.
  unfold has_percent. destruct s as [|c1 [|c2 s]]; try done.
  cbn [existsb key_match]. rewrite orb_false_iff. intros [Hc _].
  rewrite N.eqb_sym in Hc. by rewrite Hc.
Qed.

Lemma drop_keys_plain n s : has_percent s = false -> drop_keys n s = s.
Proof.
  revert s. induction n as [|n IH]; intros s Hs; [done|].
  destruct s as [|c s]; [done|]. cbn [drop_keys].
  rewrite key_match_plain by done. rewrite IH; [done|].
  unfold has_percent in *. cbn [existsb] in Hs.
  by apply orb_false_iff in Hs as [_ Hs].
Qed.

(** A value without percent sign is accepted as it is. *)
Lemma before_set_plain v : has_percent v = false -> before_set v = Ok v.
Proof.
  intros Hv. unfold before_set.
  rewrite drop_escaped_plain, drop_keys_plain by done. by rewrite Hv.
Qed.

(** A value without percent sign is returned as it is. *)
Lemma before_get_plain lookup v :
  has_percent v = false -> before_get lookup v = Ok v.
Proof.
  unfold before_get, MAX_INTERPOLATION_DEPTH. cbn [interpolate_some].
  match goal with
  | |- _ -> ?f (length v) v = _ =>
      assert (∀ n rest, (length rest <= n)%nat -> has_percent rest = false ->
                        f n rest = Ok rest) as Hloop
  end.
  { induction n as [|n IH]; intros [|c tl] Hlen Hp; try done.
    - simpl in Hlen. lia.
    - unfold has_percent in Hp. cbn [existsb] in Hp.
      apply orb_false_iff in Hp as [Hc Hp]. rewrite N.eqb_sym in Hc.
      rewrite Hc. cbn [negb]. rewrite IH; [done| |done].
      simpl in Hlen. lia. }
  intros Hv. by apply Hloop.
Qed.

Lemma collect_plain lookup d :
  Forall (fun kv => has_percent (snd kv) = false) d ->
  collect (fun kv : str * str =>
             match before_get lookup (snd kv) with
             | Ok v => Ok (fst kv, v)
             | Raise e => Raise e
             end) d
  = Ok d.
Proof.
  induction 1 as [|[k v] d Hv _ IH]; [done|].
  cbn [collect fst snd] in *. by rewrite before_get_plain, IH.
Qed.

(** The items of the section when none of its values holds a percent
    sign. *)
Lemma items_plain secs1 secs2 d :
  SECTION ∉ dict_keys secs1 ->
  NoDup (dict_keys d) ->
  Forall (fun kv => has_percent (snd kv) = false) d ->
  items (mk [] (secs1 ++ (SECTION, d) :: secs2)) SECTION = Ok d.
Proof.
  intros Hs Hnd Hd. unfold items. cbn [sections defaults].
  rewrite dict_get_middle by done.
  rewrite (dict_update_fresh [] d) by done. cbn [app].
  by apply collect_plain.
Qed.

(** [get] on the key of a section of a document without defaults. *)
Lemma get_plain secs1 secs2 d1 d2 k v fallback :
  SECTION ∉ dict_keys secs1 ->
  k ∉ dict_keys d1 ->
  has_percent v = false ->
  get (mk [] (secs1 ++ (SECTION, d1 ++ (k, v) :: d2) :: secs2))
      SECTION k fallback
  = Ok v.
Proof.
  intros Hs Hk Hv. unfold get, chain_lookup. cbn [sections defaults].
  rewrite dict_get_middle by done. rewrite dict_get_middle by done.
  by apply before_get_plain.
Qed.

End Plain.

(** ** The documents [write_info_tip] produces are well formed *)

Section Preservation.

Implicit Types (secs : dict (dict str)) (d : dict str) (r : str).

Lemma strip_infotip_Forall (P : str * str -> Prop) d :
  Forall P d -> Forall P (strip_infotip d).
Proof.
  rewrite !Forall_forall. intros H kv Hin.
  apply list_elem_of_filter in Hin as [_ Hin]. by apply H.
Qed.

Lemma strip_infotip_keys d :
  Forall (fun k => is_infotip k = false) (dict_keys (strip_infotip d)).
Proof.
  rewrite Forall_forall. intros k Hin. unfold dict_keys in Hin.
  apply list_elem_of_fmap in Hin as ([k' v] & -> & Hin).
  by apply list_elem_of_filter in Hin as [Hf _].
Qed.

Lemma dict_keys_app {V} (a b : dict V) :
  dict_keys (a ++ b) = dict_keys a ++ dict_keys b.
Proof. unfold dict_keys. apply map_app. Qed.

(** A property of sections that stripping and setting the key keep holds
    of every section after [set_tip]. *)
Lemma set_tip_Forall (P : str * dict str -> Prop) secs r :
  (∀ d, P (SECTION, d) -> P (SECTION, strip_infotip d ++ [(INFOTIP, r)])) ->
  P (SECTION, [(INFOTIP, r)]) ->
  Forall P secs -> Forall P (set_tip secs r).
Proof.
  intros Hstrip Hnew. induction 1 as [|[n d] secs Hd Hsecs IH].
  - by repeat constructor.
  - cbn [set_tip]. destruct (str_eqb n SECTION) eqn:E.
    + apply str_eqb_eq in E as ->. constructor; [by apply Hstrip|done].
    + by constructor.
Qed.

Lemma clear_tip_Forall (P : str * dict str -> Prop) secs :
  (∀ d, P (SECTION, d) -> P (SECTION, strip_infotip d)) ->
  Forall P secs -> Forall P (clear_tip secs).
Proof.
  intros Hstrip. induction 1 as [|[n d] secs Hd Hsecs IH]; [done|].
  cbn [clear_tip]. destruct (str_eqb n SECTION) eqn:E.
  - apply str_eqb_eq in E as ->. apply Hstrip in Hd.
    destruct (strip_infotip d); [done|by constructor].
  - by constructor.
Qed.

Lemma set_tip_keys secs r :
  dict_keys (set_tip secs r)
  = if bool_decide (SECTION ∈ dict_keys secs) then dict_keys secs
    else dict_keys secs ++ [SECTION].
Proof.
  destruct (section_split secs) as [Habs|(secs1 & d & secs2 & -> & Hs)].
  - rewrite set_tip_absent by done. rewrite bool_decide_eq_false_2 by done.
    apply dict_keys_app.
  - rewrite set_tip_middle by done. rewrite !dict_keys_app.
    rewrite bool_decide_eq_true_2; [done|].
    rewrite elem_of_app. right. apply list_elem_of_here.
Qed.

Lemma clear_tip_keys secs : dict_keys (clear_tip secs) `sublist_of` dict_keys secs.
Proof.
  induction secs as [|[n d] secs IH]; [done|].
  cbn [clear_tip]. destruct (str_eqb n SECTION).
  - destruct (strip_infotip d); [by apply sublist_cons|done].
  - by apply sublist_skip.
Qed.

Lemma section_ok_tip d r :
  section_ok (SECTION, d) ->
  section_ok (SECTION, strip_infotip d ++ [(INFOTIP, r)]).
Proof.
  intros (Hn & Hnd & Hk). split; [done|]. cbn [snd]. split.
  - rewrite dict_keys_app. apply NoDup_app. split; [|split].
    + by apply NoDup_strip_infotip.
    + intros k Hin Hin'. apply list_elem_of_singleton in Hin'. subst k.
      by apply infotip_not_in_stripped in Hin.
    + apply NoDup_singleton.
  - apply Forall_app. split.
    + by apply strip_infotip_Forall.
    + by repeat constructor.
Qed.

Lemma section_ok_new r : section_ok (SECTION, [(INFOTIP, r)]).
Proof.
  split; [by vm_compute|]. split; cbn [snd].
  - apply NoDup_singleton.
  - by repeat constructor.
Qed.

Lemma doc_ok_set_tip secs r : doc_ok secs -> doc_ok (set_tip secs r).
Proof.
  intros [Hnd Hok]. split.
  - rewrite set_tip_keys. case_bool_decide as Hin; [done|].
    apply NoDup_app. split; [done|]. split; [|apply NoDup_singleton].
    intros k Hk Hk'. apply list_elem_of_singleton in Hk'. by subst k.
  - apply set_tip_Forall; [intros d; apply section_ok_tip|apply section_ok_new|done].
Qed.

Lemma doc_ok_clear_tip secs : doc_ok secs -> doc_ok (clear_tip secs).
Proof.
  intros [Hnd Hok]. split.
  - eapply sublist_NoDup; [exact Hnd|apply clear_tip_keys].
  - apply clear_tip_Forall; [|done].
    intros d (Hn & Hd & Hk). split; [done|]. cbn [snd] in *. split.
    + by apply NoDup_strip_infotip.
    + by apply strip_infotip_Forall.
Qed.

Lemma doc_text_ok_set_tip secs r :
  text_ok r = true -> doc_text_ok secs -> doc_text_ok (set_tip secs r).
Proof.
  intros Hr. apply set_tip_Forall.
  - intros d [Hn Hd]. split; [done|]. cbn [snd] in *.
    apply Forall_app. split; [by apply strip_infotip_Forall|].
    by repeat constructor.
  - split; [by vm_compute|]. by repeat constructor.
Qed.

Lemma doc_text_ok_clear_tip secs :
  doc_text_ok secs -> doc_text_ok (clear_tip secs).
Proof.
  apply clear_tip_Forall. intros d [Hn Hd]. split; [done|].
  by apply strip_infotip_Forall.
Qed.

Lemma stable_clear_tip secs : stable secs -> stable (clear_tip secs).
Proof.
  apply clear_tip_Forall. intros d Hd. by apply strip_infotip_Forall.
Qed.

Lemma map_values_stable d :
  Forall (fun kv => parsed_value (snd kv) = snd kv) d ->
  map_values parsed_value d = d.
Proof.
  induction 1 as [|[k v] d Hv _ IH]; [done|].
  unfold map_values in *. cbn [map fst snd] in *. by rewrite Hv, IH.
Qed.

(** Reading back the document with the remark set: the other values are
    as they were, the remark is as the reader makes it. *)
Lemma parsed_set_tip secs r :
  stable secs ->
  parsed_sections (set_tip secs r) = set_tip secs (parsed_value r).
Proof.
  induction 1 as [|[n d] secs Hd Hsecs IH]; [done|].
  cbn [set_tip]. destruct (str_eqb n SECTION).
  - unfold parsed_sections. cbn [map fst snd].
    fold (parsed_sections secs). rewrite stable_parsed by done.
    f_equal. f_equal. unfold map_values. rewrite map_app.
    fold (map_values parsed_value (strip_infotip d)).
    rewrite map_values_stable; [done|]. by apply strip_infotip_Forall.
  - unfold parsed_sections in *. cbn [map fst snd] in *. rewrite IH.
    by rewrite map_values_stable.
Qed.

(** Setting a remark overrides the remark set before. *)
Lemma set_tip_set_tip secs x r : set_tip (set_tip secs x) r = set_tip secs r.
Proof.
  induction secs as [|[n d] secs IH].
  - cbn [set_tip]. rewrite str_eqb_refl.
    pose proof (strip_infotip_tip [] x) as Hx.
    change (strip_infotip []) with (@nil (str * str)) in Hx.
    cbn [app] in Hx. by rewrite Hx.
  - cbn [set_tip]. destruct (str_eqb n SECTION) eqn:E; cbn [set_tip]; rewrite E.
    + by rewrite strip_infotip_tip.
    + by rewrite IH.
Qed.

(** Clearing a remark twice is clearing it once. *)
Lemma clear_tip_clear_tip secs :
  NoDup (dict_keys secs) -> clear_tip (clear_tip secs) = clear_tip secs.
Proof.
  induction secs as [|[n d] secs IH]; [done|].
  cbn [dict_keys map fst]. rewrite NoDup_cons. intros [Hn Hnd].
  cbn [clear_tip]. destruct (str_eqb n SECTION) eqn:E.
  - apply str_eqb_eq in E as ->.
    destruct (strip_infotip d) as [|kv d'] eqn:Hd.
    + by apply clear_tip_absent.
    + cbn [clear_tip]. rewrite str_eqb_refl.
      rewrite <- Hd, strip_infotip_idemp. by rewrite Hd.
  - cbn [clear_tip]. rewrite E. by rewrite IH.
Qed.

End Preservation.

(** ** The parser object of the second call, and what is read back *)

Section SecondCall.

Variable mbcs_decode : bytes -> option str.

Implicit Types (secs : dict (dict str)) (d : dict str) (r : str) (w : world)
  (folder : Path).

Lemma doc_ok_section_keys secs : doc_ok secs -> section_keys_distinct secs.
Proof.
  intros [_ Hok] d Hin. rewrite Forall_forall in Hok.
  by destruct (Hok _ Hin) as (_ & Hnd & _).
Qed.

Lemma NoDup_middle {V} (a b : dict V) k v :
  NoDup (dict_keys (a ++ (k, v) :: b)) -> k ∉ dict_keys (a ++ b).
Proof.
  rewrite !dict_keys_app. cbn [dict_keys map fst].
  intros Hnd. apply NoDup_app in Hnd as (_ & Hdisj & Hb).
  apply NoDup_cons in Hb as [Hk _]. rewrite elem_of_app. intros [Hin|Hin].
  - apply (Hdisj k Hin). apply list_elem_of_here.
  - done.
Qed.

(** Clearing the remark succeeds when the interpolation of the other
    values of the section does. *)
Lemma updated_parser_clear_plain secs :
  section_keys_distinct secs ->
  section_plain secs ->
  updated_parser (ConfigParser.mk [] secs) []
  = Ok (ConfigParser.mk [] (clear_tip secs)).
Proof.
  intros Hnd Hplain.
  destruct (section_split secs) as [Habs|(secs1 & d & secs2 & -> & Hs)].
  - rewrite updated_parser_absent by done.
    rewrite updated_parser_middle by done. cbv zeta.
    change (strip_infotip []) with (@nil (str * str)).
    rewrite items_empty_section by done. rewrite app_nil_r.
    by rewrite clear_tip_absent.
  - assert ((SECTION, d) ∈ secs1 ++ (SECTION, d) :: secs2) as Hin.
    { apply elem_of_app. right. apply list_elem_of_here. }
    rewrite updated_parser_middle by done. cbv zeta.
    rewrite items_plain;
      [|done|apply NoDup_strip_infotip, Hnd, Hin|apply Hplain, Hin].
    rewrite clear_tip_middle by done. by destruct (strip_infotip d).
Qed.

(** Once the remark has been cleared, clearing it again yields the same
    document. *)
Lemma updated_parser_clear_again secs p :
  NoDup (dict_keys secs) ->
  section_keys_distinct secs ->
  updated_parser (ConfigParser.mk [] secs) [] = Ok p ->
  updated_parser (ConfigParser.mk [] (clear_tip secs)) []
  = Ok (ConfigParser.mk [] (clear_tip secs)).
Proof.
  intros Hnd Hkeys.
  destruct (section_split secs) as [Habs|(secs1 & d & secs2 & -> & Hs)].
  - intros Hp. pose proof (updated_parser_clear _ _ Hkeys Hp) as ->.
    rewrite clear_tip_absent in * by done. exact Hp.
  - assert ((SECTION, d) ∈ secs1 ++ (SECTION, d) :: secs2) as Hin.
    { apply elem_of_app. right. apply list_elem_of_here. }
    rewrite updated_parser_middle by done. cbv zeta.
    rewrite clear_tip_middle by done.
    destruct (ConfigParser.items _ _) as [its|] eqn:Hits; [|done].
    intros _. pose proof Hits as Hlen.
    apply items_stripped in Hlen;
      [|done|apply NoDup_strip_infotip, Hkeys, Hin].
    destruct (strip_infotip d) as [|kv d'] eqn:Hd.
    + apply NoDup_middle in Hnd.
      rewrite updated_parser_absent by done.
      rewrite updated_parser_middle by done. cbv zeta.
      change (strip_infotip []) with (@nil (str * str)).
      rewrite items_empty_section by done. by rewrite app_nil_r.
    + rewrite updated_parser_middle by done. cbv zeta.
      rewrite <- Hd, strip_infotip_idemp. rewrite Hd.
      rewrite Hits. by destruct its.
Qed.

Lemma parsed_sections_keys secs :
  dict_keys (parsed_sections secs) = dict_keys secs.
Proof.
  unfold parsed_sections, dict_keys. rewrite map_map. by apply map_ext.
Qed.

Lemma map_values_keys f d : dict_keys (map_values f d) = dict_keys d.
Proof. unfold map_values, dict_keys. rewrite map_map. by apply map_ext. Qed.

Lemma parsed_sections_app secs1 secs2 :
  parsed_sections (secs1 ++ secs2)
  = parsed_sections secs1 ++ parsed_sections secs2.
Proof. unfold parsed_sections. apply map_app. Qed.

(** The options of the section of a document without defaults and what the
    loop of [read_info_tip] makes of them. *)
Lemma read_info_tip_document w folder secs1 secs2 d :
  safe_read_config mbcs_decode w (child folder (lit "desktop.ini"))
  = ConfigParser.mk [] (secs1 ++ (SECTION, d) :: secs2) ->
  SECTION ∉ dict_keys secs1 ->
  read_info_tip mbcs_decode w folder
  = read_info_tip_loop (ConfigParser.mk [] (secs1 ++ (SECTION, d) :: secs2))
                       (dict_keys d).
Proof.
  intros Hdoc Hs. unfold read_info_tip. cbv zeta. rewrite Hdoc.
  unfold ConfigParser.has_section, dict_mem. cbn [ConfigParser.sections].
  rewrite dict_get_middle by done. cbn [negb].
  by rewrite options_middle.
Qed.

Lemma read_info_tip_no_section w folder secs :
  safe_read_config mbcs_decode w (child folder (lit "desktop.ini"))
  = ConfigParser.mk [] secs ->
  SECTION ∉ dict_keys secs ->
  read_info_tip mbcs_decode w folder = Ok [].
Proof.
  intros Hdoc Hs. unfold read_info_tip. cbv zeta. rewrite Hdoc.
  unfold ConfigParser.has_section. cbn [ConfigParser.sections].
  by rewrite (proj2 (dict_mem_not_elem secs SECTION)).
Qed.

(** Reading the document [set_tip] made, as the reader returns it: the
    remark comes back as the reader makes it. *)
Lemma read_info_tip_set w folder secs r :
  safe_read_config mbcs_decode w (child folder (lit "desktop.ini"))
  = ConfigParser.mk [] (parsed_sections (set_tip secs r)) ->
  ConfigParser.has_percent (parsed_value r) = false ->
  read_info_tip mbcs_decode w folder = Ok (parsed_value r).
Proof.
  intros Hdoc Hr.
  assert (∃ secs1 d secs2,
            set_tip secs r
            = secs1 ++ (SECTION, strip_infotip d ++ [(INFOTIP, r)]) :: secs2
            ∧ SECTION ∉ dict_keys secs1) as (secs1 & d & secs2 & Heq & Hs).
  { destruct (section_split secs) as [Habs|(secs1 & d & secs2 & -> & Hs)].
    - exists secs, [], []. split; [|done]. by apply set_tip_absent.
    - exists secs1, d, secs2. split; [|done]. by apply set_tip_middle. }
  rewrite Heq in Hdoc. rewrite parsed_sections_app in Hdoc.
  unfold parsed_sections at 2 in Hdoc. cbn [map fst snd] in Hdoc.
  fold (parsed_sections secs2) in Hdoc.
  unfold map_values in Hdoc. rewrite map_app in Hdoc.
  fold (map_values parsed_value (strip_infotip d)) in Hdoc.
  cbn [map fst snd] in Hdoc.
  assert (SECTION ∉ dict_keys (parsed_sections secs1)) as Hs'
    by (by rewrite parsed_sections_keys).
  rewrite (read_info_tip_document _ _ _ _ _ Hdoc Hs').
  rewrite dict_keys_app. cbn [dict_keys map fst].
  rewrite read_info_tip_loop_first; [| |apply infotip_is_infotip].
  - apply get_plain; [done| |done].
    rewrite map_values_keys. apply infotip_not_in_stripped.
  - fold (dict_keys (map_values parsed_value (strip_infotip d))).
    rewrite map_values_keys. apply strip_infotip_keys.
Qed.

(** Reading the document [clear_tip] made: there is no remark. *)
Lemma read_info_tip_clear w folder secs :
  safe_read_config mbcs_decode w (child folder (lit "desktop.ini"))
  = ConfigParser.mk [] (parsed_sections (clear_tip secs)) ->
  NoDup (dict_keys secs) ->
  read_info_tip mbcs_decode w folder = Ok [].
Proof.
  intros Hdoc Hnd.
  destruct (section_split secs) as [Habs|(secs1 & d & secs2 & -> & Hs)].
  - eapply read_info_tip_no_section; [exact Hdoc|].
    by rewrite parsed_sections_keys, clear_tip_absent.
  - rewrite clear_tip_middle in Hdoc by done.
    destruct (strip_infotip d) as [|kv d'] eqn:Hd.
    + eapply read_info_tip_no_section; [exact Hdoc|].
      rewrite parsed_sections_keys. by apply NoDup_middle in Hnd.
    + rewrite parsed_sections_app in Hdoc.
      unfold parsed_sections at 2 in Hdoc. cbn [map fst snd] in Hdoc.
      fold (parsed_sections secs2) in Hdoc.
      assert (SECTION ∉ dict_keys (parsed_sections secs1)) as Hs'
        by (by rewrite parsed_sections_keys).
      rewrite (read_info_tip_document _ _ _ _ _ Hdoc Hs').
      apply read_info_tip_loop_none.
      rewrite map_values_keys, <- Hd. apply strip_infotip_keys.
Qed.

End SecondCall.

(** ** One call of [write_info_tip], and the next *)

Section WriteStep.

Variable mbcs_decode : bytes -> option str.

Implicit Types (secs : dict (dict str)) (r : str) (w : world) (folder : Path).

Lemma sidecar_ext w w' folder :
  nodes w' !! child folder (lit "desktop.ini")
  = nodes w !! child folder (lit "desktop.ini") ->
  sidecar w' folder = sidecar w folder.
Proof. unfold sidecar. by intros ->. Qed.

(** A call whose parser operations raise leaves the sidecar alone. *)
Lemma write_info_tip_step_raise w folder a r e :
  nodes w !! folder = Some (Dir a) ->
  folder ∉ attrs_denied w ->
  updated_parser (safe_read_config mbcs_decode w
                    (child folder (lit "desktop.ini"))) r = Raise e ->
  ∃ w1 a1,
    write_info_tip mbcs_decode folder r w = (Raise e, w1)
    ∧ nodes w1 !! folder = Some (Dir a1)
    ∧ nodes w1 !! child folder (lit "desktop.ini")
      = nodes w !! child folder (lit "desktop.ini").
Proof.
  intros Hdir Hfolder Hup. set (ini := child folder (lit "desktop.ini")) in *.
  rewrite write_info_tip_unfold.
  rewrite (proj2 (exists_Some w folder)) by (rewrite Hdir; eauto).
  cbn [negb].
  destruct (ensure_folder_system_spec folder w) as (w0 & -> & Hsame & Hf & _);
    [rewrite Hdir; eauto|done|].
  destruct (Hf _ Hdir) as [a0 Ha0]. cbn [with_attrs] in Ha0.
  assert (nodes w0 !! ini = nodes w !! ini) as Hini
    by (apply Hsame, child_neq).
  cbv zeta. fold ini.
  rewrite (safe_read_config_ext mbcs_decode w w0 ini Hini), Hup.
  by exists w0, a0.
Qed.

(** A call whose parser operations succeed, on a folder and a sidecar
    the platform lets the engine work on: the sidecar holds the updated
    document, or is gone when the document is empty, and reads back as
    the document with every value as the reader makes it. *)
Lemma write_info_tip_step w folder a r secs' :
  nodes w !! folder = Some (Dir a) ->
  (∀ a', nodes w !! child folder (lit "desktop.ini") ≠ Some (Dir a')) ->
  folder ∉ attrs_denied w ->
  child folder (lit "desktop.ini") ∉ attrs_denied w ->
  writable w (child folder (lit "desktop.ini")) ->
  updated_parser (safe_read_config mbcs_decode w
                    (child folder (lit "desktop.ini"))) r
  = Ok (ConfigParser.mk [] secs') ->
  doc_ok secs' ->
  doc_text_ok secs' ->
  ∃ w1 a1,
    write_info_tip mbcs_decode folder r w = (Ok tt, w1)
    ∧ nodes w1 !! folder = Some (Dir a1)
    ∧ (∀ a', nodes w1 !! child folder (lit "desktop.ini") ≠ Some (Dir a'))
    ∧ sidecar w1 folder
      = match secs' with [] => None | _ :: _ => Some (sidecar_bytes secs') end
    ∧ safe_read_config mbcs_decode w1 (child folder (lit "desktop.ini"))
      = ConfigParser.mk [] (parsed_sections secs').
Proof.
  intros Hdir Hnodir Hfolder Hiniattr [Hwd Hover] Hup Hdoc Htext.
  set (ini := child folder (lit "desktop.ini")) in *.
  rewrite write_info_tip_unfold.
  rewrite (proj2 (exists_Some w folder)) by (rewrite Hdir; eauto).
  cbn [negb].
  destruct (ensure_folder_system_spec folder w)
    as (w0 & -> & Hsame & Hf & _ & Hwd0 & Had0);
    [rewrite Hdir; eauto|done|].
  destruct (Hf _ Hdir) as [a0 Ha0]. cbn [with_attrs] in Ha0.
  assert (nodes w0 !! ini = nodes w !! ini) as Hini
    by (apply Hsame, child_neq).
  assert (writable w0 ini) as Hwritable0.
  { split; [by rewrite Hwd0|]. intros a' c'. rewrite Hini. apply Hover. }
  cbv zeta. fold ini.
  rewrite (safe_read_config_ext mbcs_decode w w0 ini Hini), Hup.
  unfold ConfigParser.sections_list. cbn [ConfigParser.sections].
  destruct secs' as [|sec secs'].
  - cbn [dict_keys map]. unfold unlink.
    destruct (nodes w0 !! ini) as [[a'|a' c]|] eqn:E.
    + rewrite Hini in E. by destruct (Hnodir a').
    + rewrite (proj2 (exists_Some w0 ini)) by (rewrite E; eauto).
      rewrite (overwritable_not_readonly a')
        by (apply (proj2 Hwritable0 a' c); done).
      rewrite (bool_decide_eq_false_2 _ (proj1 Hwritable0)).
      cbn [negb orb].
      eexists _, a0. split; [done|]. cbn [nodes].
      assert (delete ini (nodes w0) !! ini = None) as Hgone
        by apply lookup_delete_eq.
      split; [|split; [|split]].
      * rewrite lookup_delete_ne by apply child_neq. done.
      * intros a''. fold ini. by rewrite Hgone.
      * unfold sidecar. cbn [nodes]. fold ini. by rewrite Hgone.
      * apply safe_read_config_no_file. intros a'' c'. cbn [nodes].
        by rewrite Hgone.
    + rewrite (proj2 (exists_None w0 ini)) by done.
      exists w0, a0. split; [done|]. split; [done|]. split; [|split].
      * intros a''. fold ini. by rewrite E.
      * unfold sidecar. fold ini. by rewrite E.
      * apply safe_read_config_no_file. intros a'' c'. by rewrite E.
  - cbn [dict_keys map].
    destruct (write_config_written w0 folder (sec :: secs') a0 Ha0)
      as [attrs Hwrite];
      [intros a'; fold ini; rewrite Hini; apply Hnodir|done|done|].
    fold ini in Hwrite. rewrite Hwrite.
    set (w' := mkWorld _ _ _ _) in *.
    assert (nodes w' !! ini
            = Some (File attrs (sidecar_bytes (sec :: secs')))) as Hfile
      by apply lookup_insert_eq.
    destruct (ensure_ini_hidden_system_spec ini w' _ Hfile)
      as (w1 & a1 & -> & (Hsame1 & _) & Hfile1).
    { unfold w'. cbn [attrs_denied]. by rewrite Had0. }
    cbn [with_attrs] in Hfile1.
    exists w1, a0. split; [done|]. split; [|split; [|split]].
    + rewrite Hsame1 by (intros Heq; symmetry in Heq; by apply child_neq in Heq).
      unfold w'. cbn [nodes]. rewrite lookup_insert_ne by apply child_neq. done.
    + intros a''. fold ini. by rewrite Hfile1.
    + unfold sidecar. fold ini. by rewrite Hfile1.
    + by apply (safe_read_written mbcs_decode w1 ini a1).
Qed.

(** A successful [write_config] leaves a regular file. *)
Lemma write_config_leaves_file p parser w w1 :
  write_config p parser w = (Ok tt, w1) ->
  ∃ a c, nodes w1 !! p = Some (File a c).
Proof.
  unfold write_config, write_text_utf16.
  destruct (Codec.write_chunks true [] (ConfigParser.write parser))
    as [content err].
  destruct (nodes w !! p) as [[a|a c]|].
  - done.
  - destruct (negb _ || _); [done|].
    intros [= _ <-]. cbn [nodes]. rewrite lookup_insert_eq. eauto.
  - destruct (nodes w !! parent p) as [[a|a c]|]; try done.
    destruct (bool_decide _); [done|].
    intros [= _ <-]. cbn [nodes]. rewrite lookup_insert_eq. eauto.
Qed.

(** [write_config] touches the node of the file alone, and not what the
    platform refuses. *)
Lemma write_config_other p parser w res w1 :
  write_config p parser w = (res, w1) ->
  (∀ q, q ≠ p -> nodes w1 !! q = nodes w !! q)
  ∧ write_denied w1 = write_denied w
  ∧ attrs_denied w1 = attrs_denied w.
Proof.
  unfold write_config, write_text_utf16.
  destruct (Codec.write_chunks true [] (ConfigParser.write parser))
    as [content err].
  destruct (nodes w !! p) as [[a|a c]|].
  - by intros [= <- <-].
  - destruct (negb _ || _); intros [= <- <-]; [done|].
    split; [|done]. intros q Hq. cbn [nodes]. by rewrite lookup_insert_ne.
  - destruct (nodes w !! parent p) as [[a|a c]|]; try by intros [= <- <-].
    destruct (bool_decide _); intros [= <- <-]; [done|].
    split; [|done]. intros q Hq. cbn [nodes]. by rewrite lookup_insert_ne.
Qed.

(** ** The parser operations for a remark that is not empty *)

Lemma section_is_a_section :
  bool_decide (SECTION = []) || str_eqb SECTION ConfigParser.DEFAULTSECT
  = false.
Proof. vm_compute. reflexivity. Qed.

Lemma update_sectdict_section p f d :
  dict_get (ConfigParser.sections p) SECTION = Some d ->
  ConfigParser.update_sectdict p SECTION f
  = Ok (ConfigParser.mk (ConfigParser.defaults p)
          (dict_set (ConfigParser.sections p) SECTION (f d))).
Proof.
  intros Hd. unfold ConfigParser.update_sectdict.
  rewrite section_is_a_section. by rewrite Hd.
Qed.

Lemma remove_infotip_loop_total p opts :
  is_Some (dict_get (ConfigParser.sections p) SECTION) ->
  ∃ p', remove_infotip_loop p opts = Ok p'
        ∧ is_Some (dict_get (ConfigParser.sections p') SECTION).
Proof.
  revert p. induction opts as [|o opts IH]; intros p [d Hd];
    cbn [remove_infotip_loop]; [eauto|].
  destruct (is_infotip o); [|apply IH; eauto].
  unfold ConfigParser.remove_option.
  rewrite (update_sectdict_section _ _ _ Hd). apply IH.
  cbn [ConfigParser.sections]. rewrite dict_get_set_eq. eauto.
Qed.

Lemma dict_set_not_nil {V} (d : dict V) k v : dict_set d k v ≠ [].
Proof. destruct d as [|[k' v'] d]; cbn [dict_set]; [done|]. by destruct (str_eqb k' k). Qed.

(** With a remark that is not empty the parser operations fail only if
    [ConfigParser.set] rejects the remark, whatever the sidecar holds,
    and what they leave has a section. *)
Lemma updated_parser_remark p c r :
  match ConfigParser.before_set (c :: r) with
  | Raise e => updated_parser p (c :: r) = Raise e
  | Ok _ => ∃ p', updated_parser p (c :: r) = Ok p'
                  ∧ ConfigParser.sections_list p' ≠ []
  end.
Proof.
  unfold updated_parser.
  assert (∃ q, (if bool_decide (SECTION ∈ ConfigParser.sections_list p)
                then Ok p else ConfigParser.add_section p SECTION) = Ok q
               ∧ is_Some (dict_get (ConfigParser.sections q) SECTION))
    as (q & -> & [d Hd]).
  { case_bool_decide as Hin.
    - exists p. split; [done|]. unfold ConfigParser.sections_list in Hin.
      apply dict_mem_elem in Hin. unfold dict_mem in Hin.
      destruct (dict_get (ConfigParser.sections p) SECTION); [eauto|done].
    - unfold ConfigParser.add_section. rewrite section_neq_default.
      unfold ConfigParser.sections_list in Hin.
      rewrite (proj2 (dict_mem_not_elem _ SECTION)) by done.
      eexists. split; [done|]. cbn [ConfigParser.sections].
      rewrite dict_get_set_eq. eauto. }
  unfold ConfigParser.options. rewrite Hd.
  destruct (remove_infotip_loop_total q
              (dict_keys (dict_update d (ConfigParser.defaults q))))
    as (q' & -> & [d' Hd']); [eauto|].
  unfold ConfigParser.set.
  destruct (ConfigParser.before_set (c :: r)) as [v|e]; [|done].
  rewrite (update_sectdict_section _ _ _ Hd').
  eexists. split; [done|].
  unfold ConfigParser.sections_list. cbn [ConfigParser.sections].
  intros Hnil. apply (f_equal (@length _)) in Hnil.
  unfold dict_keys in Hnil. rewrite length_map in Hnil.
  destruct (dict_set (ConfigParser.sections q') SECTION _) eqn:E;
    [by apply dict_set_not_nil in E|done].
Qed.

(** What is known when [write_info_tip] has returned: the folder is
    there with its SYSTEM bit, a sidecar that is there has its HIDDEN and
    SYSTEM bits, and after a remark that is not empty (one that
    [ConfigParser.set] accepts) there is a sidecar. *)
Lemma write_info_tip_returned folder r w w1 :
  write_info_tip mbcs_decode folder r w = (Ok tt, w1) ->
  (∃ n, nodes w1 !! folder = Some n
        ∧ Z.testbit (node_attrs n) 2 = true)
  ∧ (∀ n, nodes w1 !! child folder (lit "desktop.ini") = Some n ->
          Z.testbit (node_attrs n) 1 = true
          ∧ Z.testbit (node_attrs n) 2 = true)
  ∧ (r ≠ [] ->
     (∃ v, ConfigParser.before_set r = Ok v)
     ∧ ∃ a c, nodes w1 !! child folder (lit "desktop.ini")
              = Some (File a c)).
Proof.
  rewrite write_info_tip_unfold.
  destruct (exists_ w folder) eqn:Hex; cbn [negb]; [|done].
  apply exists_Some in Hex as [n Hn].
  destruct (ensure_folder_system folder w) as [[[]|e] w0] eqn:Hens; [|done].
  destruct (ensure_folder_system_returned folder w w0 n Hn Hens)
    as (a0 & Hn0 & Hbit0 & Hother0 & _).
  cbv zeta. set (ini := child folder (lit "desktop.ini")).
  assert (folder ≠ ini) as Hne
    by (intros Heq; symmetry in Heq; by apply child_neq in Heq).
  assert (Z.testbit (node_attrs (with_attrs n a0)) 2 = true) as Hbit0'
    by (by rewrite node_attrs_with_attrs).
  destruct (updated_parser _ r) as [parser|e] eqn:Hup; [|done].
  assert (r ≠ [] ->
          (∃ v, ConfigParser.before_set r = Ok v)
          ∧ ConfigParser.sections_list parser ≠ []) as Hremark.
  { destruct r as [|c r]; [done|]. intros _.
    pose proof (updated_parser_remark
                  (safe_read_config mbcs_decode w0 ini) c r) as Hrem.
    destruct (ConfigParser.before_set (c :: r)) as [v|e]; [|congruence].
    destruct Hrem as (p' & Hp' & Hsec). split; [eauto|]. congruence. }
  destruct (ConfigParser.sections_list parser) eqn:Hsecs.
  - assert (r = []) as ->.
    { destruct r as [|c r]; [done|].
      by destruct (Hremark ltac:(done)) as [_ ?]. }
    destruct (exists_ w0 ini) eqn:Hexi.
    + unfold unlink. destruct (nodes w0 !! ini) as [[a|a c]|]; try done.
      destruct (negb _ || _); [done|].
      intros [= <-]. cbn [nodes]. split; [|split; [|done]].
      * rewrite lookup_delete_ne by done. eauto.
      * intros n'. by rewrite lookup_delete_eq.
    + intros [= <-]. split; [eauto|]. split; [|done].
      apply exists_None in Hexi. intros n'. by rewrite Hexi.
  - destruct (write_config ini parser w0) as [[[]|e] w2] eqn:Hwr; [|done].
    destruct (write_config_other _ _ _ _ _ Hwr) as (Hfr & _).
    destruct (write_config_leaves_file _ _ _ _ Hwr) as (a & c & Hfile).
    intros Hini.
    destruct (ensure_ini_hidden_system_returned ini w2 w1 _ Hfile Hini)
      as (a1 & Hn1 & Hb1 & Hb2 & Hother1 & _).
    split; [|split].
    + exists (with_attrs n a0). split; [|done].
      by rewrite Hother1, Hfr by done.
    + intros n'. rewrite Hn1. by intros [= <-].
    + intros Hr. split; [by apply Hremark|]. cbn [with_attrs] in Hn1. eauto.
Qed.

End WriteStep.

(** ** Writing a remark twice, and reading back what was written *)

Section RoundTrip.

Variable mbcs_decode : bytes -> option str.

Implicit Types (secs : dict (dict str)) (r : str) (w : world) (folder : Path).

(** A remark of one line without white space at its ends is one the
    reader returns unchanged. *)
Lemma split_lf_no_lf r : no_lf r = true -> split_lf r = (r, []).
Proof.
  unfold no_lf. induction r as [|c r IH]; [done|].
  cbn [forallb split_lf]. rewrite andb_true_iff. intros [Hc Hr].
  rewrite IH by done. by destruct (c =? LF).
Qed.

Lemma parsed_value_single_line r :
  no_lf r = true -> trimmed r -> parsed_value r = r.
Proof.
  intros Hlf Htrim. unfold parsed_value, parsed_lines.
  rewrite split_lf_no_lf by done. cbn [flat_map join].
  rewrite trimmed_strip_id by done. apply Htrim.
Qed.


(** C1, as the code has it — round trip.  For a folder that is a
    directory, whose attributes and whose sidecar's attributes the
    platform lets the engine set, whose sidecar is absent or a regular
    file the platform lets the engine write (not read-only, hidden or
    system, and not closed to the process) and reads as a well-formed
    document without defaults, and for every remark that utf-16 can
    encode, that holds neither carriage return nor percent sign and that
    the reader of the sidecar returns unchanged (every remark of one line
    without white space at its ends is such a remark, and so is the empty
    one): [write_info_tip] returns, and [read_info_tip] on the same
    folder then returns exactly the remark.  For the empty remark the
    other values of the section must be free of percent signs as well. *)
Theorem write_then_read_info_tip w folder a secs r :
  nodes w !! folder = Some (Dir a) ->
  (∀ a', nodes w !! child folder (lit "desktop.ini") ≠ Some (Dir a')) ->
  folder ∉ attrs_denied w ->
  child folder (lit "desktop.ini") ∉ attrs_denied w ->
  writable w (child folder (lit "desktop.ini")) ->
  safe_read_config mbcs_decode w (child folder (lit "desktop.ini"))
  = ConfigParser.mk [] secs ->
  doc_ok secs ->
  doc_text_ok secs ->
  text_ok r = true ->
  ConfigParser.has_percent r = false ->
  parsed_value r = r ->
  (r = [] -> section_plain secs) ->
  ∃ w1,
    write_info_tip mbcs_decode folder r w = (Ok tt, w1)
    ∧ read_info_tip mbcs_decode w1 folder = Ok r.
Proof.
  intros Hdir Hnodir Hfolder Hiniattr Hwritable Hread Hdoc Htext Hr Hpc Hpv
    Hplain.
  set (ini := child folder (lit "desktop.ini")) in *.
  destruct r as [|c r].
  - assert (updated_parser (safe_read_config mbcs_decode w ini) []
            = Ok (ConfigParser.mk [] (clear_tip secs))) as Hup.
    { rewrite Hread. apply updated_parser_clear_plain; [|by apply Hplain].
      by apply doc_ok_section_keys. }
    destruct (write_info_tip_step mbcs_decode w folder a [] _ Hdir Hnodir
                Hfolder Hiniattr Hwritable Hup)
      as (w1 & a1 & Hw1 & _ & _ & _ & Hread1);
      [by apply doc_ok_clear_tip|by apply doc_text_ok_clear_tip|].
    exists w1. split; [done|].
    eapply read_info_tip_clear; [exact Hread1|apply Hdoc].
  - assert (updated_parser (safe_read_config mbcs_decode w ini) (c :: r)
            = Ok (ConfigParser.mk [] (set_tip secs (c :: r)))) as Hup.
    { rewrite Hread, updated_parser_set. by rewrite before_set_plain. }
    destruct (write_info_tip_step mbcs_decode w folder a _ _ Hdir Hnodir
                Hfolder Hiniattr Hwritable Hup)
      as (w1 & a1 & Hw1 & _ & _ & _ & Hread1);
      [by apply doc_ok_set_tip|by apply doc_text_ok_set_tip|].
    exists w1. split; [done|]. rewrite <- Hpv.
    eapply read_info_tip_set; [exact Hread1|]. by rewrite Hpv.
Qed.

End RoundTrip.

(** The sample sidecar reads as the sample document, which is well
    formed. *)
Lemma icon_and_tip_reads :
  safe_read_config Samples.latin1 Samples.icon_and_tip
    (child Samples.docs (lit "desktop.ini"))
  = ConfigParser.mk [] Samples.icon_and_tip_doc.
Proof. vm_compute. reflexivity. Qed.

Lemma NoDup_bool (l : list str) : bool_decide (NoDup l) = true -> NoDup l.
Proof. apply bool_decide_eq_true_1. Qed.

(** The sample sidecar is one the platform lets the engine write. *)
Lemma icon_and_tip_writable :
  writable Samples.icon_and_tip (child Samples.docs (lit "desktop.ini")).
Proof.
  split; [apply not_elem_of_empty|].
  intros a c H. vm_compute in H. by injection H as <- _.
Qed.

Lemma icon_and_tip_doc_ok :
  doc_ok Samples.icon_and_tip_doc
  ∧ doc_text_ok Samples.icon_and_tip_doc
  ∧ stable Samples.icon_and_tip_doc
  ∧ section_plain Samples.icon_and_tip_doc.
Proof.
  unfold Samples.icon_and_tip_doc. split; [|split; [|split]].
  - split; [apply NoDup_bool; vm_compute; reflexivity|].
    constructor; [|constructor].
    split; [vm_compute; reflexivity|]. cbn [snd].
    split; [apply NoDup_bool; vm_compute; reflexivity|].
    repeat constructor.
  - repeat constructor.
  - repeat constructor.
  - intros d Hd. apply list_elem_of_singleton in Hd.
    assert (d = [(lit "IconResource", lit "C:\icons\docs.ico,0");
                 (lit "infotip", lit "old")]) as -> by congruence.
    vm_compute. repeat constructor.
Qed.



Lemma write_then_read_info_tip_witness :
  parsed_value (lit "Tax papers 2024") = lit "Tax papers 2024"
  ∧ ∃ w1,
      write_info_tip Samples.latin1 Samples.docs (lit "Tax papers 2024")
        Samples.icon_and_tip
      = (Ok tt, w1)
      ∧ read_info_tip Samples.latin1 w1 Samples.docs
        = Ok (lit "Tax papers 2024").
Proof.
  split; [vm_compute; reflexivity|].
  apply (write_then_read_info_tip Samples.latin1 Samples.icon_and_tip
           Samples.docs Samples.DIRECTORY Samples.icon_and_tip_doc).
  - vm_compute; reflexivity.
  - intros a' H. vm_compute in H. discriminate H.
  - apply not_elem_of_empty.
  - apply not_elem_of_empty.
  - exact icon_and_tip_writable.
  - exact icon_and_tip_reads.
  - apply icon_and_tip_doc_ok.
  - apply icon_and_tip_doc_ok.
  - vm_compute; reflexivity.
  - vm_compute; reflexivity.
  - vm_compute; reflexivity.
  - intros _. apply icon_and_tip_doc_ok.
Defined.

(** C1, counterexample to the claim as stated — a remark that starts with
    a blank.  The call returns, the sidecar holds the remark, and the
    reader strips the value: what is read back is not what was
    written. *)
Lemma write_then_read_strips_blank :
  fst (write_info_tip Samples.latin1 Samples.docs (lit " draft") Samples.plain)
  = Ok tt
  ∧ read_info_tip Samples.latin1
      (snd (write_info_tip Samples.latin1 Samples.docs (lit " draft")
              Samples.plain))
      Samples.docs
    = Ok (lit "draft")
  ∧ Ok (lit "draft") ≠ Ok (lit " draft").
Proof.
  repeat split; try (vm_compute; reflexivity).
  intros H. vm_compute in H. discriminate H.
Qed.

(** The remark of the sample folder is cleared and read back as empty;
    the icon stays in the sidecar. *)
Example clear_then_read_sample :
  let w1 := snd (write_info_tip Samples.latin1 Samples.docs []
                   Samples.icon_and_tip) in
  fst (write_info_tip Samples.latin1 Samples.docs [] Samples.icon_and_tip)
  = Ok tt
  ∧ sidecar w1 Samples.docs
    = Some (Samples.utf16_file
              [lit "[.ShellClassInfo]";
               lit "IconResource = C:\icons\docs.ico,0"; []])
  ∧ read_info_tip Samples.latin1 w1 Samples.docs = Ok [].
Proof. cbv zeta. repeat split; vm_compute; reflexivity. Qed.

(* ===================================================================== *)
(** * Further properties of the code *)
(* ===================================================================== *)

(** ** File attributes: [get_file_attributes] and the two [ensure_*] *)

Section AttributeBits.

Local Open Scope Z_scope.

(** X1 — [get_file_attributes] returns for every path, existing or not,
    and leaves the file system alone: the value comes back from the
    foreign call as a C [int], so the comparison with the DWORD
    [INVALID_FILE_ATTRIBUTES] never holds; for a path that does not exist
    the value is -1. *)
Theorem get_file_attributes_never_raises (path : Path) (w : world) :
  ∃ attr,
    get_file_attributes path w = (Ok attr, w)
    ∧ - 2 ^ 31 <= attr < 2 ^ 31
    ∧ (nodes w !! path = None -> attr = -1).
Proof.
  exists (GetFileAttributesW w path).
  split; [apply get_file_attributes_returns|].
  unfold GetFileAttributesW. split.
  - destruct (nodes w !! path) as [n|]; unfold to_c_int;
      match goal with
      | |- context [(?x + 2 ^ 31) mod 2 ^ 32] =>
          pose proof (Z.mod_pos_bound (x + 2 ^ 31) (2 ^ 32)); lia
      end.
  - by intros ->.
Qed.

(** X2 — [ensure_folder_system] on a path that exists.  When the platform
    lets the attributes of the path be set, it returns; afterwards the
    SYSTEM bit of the path is set, its other attribute bits are as they
    were except NORMAL (which the platform drops when it stores other
    attributes), every other path is untouched, and nothing at all is
    changed when the bit was set already.  When the platform refuses to
    change the attributes, it raises [OSError] unless the bit was set
    already, and nothing is changed. *)
Theorem ensure_folder_system_sets_system_bit (folder : Path) (w : world)
    (n : node) :
  nodes w !! folder = Some n ->
  (folder ∉ attrs_denied w ->
   ∃ w1 a1,
     ensure_folder_system folder w = (Ok tt, w1)
     ∧ nodes w1 !! folder = Some (with_attrs n a1)
     ∧ Z.testbit a1 2 = true
     ∧ (∀ i, 0 <= i < 32 -> i ≠ 2 -> i ≠ 7 ->
             Z.testbit a1 i = Z.testbit (node_attrs n) i)
     ∧ (∀ q, q ≠ folder -> nodes w1 !! q = nodes w !! q)
     ∧ (Z.testbit (node_attrs n) 2 = true -> w1 = w))
  ∧ (folder ∈ attrs_denied w ->
     ensure_folder_system folder w
     = (if Z.testbit (node_attrs n) 2 then Ok tt else Raise OtherOSError,
        w)).
Proof.
  intros Hn. split.
  - intros Hd.
    destruct (ensure_folder_system_effect folder w n Hn Hd)
      as (w1 & a1 & H1 & H2 & H3 & H4 & H5 & H6 & _).
    by exists w1, a1.
  - by apply ensure_folder_system_refused.
Qed.

(** X3 — [ensure_ini_hidden_system] on a path that exists.  When the
    platform lets the attributes of the path be set, it returns;
    afterwards the HIDDEN and SYSTEM bits of the path are set, its other
    attribute bits are as they were except NORMAL (which the platform
    drops when it stores other attributes), its content is as it was,
    every other path is untouched, and nothing at all is changed when
    both bits were set already.  When the platform refuses to change the
    attributes, it raises [OSError] unless both bits were set already,
    and nothing is changed. *)
Theorem ensure_ini_hidden_system_sets_bits (ini : Path) (w : world)
    (n : node) :
  nodes w !! ini = Some n ->
  (ini ∉ attrs_denied w ->
   ∃ w1 a1,
     ensure_ini_hidden_system ini w = (Ok tt, w1)
     ∧ nodes w1 !! ini = Some (with_attrs n a1)
     ∧ Z.testbit a1 1 = true
     ∧ Z.testbit a1 2 = true
     ∧ (∀ i, 0 <= i < 32 -> i ≠ 1 -> i ≠ 2 -> i ≠ 7 ->
             Z.testbit a1 i = Z.testbit (node_attrs n) i)
     ∧ (∀ q, q ≠ ini -> nodes w1 !! q = nodes w !! q)
     ∧ (Z.testbit (node_attrs n) 1 = true ->
        Z.testbit (node_attrs n) 2 = true -> w1 = w))
  ∧ (ini ∈ attrs_denied w ->
     ensure_ini_hidden_system ini w
     = (if Z.testbit (node_attrs n) 1 && Z.testbit (node_attrs n) 2
        then Ok tt else Raise OtherOSError,
        w)).
Proof.
  intros Hn. split.
  - intros Hd.
    destruct (ensure_ini_hidden_system_effect ini w n Hn Hd)
      as (w1 & a1 & H1 & H2 & H3 & H4 & H5 & H6 & H7 & _).
    by exists w1, a1.
  - by apply ensure_ini_hidden_system_refused.
Qed.

(** X4 — on a path that does not exist both [ensure_folder_system] and
    [ensure_ini_hidden_system] return without raising and without a call
    that changes the file system: the attribute value -1 they get has
    every bit set. *)
Theorem ensure_on_missing_path_returns (p : Path) (w : world) :
  nodes w !! p = None ->
  ensure_folder_system p w = (Ok tt, w)
  ∧ ensure_ini_hidden_system p w = (Ok tt, w).
Proof.
  intros Hp. unfold ensure_folder_system, ensure_ini_hidden_system, Fs.bind.
  rewrite get_file_attributes_returns. unfold GetFileAttributesW.
  rewrite Hp. done.
Qed.

End AttributeBits.

Lemma ensure_folder_system_sets_system_bit_witness :
  (∃ w1 a1,
     ensure_folder_system Samples.docs Samples.plain = (Ok tt, w1)
     ∧ nodes w1 !! Samples.docs = Some (with_attrs (Dir Samples.DIRECTORY) a1)
     ∧ Z.testbit a1 2 = true
     ∧ (∀ i, (0 <= i < 32)%Z -> i ≠ 2%Z -> i ≠ 7%Z ->
             Z.testbit a1 i
             = Z.testbit (node_attrs (Dir Samples.DIRECTORY)) i)
     ∧ (∀ q, q ≠ Samples.docs -> nodes w1 !! q = nodes Samples.plain !! q)
     ∧ (Z.testbit (node_attrs (Dir Samples.DIRECTORY)) 2 = true ->
        w1 = Samples.plain))
  ∧ ensure_folder_system Samples.docs Samples.folder_refused
    = (Raise OtherOSError, Samples.folder_refused).
Proof.
  split.
  - apply (proj1 (ensure_folder_system_sets_system_bit Samples.docs
                    Samples.plain (Dir Samples.DIRECTORY)
                    ltac:(vm_compute; reflexivity))).
    apply not_elem_of_empty.
  - apply (proj2 (ensure_folder_system_sets_system_bit Samples.docs
                    Samples.folder_refused (Dir Samples.DIRECTORY)
                    ltac:(vm_compute; reflexivity))).
    exact (proj2 (elem_of_singleton (C:=gset Path) Samples.docs
                    Samples.docs) eq_refl).
Defined.

Lemma ensure_ini_hidden_system_sets_bits_witness :
  (∃ w1 a1,
     ensure_ini_hidden_system Samples.docs_ini
       (Samples.with_plain_sidecar [])
     = (Ok tt, w1)
     ∧ nodes w1 !! Samples.docs_ini = Some (with_attrs (File 0x20 []) a1)
     ∧ Z.testbit a1 1 = true
     ∧ Z.testbit a1 2 = true
     ∧ (∀ i, (0 <= i < 32)%Z -> i ≠ 1%Z -> i ≠ 2%Z -> i ≠ 7%Z ->
             Z.testbit a1 i = Z.testbit (node_attrs (File 0x20 [])) i)
     ∧ (∀ q, q ≠ Samples.docs_ini ->
             nodes w1 !! q = nodes (Samples.with_plain_sidecar []) !! q)
     ∧ (Z.testbit (node_attrs (File 0x20 [])) 1 = true ->
        Z.testbit (node_attrs (File 0x20 [])) 2 = true ->
        w1 = Samples.with_plain_sidecar []))
  ∧ ensure_ini_hidden_system Samples.docs_ini Samples.sidecar_refused
    = (Raise OtherOSError, Samples.sidecar_refused).
Proof.
  split.
  - apply (proj1 (ensure_ini_hidden_system_sets_bits Samples.docs_ini
                    (Samples.with_plain_sidecar []) (File 0x20 [])
                    ltac:(vm_compute; reflexivity))).
    apply not_elem_of_empty.
  - apply (proj2 (ensure_ini_hidden_system_sets_bits Samples.docs_ini
                    Samples.sidecar_refused (File 0x20 [])
                    ltac:(vm_compute; reflexivity))).
    exact (proj2 (elem_of_singleton (C:=gset Path) Samples.docs_ini
                    Samples.docs_ini) eq_refl).
Defined.

Lemma ensure_on_missing_path_returns_witness :
  ensure_folder_system [lit "C:"; lit "gone"] Samples.plain
  = (Ok tt, Samples.plain)
  ∧ ensure_ini_hidden_system [lit "C:"; lit "gone"] Samples.plain
    = (Ok tt, Samples.plain).
Proof.
  apply (ensure_on_missing_path_returns [lit "C:"; lit "gone"] Samples.plain).
  vm_compute. reflexivity.
Defined.

(** ** What [write_info_tip] touches, and the attributes it leaves *)

Section Confinement.

Variable mbcs_decode : bytes -> option str.

Implicit Types (w : world) (folder p : Path).

Lemma confined_refl folder w : confined folder w w.
Proof.
  split; [done|]. exists []. by rewrite app_nil_r.
Qed.

Lemma confined_trans folder w w1 w2 :
  confined folder w w1 -> confined folder w1 w2 -> confined folder w w2.
Proof.
  intros [Hn1 (evs1 & He1 & Hf1)] [Hn2 (evs2 & He2 & Hf2)]. split.
  - intros q Hq Hq'. by rewrite Hn2, Hn1.
  - exists (evs1 ++ evs2). rewrite He2, He1, app_assoc. split; [done|].
    by apply Forall_app.
Qed.

(** One change of one of the two nodes, recorded by one event. *)
Lemma confined_step folder w p (ns : gmap Path node) e :
  p = folder ∨ p = child folder (lit "desktop.ini") ->
  (∀ q, q ≠ p -> ns !! q = nodes w !! q) ->
  sidecar_event folder e ->
  confined folder w
    (mkWorld ns (events w ++ [e]) (write_denied w) (attrs_denied w)).
Proof.
  intros Hp Hns He. split; cbn [nodes events].
  - intros q Hq Hq'. apply Hns. by destruct Hp as [->| ->].
  - exists [e]. split; [done|]. constructor; [done|constructor].
Qed.

Lemma set_file_attributes_confined folder p a w res w1 :
  p = folder ∨ p = child folder (lit "desktop.ini") ->
  set_file_attributes p a w = (res, w1) -> confined folder w w1.
Proof.
  intros Hp. unfold set_file_attributes, Fs.bind, SetFileAttributesW.
  destruct (nodes w !! p) as [n|].
  - destruct (bool_decide (p ∈ attrs_denied w)).
    + cbn. intros [= <- <-]. apply confined_refl.
    + cbn. intros [= <- <-]. apply (confined_step folder w p); [done| |].
      * intros q Hq. by rewrite lookup_insert_ne.
      * destruct Hp as [->| ->]; [left|right; left]; eauto.
  - cbn. intros [= <- <-]. apply confined_refl.
Qed.

Lemma ensure_folder_system_confined folder w res w1 :
  ensure_folder_system folder w = (res, w1) -> confined folder w w1.
Proof.
  unfold ensure_folder_system, Fs.bind. rewrite get_file_attributes_returns.
  destruct (negb _).
  - intros [= <- <-]. apply confined_refl.
  - apply set_file_attributes_confined. by left.
Qed.

Lemma ensure_ini_hidden_system_confined folder w res w1 :
  ensure_ini_hidden_system (child folder (lit "desktop.ini")) w = (res, w1) ->
  confined folder w w1.
Proof.
  unfold ensure_ini_hidden_system, Fs.bind.
  rewrite get_file_attributes_returns. cbv zeta.
  destruct (negb _).
  - apply set_file_attributes_confined. by right.
  - intros [= <- <-]. apply confined_refl.
Qed.

Lemma unlink_confined folder w res w1 :
  unlink (child folder (lit "desktop.ini")) w = (res, w1) ->
  confined folder w w1.
Proof.
  unfold unlink.
  destruct (nodes w !! child folder (lit "desktop.ini")) as [[a|a c]|];
    [| destruct (negb _ || _) |];
    intros [= <- <-]; try apply confined_refl.
  apply (confined_step folder w (child folder (lit "desktop.ini")));
    [by right| |by repeat right].
  intros q Hq. by rewrite lookup_delete_ne.
Qed.

Lemma write_config_confined folder parser w res w1 :
  write_config (child folder (lit "desktop.ini")) parser w = (res, w1) ->
  confined folder w w1.
Proof.
  unfold write_config, write_text_utf16.
  set (ini := child folder (lit "desktop.ini")).
  destruct (Codec.write_chunks true [] (ConfigParser.write parser))
    as [content err].
  assert (∀ attrs,
            confined folder w
              (mkWorld (<[ini := File attrs content]> (nodes w))
                       (events w ++ [EvWrite ini content])
                       (write_denied w) (attrs_denied w))) as Hstep.
  { intros attrs. apply (confined_step folder w ini); [by right| |].
    - intros q Hq. by rewrite lookup_insert_ne.
    - right. right. left. eauto. }
  destruct (nodes w !! ini) as [[a|a c]|].
  - intros [= <- <-]. apply confined_refl.
  - destruct (negb _ || _); intros [= <- <-];
      [apply confined_refl|apply Hstep].
  - destruct (nodes w !! parent ini) as [[a|a c]|];
      try (intros [= <- <-]; apply confined_refl).
    destruct (bool_decide _); intros [= <- <-];
      [apply confined_refl|apply Hstep].
Qed.

(** X5 — whatever the outcome, a call of [write_info_tip] changes no node
    of the file system other than the folder and its [desktop.ini], and
    every call it makes that changes the file system is an attribute
    setting on one of the two, a write of the sidecar or an unlink of the
    sidecar. *)
Theorem write_info_tip_confined folder (remark : str) w res w1 :
  write_info_tip mbcs_decode folder remark w = (res, w1) ->
  confined folder w w1.
Proof.
  rewrite write_info_tip_unfold.
  destruct (negb (exists_ w folder)).
  { intros [= <- <-]. apply confined_refl. }
  destruct (ensure_folder_system folder w) as [[[]|e] w0] eqn:Hens;
    apply ensure_folder_system_confined in Hens.
  2: { by intros [= <- <-]. }
  cbv zeta.
  destruct (updated_parser _ remark) as [parser|e].
  2: { by intros [= <- <-]. }
  destruct (ConfigParser.sections_list parser).
  - destruct (exists_ w0 _).
    + intros Hun. apply unlink_confined in Hun.
      by apply (confined_trans folder w w0 w1).
    + by intros [= <- <-].
  - destruct (write_config _ parser w0) as [[[]|e] w2] eqn:Hwr;
      apply write_config_confined in Hwr.
    + intros Hini. apply ensure_ini_hidden_system_confined in Hini.
      apply (confined_trans folder w w0 w1); [done|].
      by apply (confined_trans folder w0 w2 w1).
    + intros [= <- <-]. by apply (confined_trans folder w w0 w2).
Qed.

(** X6 — attribute enforcement.  When [write_info_tip] returns, the folder
    exists with its SYSTEM bit set, and a sidecar, if there is one after
    the call, has its HIDDEN and SYSTEM bits set. *)
Theorem write_info_tip_enforces_attributes folder (remark : str) w w1 :
  write_info_tip mbcs_decode folder remark w = (Ok tt, w1) ->
  (∃ n, nodes w1 !! folder = Some n
        ∧ Z.testbit (node_attrs n) 2 = true)
  ∧ (∀ n, nodes w1 !! child folder (lit "desktop.ini") = Some n ->
          Z.testbit (node_attrs n) 1 = true
          ∧ Z.testbit (node_attrs n) 2 = true).
Proof.
  intros Hret.
  destruct (write_info_tip_returned mbcs_decode folder remark w w1 Hret)
    as (Hfolder & Hini & _).
  by split.
Qed.

End Confinement.

Lemma write_info_tip_confined_witness :
  confined Samples.docs Samples.icon_and_tip
    (snd (write_info_tip Samples.latin1 Samples.docs (lit "note")
            Samples.icon_and_tip)).
Proof.
  apply (write_info_tip_confined Samples.latin1 Samples.docs (lit "note")
           Samples.icon_and_tip
           (fst (write_info_tip Samples.latin1 Samples.docs (lit "note")
                   Samples.icon_and_tip))).
  apply surjective_pairing.
Defined.

Lemma write_info_tip_enforces_attributes_witness :
  (∃ n, nodes (snd (write_info_tip Samples.latin1 Samples.docs (lit "note")
                      Samples.plain)) !! Samples.docs = Some n
        ∧ Z.testbit (node_attrs n) 2 = true)
  ∧ (∀ n, nodes (snd (write_info_tip Samples.latin1 Samples.docs (lit "note")
                        Samples.plain))
          !! child Samples.docs (lit "desktop.ini") = Some n ->
          Z.testbit (node_attrs n) 1 = true
          ∧ Z.testbit (node_attrs n) 2 = true).
Proof.
  apply (write_info_tip_enforces_attributes Samples.latin1 Samples.docs
           (lit "note") Samples.plain).
  vm_compute. reflexivity.
Defined.

(** ** The sidecar as a document: writing, reading, what is kept *)

Section SidecarDocument.

Variable mbcs_decode : bytes -> option str.

Implicit Types (secs : dict (dict str)) (d : dict str) (r : str) (w : world)
  (folder : Path).

Lemma set_tip_get_other secs r (n : str) :
  n ≠ SECTION -> dict_get (set_tip secs r) n = dict_get secs n.
Proof.
  intros Hn. induction secs as [|[m d] secs IH]; cbn [set_tip dict_get].
  - by rewrite (proj2 (str_eqb_neq SECTION n)).
  - destruct (str_eqb m SECTION) eqn:E; cbn [dict_get]; [|by rewrite IH].
    apply str_eqb_eq in E as ->.
    by rewrite (proj2 (str_eqb_neq SECTION n)).
Qed.

Lemma set_tip_get_section secs r :
  dict_get (set_tip secs r) SECTION
  = Some (strip_infotip (default [] (dict_get secs SECTION))
          ++ [(INFOTIP, r)]).
Proof.
  induction secs as [|[m d] secs IH]; cbn [set_tip dict_get].
  - by rewrite str_eqb_refl.
  - destruct (str_eqb m SECTION) eqn:E; cbn [dict_get]; by rewrite E.
Qed.

(** The parser operations of [write_info_tip] end in [set], which rejects
    the remark, whatever the document holds. *)
Lemma updated_parser_rejects (parser : ConfigParser.t) c r :
  ConfigParser.before_set (c :: r) = Raise ValueError ->
  updated_parser parser (c :: r) = Raise ValueError.
Proof.
  intros Hset. destruct parser as [dflt secs].
  assert (∀ secs1 d secs2,
            SECTION ∉ dict_keys secs1 ->
            match ConfigParser.options
                    (ConfigParser.mk dflt (secs1 ++ (SECTION, d) :: secs2))
                    SECTION with
            | Raise e => Raise e
            | Ok opts =>
                match remove_infotip_loop
                        (ConfigParser.mk dflt (secs1 ++ (SECTION, d) :: secs2))
                        opts with
                | Raise e => Raise e
                | Ok p => ConfigParser.set p SECTION INFOTIP (c :: r)
                end
            end = Raise ValueError) as Hmid.
  { intros secs1 d secs2 Hs. unfold ConfigParser.options.
    cbn [ConfigParser.sections ConfigParser.defaults].
    rewrite dict_get_middle by done.
    rewrite remove_infotip_loop_middle by done.
    unfold ConfigParser.set. by rewrite Hset. }
  unfold updated_parser, ConfigParser.sections_list.
  cbn [ConfigParser.sections]. case_bool_decide as Hin.
  - destruct (dict_keys_split secs SECTION Hin) as (s1 & d & s2 & -> & Hs).
    by apply Hmid.
  - unfold ConfigParser.add_section. rewrite section_neq_default.
    cbn [ConfigParser.sections ConfigParser.defaults].
    rewrite (proj2 (dict_mem_not_elem secs SECTION)) by done.
    rewrite dict_set_fresh by done. by apply Hmid.
Qed.

(** X7 — round trip of [write_config] and [safe_read_config].  In an
    existing directory, on a sidecar path that holds no directory and that
    the platform lets the engine write (no file there, or one that is not
    read-only, hidden or system, and no right withheld), writing a
    well-formed document without defaults whose text utf-16 can hold
    returns, and reading the file back yields the document with every
    value as the reader makes it: the document itself when its values are
    ones the reader returns unchanged. *)
Theorem write_config_then_read w folder a secs :
  nodes w !! folder = Some (Dir a) ->
  (∀ a', nodes w !! child folder (lit "desktop.ini") ≠ Some (Dir a')) ->
  writable w (child folder (lit "desktop.ini")) ->
  doc_ok secs ->
  doc_text_ok secs ->
  ∃ w1,
    write_config (child folder (lit "desktop.ini")) (ConfigParser.mk [] secs) w
    = (Ok tt, w1)
    ∧ safe_read_config mbcs_decode w1 (child folder (lit "desktop.ini"))
      = ConfigParser.mk [] (parsed_sections secs)
    ∧ (stable secs -> parsed_sections secs = secs).
Proof.
  intros Hdir Hnodir Hwritable Hdoc Htext.
  destruct (write_config_written w folder secs a Hdir Hnodir Hwritable Htext)
    as [attrs ->].
  eexists. split; [done|]. split; [|apply stable_parsed].
  apply (safe_read_written mbcs_decode _ _ attrs); [|done..].
  cbn [nodes]. apply lookup_insert_eq.
Qed.

(** X8 — a folder without sidecar file (none at all, or a directory of
    that name) reads as the empty document and has the empty remark. *)
Theorem read_info_tip_without_sidecar w folder :
  (∀ a c, nodes w !! child folder (lit "desktop.ini") ≠ Some (File a c)) ->
  safe_read_config mbcs_decode w (child folder (lit "desktop.ini"))
  = ConfigParser.empty
  ∧ read_info_tip mbcs_decode w folder = Ok [].
Proof.
  intros Hno. split.
  - by apply safe_read_config_no_file.
  - by apply read_info_tip_no_sidecar.
Qed.

(** X9 — when the sidecar reads as a document without defaults whose
    [.ShellClassInfo] section holds case variants of the key,
    [read_info_tip] returns the value of the first of them in the order of
    the section, provided that value holds no percent sign; the variants
    after it are not looked at. *)
Theorem read_info_tip_returns_first_variant w folder secs1 secs2 d1 d2 (k v : str) :
  safe_read_config mbcs_decode w (child folder (lit "desktop.ini"))
  = ConfigParser.mk [] (secs1 ++ (SECTION, d1 ++ (k, v) :: d2) :: secs2) ->
  SECTION ∉ dict_keys secs1 ->
  Forall (fun k' => is_infotip k' = false) (dict_keys d1) ->
  is_infotip k = true ->
  ConfigParser.has_percent v = false ->
  read_info_tip mbcs_decode w folder = Ok v.
Proof.
  intros Hdoc Hs Hd1 Hk Hv.
  rewrite (read_info_tip_document mbcs_decode _ _ _ _ _ Hdoc Hs).
  rewrite dict_keys_app. cbn [dict_keys map fst].
  rewrite read_info_tip_loop_first by done.
  apply get_plain; [done| |done].
  intros Hin. rewrite Forall_forall in Hd1. apply Hd1 in Hin. congruence.
Qed.

(** X10 — writing a remark keeps everything else the sidecar holds.  For
    a folder whose attributes and whose sidecar's attributes the platform
    lets the engine set, and whose sidecar is one the platform lets the
    engine write (not read-only, hidden or system) and reads as a
    well-formed document with values the reader returns unchanged, a
    non-empty remark without percent sign is written, and the sidecar
    then reads as a document in which every
    other section is as it was, and the [.ShellClassInfo] section holds
    its former options other than case variants of the key, in their
    order, followed by the one option [InfoTip] with the remark as the
    reader makes it. *)
Theorem write_info_tip_keeps_other_entries w folder a secs r :
  nodes w !! folder = Some (Dir a) ->
  (∀ a', nodes w !! child folder (lit "desktop.ini") ≠ Some (Dir a')) ->
  folder ∉ attrs_denied w ->
  child folder (lit "desktop.ini") ∉ attrs_denied w ->
  writable w (child folder (lit "desktop.ini")) ->
  safe_read_config mbcs_decode w (child folder (lit "desktop.ini"))
  = ConfigParser.mk [] secs ->
  doc_ok secs ->
  doc_text_ok secs ->
  stable secs ->
  r ≠ [] ->
  text_ok r = true ->
  ConfigParser.has_percent r = false ->
  ∃ w1 secs',
    write_info_tip mbcs_decode folder r w = (Ok tt, w1)
    ∧ safe_read_config mbcs_decode w1 (child folder (lit "desktop.ini"))
      = ConfigParser.mk [] secs'
    ∧ (∀ n, n ≠ SECTION -> dict_get secs' n = dict_get secs n)
    ∧ dict_get secs' SECTION
      = Some (strip_infotip (default [] (dict_get secs SECTION))
              ++ [(INFOTIP, parsed_value r)])
    ∧ dict_keys secs'
      = (if bool_decide (SECTION ∈ dict_keys secs) then dict_keys secs
         else dict_keys secs ++ [SECTION]).
Proof.
  intros Hdir Hnodir Hfolder Hiniattr Hwritable Hread Hdoc Htext Hstable Hne
    Hr Hpc.
  destruct r as [|c r]; [done|].
  assert (updated_parser
            (safe_read_config mbcs_decode w (child folder (lit "desktop.ini")))
            (c :: r)
          = Ok (ConfigParser.mk [] (set_tip secs (c :: r)))) as Hup.
  { rewrite Hread, updated_parser_set. by rewrite before_set_plain. }
  destruct (write_info_tip_step mbcs_decode w folder a _ _ Hdir Hnodir
              Hfolder Hiniattr Hwritable Hup)
    as (w1 & a1 & Hw1 & _ & _ & _ & Hread1);
    [by apply doc_ok_set_tip|by apply doc_text_ok_set_tip|].
  rewrite parsed_set_tip in Hread1 by done.
  exists w1, (set_tip secs (parsed_value (c :: r))).
  split; [done|]. split; [done|]. split; [|split].
  - intros n Hn. by apply set_tip_get_other.
  - apply set_tip_get_section.
  - apply set_tip_keys.
Qed.

(** X11 — a remark that [ConfigParser.set] rejects for its percent signs
    is never written: for every existing folder, whatever its sidecar
    holds, [write_info_tip] raises and leaves the sidecar as it was, and
    only the attributes of the folder may have been set.  What it raises
    is [ValueError], unless the platform has refused before that to set
    the attributes of the folder: then it is the [OSError] of
    [ensure_folder_system], and nothing at all has changed. *)
Theorem write_info_tip_percent_rejected w folder r :
  exists_ w folder = true ->
  ConfigParser.before_set r = Raise ValueError ->
  ∃ e w1,
    write_info_tip mbcs_decode folder r w = (Raise e, w1)
    ∧ (e = ValueError
       ∨ (e = OtherOSError ∧ folder ∈ attrs_denied w ∧ w1 = w))
    ∧ (folder ∉ attrs_denied w -> e = ValueError)
    ∧ nodes w1 !! child folder (lit "desktop.ini")
      = nodes w !! child folder (lit "desktop.ini")
    ∧ ∃ evs, events w1 = events w ++ evs
             ∧ Forall (fun e => ∃ a, e = EvSetFileAttributes folder a) evs.
Proof.
  intros Hex Hset. rewrite write_info_tip_unfold, Hex. cbn [negb].
  apply exists_Some in Hex.
  destruct (ensure_folder_system_outcome folder w Hex)
    as (res & w0 & -> & (Hsame & _ & Hev & _) & Hres).
  destruct Hres as [->|(-> & -> & Hd)].
  - cbv zeta. destruct r as [|c r]; [done|].
    rewrite updated_parser_rejects by done.
    exists ValueError, w0. split; [done|]. split; [by left|].
    split; [done|]. split; [|done]. apply Hsame, child_neq.
  - exists OtherOSError, w. split; [done|]. split; [by right|].
    split; [done|]. split; [done|]. exists []. by rewrite app_nil_r.
Qed.

(** X12 — the empty remark for a folder without sidecar: [write_info_tip]
    creates no sidecar, and only the attributes of the folder may have
    been set.  It returns, unless the platform refuses to set the
    attributes of the folder: then it raises the [OSError] of
    [ensure_folder_system], and nothing at all has changed. *)
Theorem write_empty_remark_without_sidecar w folder :
  exists_ w folder = true ->
  nodes w !! child folder (lit "desktop.ini") = None ->
  ∃ res w1,
    write_info_tip mbcs_decode folder [] w = (res, w1)
    ∧ (res = Ok tt
       ∨ (res = Raise OtherOSError ∧ folder ∈ attrs_denied w ∧ w1 = w))
    ∧ (folder ∉ attrs_denied w -> res = Ok tt)
    ∧ nodes w1 !! child folder (lit "desktop.ini") = None
    ∧ ∃ evs, events w1 = events w ++ evs
             ∧ Forall (fun e => ∃ a, e = EvSetFileAttributes folder a) evs.
Proof.
  intros Hex Hini. rewrite write_info_tip_unfold, Hex. cbn [negb].
  apply exists_Some in Hex.
  destruct (ensure_folder_system_outcome folder w Hex)
    as (res & w0 & -> & (Hsame & _ & Hev & _) & Hres).
  destruct Hres as [->|(-> & -> & Hd)].
  - cbv zeta.
    assert (nodes w0 !! child folder (lit "desktop.ini") = None) as Hini0
      by (rewrite Hsame by apply child_neq; done).
    rewrite safe_read_config_no_file by (intros a c; by rewrite Hini0).
    assert (updated_parser ConfigParser.empty []
            = Ok (ConfigParser.mk [] [])) as -> by (vm_compute; reflexivity).
    cbn [ConfigParser.sections_list ConfigParser.sections dict_keys map].
    rewrite (proj2 (exists_None w0 _)) by done.
    exists (Ok tt), w0. split; [done|]. split; [by left|]. by repeat split.
  - exists (Raise OtherOSError), w. split; [done|]. split; [by right|].
    split; [done|]. split; [done|]. exists []. by rewrite app_nil_r.
Qed.

End SidecarDocument.

Lemma write_config_then_read_witness :
  ∃ w1,
    write_config (child Samples.docs (lit "desktop.ini"))
      (ConfigParser.mk [] Samples.icon_and_tip_doc) Samples.plain
    = (Ok tt, w1)
    ∧ safe_read_config Samples.latin1 w1 (child Samples.docs (lit "desktop.ini"))
      = ConfigParser.mk [] (parsed_sections Samples.icon_and_tip_doc)
    ∧ (stable Samples.icon_and_tip_doc ->
       parsed_sections Samples.icon_and_tip_doc = Samples.icon_and_tip_doc).
Proof.
  apply (write_config_then_read Samples.latin1 Samples.plain Samples.docs
           Samples.DIRECTORY).
  - vm_compute; reflexivity.
  - intros a' H. vm_compute in H. discriminate H.
  - split; [apply not_elem_of_empty|].
    intros a' c H. vm_compute in H. discriminate H.
  - apply icon_and_tip_doc_ok.
  - apply icon_and_tip_doc_ok.
Defined.

Lemma read_info_tip_without_sidecar_witness :
  safe_read_config Samples.latin1 Samples.plain
    (child Samples.docs (lit "desktop.ini"))
  = ConfigParser.empty
  ∧ read_info_tip Samples.latin1 Samples.plain Samples.docs = Ok [].
Proof.
  apply (read_info_tip_without_sidecar Samples.latin1 Samples.plain
           Samples.docs).
  intros a c H. vm_compute in H. discriminate H.
Defined.

Lemma read_info_tip_returns_first_variant_witness :
  read_info_tip Samples.latin1 Samples.icon_and_tip Samples.docs
  = Ok (lit "old").
Proof.
  apply (read_info_tip_returns_first_variant Samples.latin1 Samples.icon_and_tip
           Samples.docs [] []
           [(lit "IconResource", lit "C:\icons\docs.ico,0")] []
           (lit "infotip") (lit "old")).
  - exact icon_and_tip_reads.
  - apply not_elem_of_nil.
  - repeat constructor.
  - vm_compute; reflexivity.
  - vm_compute; reflexivity.
Defined.

Lemma write_info_tip_keeps_other_entries_witness :
  ∃ w1 secs',
    write_info_tip Samples.latin1 Samples.docs (lit "note")
      Samples.icon_and_tip
    = (Ok tt, w1)
    ∧ safe_read_config Samples.latin1 w1
        (child Samples.docs (lit "desktop.ini"))
      = ConfigParser.mk [] secs'
    ∧ (∀ n, n ≠ SECTION ->
            dict_get secs' n = dict_get Samples.icon_and_tip_doc n)
    ∧ dict_get secs' SECTION
      = Some (strip_infotip
                (default [] (dict_get Samples.icon_and_tip_doc SECTION))
              ++ [(INFOTIP, parsed_value (lit "note"))])
    ∧ dict_keys secs'
      = (if bool_decide (SECTION ∈ dict_keys Samples.icon_and_tip_doc)
         then dict_keys Samples.icon_and_tip_doc
         else dict_keys Samples.icon_and_tip_doc ++ [SECTION]).
Proof.
  apply (write_info_tip_keeps_other_entries Samples.latin1
           Samples.icon_and_tip Samples.docs Samples.DIRECTORY).
  - vm_compute; reflexivity.
  - intros a' H. vm_compute in H. discriminate H.
  - apply not_elem_of_empty.
  - apply not_elem_of_empty.
  - exact icon_and_tip_writable.
  - exact icon_and_tip_reads.
  - apply icon_and_tip_doc_ok.
  - apply icon_and_tip_doc_ok.
  - apply icon_and_tip_doc_ok.
  - intros H. vm_compute in H. discriminate H.
  - vm_compute; reflexivity.
  - vm_compute; reflexivity.
Defined.

Lemma write_info_tip_percent_rejected_witness :
  ∃ e w1,
    write_info_tip Samples.latin1 Samples.docs (lit "50%")
      Samples.icon_and_tip
    = (Raise e, w1)
    ∧ (e = ValueError
       ∨ (e = OtherOSError ∧ Samples.docs ∈ attrs_denied Samples.icon_and_tip
          ∧ w1 = Samples.icon_and_tip))
    ∧ (Samples.docs ∉ attrs_denied Samples.icon_and_tip -> e = ValueError)
    ∧ nodes w1 !! child Samples.docs (lit "desktop.ini")
      = nodes Samples.icon_and_tip !! child Samples.docs (lit "desktop.ini")
    ∧ ∃ evs, events w1 = events Samples.icon_and_tip ++ evs
             ∧ Forall (fun e => ∃ a, e = EvSetFileAttributes Samples.docs a)
                      evs.
Proof.
  apply (write_info_tip_percent_rejected Samples.latin1 Samples.icon_and_tip
           Samples.docs (lit "50%")).
  - vm_compute; reflexivity.
  - vm_compute; reflexivity.
Defined.

Lemma write_empty_remark_without_sidecar_witness :
  ∃ res w1,
    write_info_tip Samples.latin1 Samples.docs [] Samples.plain = (res, w1)
    ∧ (res = Ok tt
       ∨ (res = Raise OtherOSError ∧ Samples.docs ∈ attrs_denied Samples.plain
          ∧ w1 = Samples.plain))
    ∧ (Samples.docs ∉ attrs_denied Samples.plain -> res = Ok tt)
    ∧ nodes w1 !! child Samples.docs (lit "desktop.ini") = None
    ∧ ∃ evs, events w1 = events Samples.plain ++ evs
             ∧ Forall (fun e => ∃ a, e = EvSetFileAttributes Samples.docs a)
                      evs.
Proof.
  apply (write_empty_remark_without_sidecar Samples.latin1 Samples.plain
           Samples.docs).
  - vm_compute; reflexivity.
  - vm_compute; reflexivity.
Defined.

(** ** Enumeration: what [list_subfolders] returns *)

Section EnumerationContent.

Implicit Types (self : DesktopIniService) (os : Listing) (parent : Path).

Lemma insert_sorted_Permutation (x : Path) (l : list Path) :
  insert_sorted x l ≡ₚ x :: l.
Proof.
  induction l as [|y l IH]; simpl; [done|].
  destruct (path_ltb x y); [done|]. rewrite IH. apply Permutation_swap.
Qed.

Lemma sorted_from_Permutation (l acc : list Path) :
  fold_left (fun acc x => insert_sorted x acc) l acc ≡ₚ acc ++ l.
Proof.
  revert acc. induction l as [|x l IH]; intros acc; simpl.
  - by rewrite app_nil_r.
  - rewrite IH, insert_sorted_Permutation.
    by rewrite (Permutation_middle acc l x).
Qed.

Lemma sorted_Permutation (l : list Path) : sorted l ≡ₚ l.
Proof. unfold sorted. by rewrite sorted_from_Permutation. Qed.

Lemma scan_entries_content self parent entries acc :
  Forall inspectable entries ->
  scan_entries self parent entries acc
  = Ok (acc ++ map (fun e => child parent (entry_name e))
                   (filter (fun e => listed self e = true) entries)).
Proof.
  intros Hok. revert acc.
  induction Hok as [|e entries He _ IH]; intros acc; cbn [scan_entries].
  - by rewrite app_nil_r.
  - unfold inspectable in He.
    destruct (entry_is_dir e) as [[|]|ex] eqn:E.
    + destruct (bool_decide (lower (entry_name e) ∈ skip_names self))
        eqn:Hskip.
      * rewrite filter_cons_False
          by (unfold listed; rewrite E, Hskip; discriminate).
        apply IH.
      * rewrite filter_cons_True by (unfold listed; by rewrite E, Hskip).
        rewrite IH. cbn [map]. by rewrite <- app_assoc.
    + rewrite filter_cons_False by (unfold listed; rewrite E; discriminate).
      apply IH.
    + rewrite (He ex eq_refl).
      rewrite filter_cons_False by (unfold listed; rewrite E; discriminate).
      apply IH.
Qed.

(** X13 — for a parent that exists and can be scanned, when every entry
    can be inspected or fails for lack of permission, [list_subfolders]
    returns exactly the paths of the entries reported as directories whose
    lower-cased name is not in the skip set, each as often as it occurs
    among the entries: nothing is lost, nothing is added. *)
Theorem list_subfolders_content self os parent entries :
  ls_exists os parent = true ->
  ls_scandir os parent = Scan entries ->
  Forall inspectable entries ->
  ∃ l,
    list_subfolders self os parent = Ok l
    ∧ l ≡ₚ map (fun e => child parent (entry_name e))
              (filter (fun e => listed self e = true) entries).
Proof.
  intros Hex Hscan Hok. unfold list_subfolders. rewrite Hex, Hscan.
  cbn [negb]. rewrite scan_entries_content by done. cbn [app].
  eexists. split; [done|]. apply sorted_Permutation.
Qed.

(** X14 — an error other than [PermissionError] that the inspection of
    an entry raises is not swallowed: [list_subfolders] raises it. *)
Theorem list_subfolders_entry_error self os parent es1 e es2 ex :
  ls_exists os parent = true ->
  ls_scandir os parent = Scan (es1 ++ e :: es2) ->
  Forall inspectable es1 ->
  entry_is_dir e = Raise ex ->
  ex ≠ PermissionError ->
  list_subfolders self os parent = Raise ex.
Proof.
  intros Hex Hscan Hok He Hne. unfold list_subfolders. rewrite Hex, Hscan.
  cbn [negb].
  assert (∀ acc, scan_entries self parent (es1 ++ e :: es2) acc = Raise ex)
    as ->; [|done].
  clear Hscan.
  induction Hok as [|e1 es1 He1 _ IH]; intros acc; cbn [app scan_entries].
  - rewrite He. by destruct ex.
  - unfold inspectable in He1.
    destruct (entry_is_dir e1) as [[|]|ex1] eqn:E; try apply IH.
    + case_bool_decide; apply IH.
    + rewrite (He1 ex1 eq_refl). apply IH.
Qed.

End EnumerationContent.

Lemma list_subfolders_content_witness :
  ∃ l,
    list_subfolders EnumerationSample.service EnumerationSample.os
      EnumerationSample.drive = Ok l
    ∧ l ≡ₚ map (fun e => child EnumerationSample.drive (entry_name e))
              (filter (fun e => listed EnumerationSample.service e = true)
                      EnumerationSample.entries).
Proof.
  apply (list_subfolders_content EnumerationSample.service
           EnumerationSample.os EnumerationSample.drive
           EnumerationSample.entries).
  - vm_compute; reflexivity.
  - vm_compute; reflexivity.
  - repeat constructor; intros ex H; vm_compute in H;
      first [discriminate H | by injection H as <-].
Defined.

Lemma list_subfolders_entry_error_witness :
  list_subfolders EnumerationSample.service
    (mkListing (fun _ => true)
       (fun _ => Scan [mkEntry (lit "a") (Ok true);
                       mkEntry (lit "b") (Raise OtherOSError);
                       mkEntry (lit "c") (Ok true)]))
    EnumerationSample.drive
  = Raise OtherOSError.
Proof.
  apply (list_subfolders_entry_error EnumerationSample.service
           (mkListing (fun _ => true)
              (fun _ => Scan [mkEntry (lit "a") (Ok true);
                              mkEntry (lit "b") (Raise OtherOSError);
                              mkEntry (lit "c") (Ok true)]))
           EnumerationSample.drive
           [mkEntry (lit "a") (Ok true)]
           (mkEntry (lit "b") (Raise OtherOSError))
           [mkEntry (lit "c") (Ok true)]).
  - reflexivity.
  - reflexivity.
  - repeat constructor. intros ex H. discriminate H.
  - reflexivity.
  - discriminate.
Defined.

(** ** The batch save: its report and the rows it leaves *)

Section BatchReport.

Variable mbcs_decode : bytes -> option str.

Lemma dict_set_keys {V} (d : dict V) (k : str) (v0 v : V) :
  dict_get d k = Some v0 -> dict_keys (dict_set d k v) = dict_keys d.
Proof.
  induction d as [|[k' v'] d IH]; cbn [dict_get dict_set]; [done|].
  destruct (str_eqb k' k); [done|].
  intros H. cbn [dict_keys map fst]. f_equal. by apply IH.
Qed.

Lemma save_loop_keys (changed : list str) (st : SaveState) (w : world) :
  dict_keys (rows_by_path (fst (save_loop mbcs_decode changed st w)))
  = dict_keys (rows_by_path st).
Proof.
  revert st w. induction changed as [|key rest IH]; intros st w; [done|].
  cbn [save_loop].
  destruct (dict_get (rows_by_path st) key) as [row|] eqn:Hrow; [|apply IH].
  destruct (write_info_tip mbcs_decode (path row) (current_remark row) w)
    as [[[]|e] w1]; rewrite IH; cbn [rows_by_path]; [|done].
  by apply (dict_set_keys _ _ row).
Qed.

Lemma outcomes_length (outs : list (str * FolderRemark * result unit)) :
  (length (successes outs) + length (failures outs))%nat = length outs.
Proof.
  induction outs as [|[[key row] [u|e]] outs IH]; simpl; lia.
Qed.

Lemma failures_nil (outs : list (str * FolderRemark * result unit)) key row r :
  failures outs = [] -> (key, row, r) ∈ outs -> ∃ u, r = Ok u.
Proof.
  induction outs as [|[[key' row'] [u|e]] outs IH]; simpl; intros Hf Hin.
  - by apply elem_of_nil in Hin.
  - apply elem_of_cons in Hin as [[= -> -> ->]|Hin]; eauto.
  - done.
Qed.

Lemma attempts_all changed w outs w' key row :
  attempts mbcs_decode changed w outs w' ->
  (key, row) ∈ changed -> ∃ r, (key, row, r) ∈ outs.
Proof.
  induction 1 as [|key' row' rest w r w1 outs w2 Hw Hatt IH]; intros Hin.
  - by apply elem_of_nil in Hin.
  - apply elem_of_cons in Hin as [[= -> ->]|Hin].
    + exists r. apply list_elem_of_here.
    + destruct (IH Hin) as [r' Hr']. exists r'. by apply list_elem_of_further.
Qed.

(** X15 — the counts of the report add up: every dirty row is counted
    once, as a success or as a failure. *)
Theorem save_changes_counts (rows : dict FolderRemark) (w : world) :
  NoDup (dict_keys rows) ->
  (length (success_items (fst (_save_changes mbcs_decode rows w)))
   + length (failed_items (fst (_save_changes mbcs_decode rows w))))%nat
  = length (changed_rows rows).
Proof.
  intros Hnd. unfold _save_changes, changed_rows.
  set (changed := filter (fun kv => is_dirty (snd kv)) rows).
  assert (NoDup (dict_keys changed)) as Hndc.
  { eapply sublist_NoDup; [exact Hnd|].
    apply fmap_sublist, sublist_filter. }
  assert (∀ key row, (key, row) ∈ changed -> dict_get rows key = Some row)
    as Hget.
  { intros key row Hin. apply list_elem_of_filter in Hin as [_ Hin].
    by apply dict_get_elem. }
  destruct (save_loop_spec mbcs_decode changed (mkSave rows [] []) w Hndc Hget)
    as (outs & Hatt & -> & -> & _).
  cbn [success_items failed_items app]. rewrite outcomes_length.
  apply attempts_keys in Hatt. apply (f_equal length) in Hatt.
  by rewrite !length_map in *.
Qed.

End BatchReport.

Lemma save_changes_counts_witness :
  (length (success_items
             (fst (_save_changes Samples.latin1 BatchSample.rows
                     BatchSample.disk)))
   + length (failed_items
               (fst (_save_changes Samples.latin1 BatchSample.rows
                       BatchSample.disk))))%nat
  = length (changed_rows BatchSample.rows).
Proof.
  apply (save_changes_counts Samples.latin1 BatchSample.rows BatchSample.disk).
  apply NoDup_bool. vm_compute. reflexivity.
Defined.

(** ** The mapping dialog: [parse_mapping_lines] *)

Section MappingLines.

Implicit Types (s line name remark : str) (acc : dict str).

Lemma dict_set_keys_elem {V} (d : dict V) (k k' : str) (v : V) :
  k' ∈ dict_keys (dict_set d k v) -> k' = k ∨ k' ∈ dict_keys d.
Proof.
  induction d as [|[k0 v0] d IH]; cbn [dict_set dict_keys map fst].
  - intros H. apply list_elem_of_singleton in H. by left.
  - destruct (str_eqb k0 k) eqn:E; cbn [map fst]; rewrite !elem_of_cons.
    + tauto.
    + intros [->|H]; [tauto|]. destruct (IH H); tauto.
Qed.

Lemma dict_set_nonempty {V} (d : dict V) (k : str) (v : V) : dict_set d k v ≠ [].
Proof. destruct d as [|[k0 v0] d]; cbn [dict_set]; [done|]. by destruct (str_eqb k0 k). Qed.

Lemma parse_lines_invariant (lines : list str) (n : nat) acc :
  Forall (fun k => k ≠ [] ∧ trimmed k) (dict_keys acc) ->
  match snd (parse_lines lines n acc) with
  | Some _ => fst (parse_lines lines n acc) = []
  | None =>
      fst (parse_lines lines n acc) ≠ []
      ∧ Forall (fun k => k ≠ [] ∧ trimmed k)
               (dict_keys (fst (parse_lines lines n acc)))
  end.
Proof.
  revert n acc. induction lines as [|line lines IH]; intros n acc Hacc.
  - cbn [parse_lines]. by destruct acc.
  - cbn [parse_lines]. destruct (strip line) as [|c stripped]; [by apply IH|].
    destruct (split_arrow (c :: stripped)) as [[name_part remark_part]|];
      [|done].
    destruct (strip name_part) as [|c' nm] eqn:Hname; [done|].
    apply IH. rewrite Forall_forall in *. intros k Hk.
    apply dict_set_keys_elem in Hk as [->|Hk]; [|by apply Hacc].
    split; [done|]. rewrite <- Hname. apply strip_trimmed.
Qed.

(** X17 — [parse_mapping_lines] returns the empty mapping exactly when
    it shows a message box; a mapping returned without message box is
    not empty, and each of its names is non-empty and has no blank at
    either end. *)
Theorem parse_mapping_lines_result (text : str) :
  match snd (parse_mapping_lines text) with
  | Some _ => fst (parse_mapping_lines text) = []
  | None =>
      fst (parse_mapping_lines text) ≠ []
      ∧ Forall (fun k => k ≠ [] ∧ trimmed k)
               (dict_keys (fst (parse_mapping_lines text)))
  end.
Proof. apply parse_lines_invariant. constructor. Qed.

Lemma parse_lines_first_defect (l1 l2 : list str) (bad : str) (n : nat) acc :
  Forall line_ok l1 ->
  strip bad ≠ [] ->
  (split_arrow (strip bad) = None ->
   parse_lines (l1 ++ bad :: l2) n acc
   = ([], Some (MissingArrow (n + length l1 + 1) bad)))
  ∧ (∀ name_part remark_part,
       split_arrow (strip bad) = Some (name_part, remark_part) ->
       strip name_part = [] ->
       parse_lines (l1 ++ bad :: l2) n acc
       = ([], Some (EmptyName (n + length l1 + 1) bad))).
Proof.
  intros Hok Hbad. revert n acc.
  induction Hok as [|line l1 Hline _ IH]; intros n acc.
  - cbn [app parse_lines length]. replace (n + 0 + 1)%nat with (S n) by lia.
    destruct (strip bad) as [|c stripped]; [done|]. split.
    + by intros ->.
    + intros name_part remark_part -> Hname. by rewrite Hname.
  - cbn [app parse_lines length].
    replace (n + S (length l1) + 1)%nat with (S n + length l1 + 1)%nat by lia.
    destruct Hline as [Hblank|(np & rp & Harrow & Hname)].
    + rewrite Hblank. apply IH.
    + rewrite Harrow.
      destruct (strip line) as [|c stripped];
        [by destruct np; discriminate Harrow|].
      destruct (strip np) as [|c' nm]; [done|]. apply IH.
Qed.

(** X18 — the first line that is not blank and is defective decides the
    outcome: when the lines before it are blank or well formed, a line
    without arrow yields the empty mapping and the message naming its
    number (counted from one, blank lines included) and its text, and so
    does a line whose name is empty; nothing of the lines before or after
    it is returned. *)
Theorem parse_mapping_lines_first_defect (text : str) (l1 l2 : list str)
    (bad : str) :
  splitlines text = l1 ++ bad :: l2 ->
  Forall line_ok l1 ->
  strip bad ≠ [] ->
  (split_arrow (strip bad) = None ->
   parse_mapping_lines text = ([], Some (MissingArrow (length l1 + 1) bad)))
  ∧ (∀ name_part remark_part,
       split_arrow (strip bad) = Some (name_part, remark_part) ->
       strip name_part = [] ->
       parse_mapping_lines text
       = ([], Some (EmptyName (length l1 + 1) bad))).
Proof.
  intros Hlines Hok Hbad. unfold parse_mapping_lines. rewrite Hlines.
  apply (parse_lines_first_defect l1 l2 bad 0 [] Hok Hbad).
Qed.

Lemma splitlines_from_line cur line rest :
  no_linebreak line = true ->
  splitlines_from cur (line ++ LF :: rest)
  = (rev cur ++ line) :: splitlines_from [] rest.
Proof.
  unfold no_linebreak. revert cur.
  induction line as [|c line IH]; intros cur Hline.
  - cbn [app splitlines_from]. change (is_linebreak LF) with true.
    cbv beta iota. change (LF =? CR) with false. cbv iota.
    by rewrite app_nil_r.
  - cbn [forallb] in Hline. apply andb_true_iff in Hline as [Hc Hline].
    apply negb_true_iff in Hc. cbn [app splitlines_from]. rewrite Hc.
    rewrite IH by done. cbn [rev]. by rewrite <- app_assoc.
Qed.

Lemma splitlines_join (ls : list str) :
  ls ≠ [] ->
  Forall (fun l => no_linebreak l = true) ls ->
  splitlines (join [LF] ls ++ [LF]) = ls.
Proof.
  intros Hne Hls. unfold splitlines.
  induction Hls as [|l ls Hl Hls IH]; [done|].
  destruct ls as [|l2 ls].
  - cbn [join]. by rewrite splitlines_from_line.
  - change (join [LF] (l :: l2 :: ls)) with (l ++ [LF] ++ join [LF] (l2 :: ls)).
    rewrite <- !app_assoc. cbn [app].
    rewrite splitlines_from_line by done. cbn [rev app].
    by rewrite IH.
Qed.

Lemma split_arrow_cons (c c2 : N) s :
  split_arrow (c :: c2 :: s)
  = if (c =? HYPHEN) && (c2 =? GREATER) then Some ([], s)
    else match split_arrow (c2 :: s) with
         | Some (a, b) => Some (c :: a, b)
         | None => None
         end.
Proof. reflexivity. Qed.

Lemma split_arrow_app name rest :
  split_arrow name = None ->
  split_arrow (name ++ HYPHEN :: GREATER :: rest) = Some (name, rest).
Proof.
  induction name as [|c name IH]; [done|].
  destruct name as [|c2 name].
  - intros _. cbn [app]. rewrite !split_arrow_cons.
    change (HYPHEN =? GREATER) with false. rewrite andb_false_r.
    change ((HYPHEN =? HYPHEN) && (GREATER =? GREATER)) with true. done.
  - intros Hnone. rewrite split_arrow_cons in Hnone.
    cbn [app] in *. rewrite split_arrow_cons.
    destruct ((c =? HYPHEN) && (c2 =? GREATER)); [done|].
    rewrite IH; [done|]. by destruct (split_arrow (c2 :: name)) as [[a b]|].
Qed.

Lemma entry_line_strip (m : str * str * str) :
  entry_ok m ->
  ∃ c tl, strip (mapping_line m) = c :: tl ∧ c :: tl = mapping_line m.
Proof.
  destruct m as [[name remark] p]. unfold entry_ok, mapping_line.
  cbn [fst snd].
  intros (Hne & Htrim & _ & Hr & _).
  destruct name as [|c name]; [done|].
  exists c, (name ++ lit "->" ++ remark). split; [|done].
  change (lit "->") with [HYPHEN; GREATER].
  unfold strip.
  assert (rstrip ((c :: name) ++ [HYPHEN; GREATER] ++ remark)
          = (c :: name) ++ [HYPHEN; GREATER] ++ remark) as ->.
  { assert ((c :: name) ++ [HYPHEN; GREATER] ++ remark
            = ((c :: name) ++ [HYPHEN]) ++ GREATER :: remark) as ->
      by (by rewrite <- app_assoc).
    rewrite rstrip_app_nonspace by done. by rewrite Hr. }
  apply lstrip_nonspace. by apply (trimmed_head c name).
Qed.

Lemma parse_lines_entries (mappings : list (str * str * str)) (n : nat) acc :
  Forall entry_ok mappings ->
  NoDup (dict_keys acc ++ map (fun m => fst (fst m)) mappings) ->
  parse_lines (map mapping_line mappings) n acc
  = match acc ++ map (fun m => (fst (fst m), snd (fst m))) mappings with
    | [] => ([], Some NoMapping)
    | d => (d, None)
    end.
Proof.
  intros Hok. revert n acc.
  induction Hok as [|m mappings Hm _ IH]; intros n acc Hnd.
  - cbn [map parse_lines]. rewrite app_nil_r. by destruct acc.
  - cbn [map parse_lines].
    destruct (entry_line_strip m Hm) as (c & tl & -> & ->).
    destruct m as [[name remark] p]. unfold entry_ok, mapping_line in *.
    cbn [fst snd] in *.
    destruct Hm as (Hne & Htrim & Harrow & _).
    change (lit "->") with [HYPHEN; GREATER]. cbn [app].
    rewrite split_arrow_app by done.
    rewrite trimmed_strip_id by done.
    destruct name as [|c' name]; [done|].
    assert (c' :: name ∉ dict_keys acc) as Hfresh.
    { apply NoDup_app in Hnd as (_ & Hdisj & _). intros Hin.
      apply (Hdisj _ Hin). apply list_elem_of_here. }
    rewrite dict_set_fresh by done.
    rewrite IH.
    + by rewrite <- app_assoc.
    + rewrite dict_keys_app. cbn [dict_keys map fst].
      by rewrite <- app_assoc.
Qed.

Lemma mapping_text_parsed (mappings : list (str * str * str)) :
  mappings ≠ [] ->
  Forall entry_ok mappings ->
  NoDup (map (fun m => fst (fst m)) mappings) ->
  parse_mapping_lines (mapping_text mappings ++ [LF])
  = (map (fun m => (fst (fst m), snd (fst m))) mappings, None).
Proof.
  intros Hne Hok Hnd. unfold parse_mapping_lines, mapping_text.
  rewrite splitlines_join.
  - rewrite parse_lines_entries by done. cbn [app].
    by destruct mappings.
  - by destruct mappings.
  - rewrite Forall_map. eapply Forall_impl; [exact Hok|].
    intros [[name remark] p]. unfold entry_ok, mapping_line. cbn [fst snd].
    intros (_ & _ & _ & _ & Hn & Hr).
    unfold no_linebreak in *. rewrite !forallb_app, Hn, Hr. done.
Qed.

(** X19 — the dialog reads back what it wrote.  For a non-empty
    selection of rows with distinct names, every name non-empty, without
    blank at either end and without arrow, every remark without blank at
    its end, and no line boundary in either, the text the dialog starts
    with (followed by the line feed the widget appends) is parsed to the
    mapping from every name to its remark, in the order of the rows, and
    no message box is shown. *)
Theorem parse_mapping_lines_mapping_text (mappings : list (str * str * str)) :
  mappings ≠ [] ->
  Forall entry_ok mappings ->
  NoDup (map (fun m => fst (fst m)) mappings) ->
  parse_mapping_lines (mapping_text mappings ++ [LF])
  = (map (fun m => (fst (fst m), snd (fst m))) mappings, None).
Proof. apply mapping_text_parsed. Qed.

End MappingLines.

Lemma parse_mapping_lines_first_defect_witness :
  (split_arrow (strip (lit "zzz")) = None ->
   parse_mapping_lines
     (lit "x->1" ++ [LF; LF] ++ lit "zzz" ++ [LF] ++ lit "y->2" ++ [LF])
   = ([], Some (MissingArrow (length [lit "x->1"; []] + 1) (lit "zzz"))))
  ∧ (∀ name_part remark_part,
       split_arrow (strip (lit "zzz")) = Some (name_part, remark_part) ->
       strip name_part = [] ->
       parse_mapping_lines
         (lit "x->1" ++ [LF; LF] ++ lit "zzz" ++ [LF] ++ lit "y->2" ++ [LF])
       = ([], Some (EmptyName (length [lit "x->1"; []] + 1) (lit "zzz")))).
Proof.
  apply (parse_mapping_lines_first_defect
           (lit "x->1" ++ [LF; LF] ++ lit "zzz" ++ [LF] ++ lit "y->2" ++ [LF])
           [lit "x->1"; []] [lit "y->2"] (lit "zzz")).
  - vm_compute. reflexivity.
  - constructor; [|constructor; [|constructor]].
    + right. exists (lit "x"), (lit "1"). split; [vm_compute; reflexivity|].
      vm_compute. discriminate.
    + left. vm_compute. reflexivity.
  - vm_compute. discriminate.
Defined.

Lemma parse_mapping_lines_mapping_text_witness :
  parse_mapping_lines
    (mapping_text [(lit "a", lit "first", lit "C:\a");
                   (lit "b", [], lit "C:\b")] ++ [LF])
  = (map (fun m => (fst (fst m), snd (fst m)))
         [(lit "a", lit "first", lit "C:\a"); (lit "b", [], lit "C:\b")],
     None).
Proof.
  apply (parse_mapping_lines_mapping_text
           [(lit "a", lit "first", lit "C:\a"); (lit "b", [], lit "C:\b")]).
  - discriminate.
  - repeat constructor; vm_compute; discriminate.
  - apply NoDup_bool. vm_compute. reflexivity.
Defined.

(** ** Editing remarks in the table: [sync_remark_to_rows] *)

Section TableEdits.

Implicit Types (table : list (list str)) (rows : dict FolderRemark)
  (paths : list str) (remark k : str).

Lemma set_current_twice (row : FolderRemark) remark :
  set_current (set_current row remark) remark = set_current row remark.
Proof. done. Qed.

Lemma sync_rows_get table rows paths remark k :
  dict_get (snd (sync_remark_to_rows table rows paths remark)) k
  = if bool_decide (k ∈ paths ∧ k ∈ shown_paths table)
    then (fun row => set_current row remark) <$> dict_get rows k
    else dict_get rows k.
Proof.
  revert rows. induction table as [|values table IH]; intros rows.
  - cbn [sync_remark_to_rows snd shown_paths omap].
    rewrite bool_decide_eq_false_2; [done|]. intros [_ H].
    by apply elem_of_nil in H.
  - assert (∀ rows0 v,
              snd (let '(table', rows') :=
                     sync_remark_to_rows table rows0 paths remark in
                   (v :: table', rows'))
              = snd (sync_remark_to_rows table rows0 paths remark)) as Hsnd
      by (intros rows0 v; by destruct (sync_remark_to_rows _ _ _ _)).
    destruct values as [|v0 [|v1 [|p tl]]]; cbn [sync_remark_to_rows];
      try (rewrite Hsnd, IH; reflexivity).
    assert (shown_paths ((v0 :: v1 :: p :: tl) :: table)
            = p :: shown_paths table) as -> by done.
    destruct (bool_decide_reflect (p ∈ paths)) as [Hp|Hp]; cbv zeta;
      rewrite Hsnd, IH.
    + destruct (decide (k = p)) as [->|Hne].
      * rewrite (bool_decide_eq_true_2 (p ∈ paths ∧ p ∈ p :: shown_paths table))
          by (split; [done|apply list_elem_of_here]).
        destruct (dict_get rows p) as [row|] eqn:E.
        -- rewrite dict_get_set_eq. by case_bool_decide.
        -- rewrite E. by case_bool_decide.
      * assert (dict_get (match dict_get rows p with
                          | Some row =>
                              dict_set rows p (set_current row remark)
                          | None => rows
                          end) k = dict_get rows k) as ->.
        { destruct (dict_get rows p); [|done]. by apply dict_get_set_ne. }
        apply (f_equal (fun b : bool =>
                 if b then (fun row => set_current row remark)
                           <$> dict_get rows k else dict_get rows k)).
        apply bool_decide_ext. rewrite elem_of_cons. tauto.
    + apply (f_equal (fun b : bool =>
               if b then (fun row => set_current row remark)
                         <$> dict_get rows k else dict_get rows k)).
      apply bool_decide_ext. rewrite elem_of_cons. split; [tauto|].
      intros [Hk [->|Hin]]; tauto.
Qed.

Lemma sync_rows_keys table rows paths remark :
  dict_keys (snd (sync_remark_to_rows table rows paths remark))
  = dict_keys rows.
Proof.
  revert rows. induction table as [|values table IH]; intros rows; [done|].
  assert (∀ rows0 v,
            snd (let '(table', rows') :=
                   sync_remark_to_rows table rows0 paths remark in
                 (v :: table', rows'))
            = snd (sync_remark_to_rows table rows0 paths remark)) as Hsnd
    by (intros rows0 v; by destruct (sync_remark_to_rows _ _ _ _)).
  destruct values as [|v0 [|v1 [|p tl]]]; cbn [sync_remark_to_rows];
    try (by rewrite Hsnd, IH).
  destruct (bool_decide (p ∈ paths)); cbv zeta; rewrite Hsnd, IH; [|done].
  destruct (dict_get rows p) as [row|] eqn:E; [|done].
  by apply (dict_set_keys _ _ row).
Qed.

(** X20 — [sync_remark_to_rows] changes nothing but current remarks: the
    rows keep their keys and their order, and the row of a key is the
    former row with its current remark set to the new remark when the key
    is one of [paths] and shown in the table, and the former row
    otherwise; names, paths and original remarks are never touched. *)
Theorem sync_remark_to_rows_rows table rows paths remark :
  dict_keys (snd (sync_remark_to_rows table rows paths remark))
  = dict_keys rows
  ∧ ∀ k,
      dict_get (snd (sync_remark_to_rows table rows paths remark)) k
      = if bool_decide (k ∈ paths ∧ k ∈ shown_paths table)
        then (fun row => set_current row remark) <$> dict_get rows k
        else dict_get rows k.
Proof.
  split; [apply sync_rows_keys|]. intros k. apply sync_rows_get.
Qed.

End TableEdits.

(** ** The table stays in step with the rows *)

Section TableConsistency.

Implicit Types (table : list (list str)) (rows : dict FolderRemark)
  (paths : list str) (remark k : str).

Lemma sync_table table rows paths remark :
  fst (sync_remark_to_rows table rows paths remark)
  = map (fun values =>
           match values with
           | v0 :: _ :: p :: _ =>
               if bool_decide (p ∈ paths) then [v0; remark; p] else values
           | _ => values
           end) table.
Proof.
  revert rows. induction table as [|values table IH]; intros rows; [done|].
  assert (∀ rows0 v,
            fst (let '(table', rows') :=
                   sync_remark_to_rows table rows0 paths remark in
                 (v :: table', rows'))
            = v :: fst (sync_remark_to_rows table rows0 paths remark)) as Hfst
    by (intros rows0 v; by destruct (sync_remark_to_rows _ _ _ _)).
  destruct values as [|v0 [|v1 [|p tl]]]; cbn [sync_remark_to_rows map];
    try (by rewrite Hfst, IH).
  destruct (bool_decide (p ∈ paths)); cbv zeta; by rewrite Hfst, IH.
Qed.

Lemma shown_paths_elem table (v0 v1 p : str) (tl : list str) :
  v0 :: v1 :: p :: tl ∈ table -> p ∈ shown_paths table.
Proof.
  intros Hin. unfold shown_paths. apply list_elem_of_omap.
  by exists (v0 :: v1 :: p :: tl).
Qed.

(** X21 — a table that shows, for every item, the current remark of the
    row of its path still does so after [sync_remark_to_rows]: the
    displayed remark and the remark that will be saved never drift
    apart. *)
Theorem sync_remark_to_rows_consistent table rows paths remark :
  table_consistent table rows ->
  table_consistent (fst (sync_remark_to_rows table rows paths remark))
                   (snd (sync_remark_to_rows table rows paths remark)).
Proof.
  unfold table_consistent. intros Hcons. rewrite sync_table.
  rewrite Forall_map. rewrite Forall_forall in *. intros values Hin.
  specialize (Hcons values Hin).
  destruct values as [|v0 [|v1 [|p tl]]]; try done.
  pose proof (shown_paths_elem _ _ _ _ _ Hin) as Hshown.
  destruct (bool_decide_reflect (p ∈ paths)) as [Hp|Hp];
    cbn [shows] in *; intros row'; rewrite sync_rows_get.
  - rewrite bool_decide_eq_true_2 by done.
    destruct (dict_get rows p) as [row|]; [|done]. by intros [= <-].
  - rewrite bool_decide_eq_false_2 by tauto. apply Hcons.
Qed.

End TableConsistency.

Lemma sync_remark_to_rows_consistent_witness :
  table_consistent
    (fst (sync_remark_to_rows [[lit "a"; []; lit "C:\a"]]
            [(lit "C:\a", mkFolderRemark (lit "a") [lit "C:"; lit "a"] [] [])]
            [lit "C:\a"] (lit "note")))
    (snd (sync_remark_to_rows [[lit "a"; []; lit "C:\a"]]
            [(lit "C:\a", mkFolderRemark (lit "a") [lit "C:"; lit "a"] [] [])]
            [lit "C:\a"] (lit "note"))).
Proof.
  apply (sync_remark_to_rows_consistent [[lit "a"; []; lit "C:\a"]]
           [(lit "C:\a", mkFolderRemark (lit "a") [lit "C:"; lit "a"] [] [])]
           [lit "C:\a"] (lit "note")).
  constructor; [|constructor]. intros row H. vm_compute in H.
  by injection H as <-.
Defined.

(** ** Loading a directory into the window: [_load_directory] *)

Section Loading.

Variable mbcs_decode : bytes -> option str.
Variable path_str : Path -> str.

Implicit Types (table : list (list str)) (rows : dict FolderRemark)
  (w : world).

Lemma dict_set_Forall {V} (P : str * V -> Prop) (d : dict V) (k : str) (v : V) :
  Forall P d -> P (k, v) -> Forall P (dict_set d k v).
Proof.
  intros Hd Hkv. induction Hd as [|[k' v'] d Hk Hd IH]; cbn [dict_set].
  - by repeat constructor.
  - destruct (str_eqb k' k) eqn:E.
    + apply str_eqb_eq in E as ->. by constructor.
    + by constructor.
Qed.

Lemma load_rows_invariant (P : str * FolderRemark -> Prop)
    (Q : list str -> Prop) w subfolders table rows table' rows' :
  (∀ folder remark,
     read_info_tip mbcs_decode w folder = Ok remark ->
     P (path_str folder, mkFolderRemark (leaf folder) folder remark remark)
     ∧ Q [leaf folder; remark; path_str folder]) ->
  Forall P rows -> Forall Q table ->
  load_rows mbcs_decode path_str w subfolders table rows
  = (Ok tt, (table', rows')) ->
  Forall P rows' ∧ Forall Q table'.
Proof.
  intros Hnew. revert table rows.
  induction subfolders as [|folder rest IH]; intros table rows Hrows Htable.
  - cbn [load_rows]. by intros [= <- <-].
  - cbn [load_rows].
    destruct (read_info_tip mbcs_decode w folder) as [remark|e] eqn:Hread;
      [|done].
    destruct (Hnew _ _ Hread) as [HP HQ]. apply IH.
    + by apply dict_set_Forall.
    + apply Forall_app. split; [done|]. by repeat constructor.
Qed.

(** The window [_load_directory] leaves when it returns. *)
Lemma load_directory_clean (self : DesktopIniService) (os : Listing)
    w (dir : Path) table rows :
  _load_directory mbcs_decode path_str self os w dir = (Ok tt, (table, rows)) ->
  Forall (fun kv =>
            fst kv = path_str (path (snd kv))
            ∧ name (snd kv) = leaf (path (snd kv))
            ∧ read_info_tip mbcs_decode w (path (snd kv))
              = Ok (current_remark (snd kv))
            ∧ original_remark (snd kv) = current_remark (snd kv)) rows
  ∧ Forall (fun values =>
              ∃ folder remark,
                values = [leaf folder; remark; path_str folder]
                ∧ read_info_tip mbcs_decode w folder = Ok remark) table
  ∧ changed_rows rows = []
  ∧ ∀ w', _save_changes mbcs_decode rows w' = (mkSave rows [] [], w').
Proof.
  unfold _load_directory.
  destruct (list_subfolders self os dir) as [subfolders|e]; [|done].
  intros Hload.
  destruct (load_rows_invariant
              (fun kv =>
                 fst kv = path_str (path (snd kv))
                 ∧ name (snd kv) = leaf (path (snd kv))
                 ∧ read_info_tip mbcs_decode w (path (snd kv))
                   = Ok (current_remark (snd kv))
                 ∧ original_remark (snd kv) = current_remark (snd kv))
              (fun values =>
                 ∃ folder remark,
                   values = [leaf folder; remark; path_str folder]
                   ∧ read_info_tip mbcs_decode w folder = Ok remark)
              w subfolders [] [] table rows) as [Hrows Htable]; try done.
  { intros folder remark Hread. cbn [fst snd path name current_remark
      original_remark]. split; [done|]. by exists folder, remark. }
  split; [done|]. split; [done|].
  assert (changed_rows rows = []) as Hclean.
  { unfold changed_rows. clear -Hrows.
    induction Hrows as [|[k row] rows (_ & _ & _ & Heq) _ IH]; [done|].
    rewrite filter_cons_False; [exact IH|].
    cbn [snd] in *. unfold is_dirty. rewrite Heq, str_eqb_refl. by intros []. }
  split; [done|]. intros w'. unfold _save_changes. by rewrite Hclean.
Qed.

(** X22 — when [_load_directory] returns, every row of the window is
    clean and records what [read_info_tip] returned for its folder: its
    key is the path string of the folder, its name the leaf of the path,
    and its original and current remark are the remark read; every item
    of the table shows name, remark and path string of a folder read that
    way.  A save right after loading therefore finds nothing to write
    and leaves the file system alone. *)
Theorem load_directory_rows_clean (self : DesktopIniService) (os : Listing)
    w (dir : Path) table rows :
  _load_directory mbcs_decode path_str self os w dir = (Ok tt, (table, rows)) ->
  Forall (fun kv =>
            fst kv = path_str (path (snd kv))
            ∧ name (snd kv) = leaf (path (snd kv))
            ∧ read_info_tip mbcs_decode w (path (snd kv))
              = Ok (current_remark (snd kv))
            ∧ original_remark (snd kv) = current_remark (snd kv)) rows
  ∧ Forall (fun values =>
              ∃ folder remark,
                values = [leaf folder; remark; path_str folder]
                ∧ read_info_tip mbcs_decode w folder = Ok remark) table
  ∧ changed_rows rows = []
  ∧ ∀ w', _save_changes mbcs_decode rows w' = (mkSave rows [] [], w').
Proof. apply load_directory_clean. Qed.

(** X16 — the window after a batch save.  When there was something to
    save and a current directory, the save ends by loading the window
    again: if that returns, the file system is as the loop of the save
    left it, the table and the rows are those of the reload, every row
    is clean and holds the remark [read_info_tip] returns for its folder
    after the save, and a second save has nothing to write.  So the edit
    of a row whose write failed is gone from the window: the row shows
    the remark on disk, or is not there when its folder is no longer
    listed. *)
Theorem save_changes_reloads_window (self : DesktopIniService)
    (os : Listing) (dir : Path) table rows w table' rows' w' :
  changed_rows rows ≠ [] ->
  _save_changes_reload mbcs_decode path_str self os (Some dir) table rows w
  = (Ok tt, (table', rows'), w') ->
  w' = snd (_save_changes mbcs_decode rows w)
  ∧ _load_directory mbcs_decode path_str self os w' dir
    = (Ok tt, (table', rows'))
  ∧ Forall (fun kv =>
              fst kv = path_str (path (snd kv))
              ∧ read_info_tip mbcs_decode w' (path (snd kv))
                = Ok (current_remark (snd kv))
              ∧ original_remark (snd kv) = current_remark (snd kv)) rows'
  ∧ changed_rows rows' = []
  ∧ _save_changes_reload mbcs_decode path_str self os (Some dir) table' rows'
      w'
    = (Ok tt, (table', rows'), w').
Proof.
  intros Hdirty. unfold _save_changes_reload at 1.
  destruct (changed_rows rows) as [|key keys] eqn:Hchanged; [done|].
  destruct (_save_changes mbcs_decode rows w) as [st w0] eqn:Hsave.
  intros [= Hload <-]. cbn [snd].
  destruct (load_directory_clean self os w0 dir table' rows' Hload)
    as (Hrows & _ & Hclean & _).
  split; [done|]. split; [done|]. split; [|split; [done|]].
  - eapply Forall_impl; [exact Hrows|]. intros kv (? & _ & ? & ?). done.
  - unfold _save_changes_reload. by rewrite Hclean.
Qed.

End Loading.

Lemma load_directory_rows_clean_witness :
  let path_str := fun p : Path => join (lit "\") p in
  let os := mkListing (fun _ => true)
                      (fun _ => Scan [mkEntry (lit "docs") (Ok true)]) in
  let loaded :=
    snd (_load_directory Samples.latin1 path_str EnumerationSample.service os
           Samples.icon_and_tip [lit "C:"]) in
  fst loaded = [[lit "docs"; lit "old"; lit "C:\docs"]]
  ∧ Forall (fun kv =>
              fst kv = path_str (path (snd kv))
              ∧ name (snd kv) = leaf (path (snd kv))
              ∧ read_info_tip Samples.latin1 Samples.icon_and_tip
                  (path (snd kv))
                = Ok (current_remark (snd kv))
              ∧ original_remark (snd kv) = current_remark (snd kv))
           (snd loaded)
  ∧ changed_rows (snd loaded) = [].
Proof.
  cbv zeta. split; [vm_compute; reflexivity|].
  destruct (load_directory_rows_clean Samples.latin1
              (fun p : Path => join (lit "\") p)
              EnumerationSample.service
              (mkListing (fun _ => true)
                 (fun _ => Scan [mkEntry (lit "docs") (Ok true)]))
              Samples.icon_and_tip [lit "C:"]
              (fst (snd (_load_directory Samples.latin1
                           (fun p : Path => join (lit "\") p)
                           EnumerationSample.service
                           (mkListing (fun _ => true)
                              (fun _ => Scan [mkEntry (lit "docs") (Ok true)]))
                           Samples.icon_and_tip [lit "C:"])))
              (snd (snd (_load_directory Samples.latin1
                           (fun p : Path => join (lit "\") p)
                           EnumerationSample.service
                           (mkListing (fun _ => true)
                              (fun _ => Scan [mkEntry (lit "docs") (Ok true)]))
                           Samples.icon_and_tip [lit "C:"]))))
    as (Hrows & _ & Hclean & _).
  - vm_compute. reflexivity.
  - split; [exact Hrows|exact Hclean].
Defined.

Lemma save_changes_reloads_window_witness :
  let path_str := fun p : Path => join (lit "\") p in
  let os := mkListing (fun _ => true)
                      (fun _ => Scan [mkEntry (lit "a") (Ok true);
                                      mkEntry (lit "c") (Ok true)]) in
  let saved :=
    _save_changes_reload Samples.latin1 path_str EnumerationSample.service
      os (Some [lit "C:"]) [] BatchSample.rows BatchSample.disk in
  fst (fst saved) = Ok tt
  ∧ dict_keys (snd (snd (fst saved))) = [lit "C:\a"; lit "C:\c"]
  ∧ Forall (fun kv =>
              fst kv = path_str (path (snd kv))
              ∧ read_info_tip Samples.latin1 (snd saved) (path (snd kv))
                = Ok (current_remark (snd kv))
              ∧ original_remark (snd kv) = current_remark (snd kv))
           (snd (snd (fst saved)))
  ∧ changed_rows (snd (snd (fst saved))) = [].
Proof.
  cbv zeta.
  set (path_str := fun p : Path => join (lit "\") p).
  set (os := mkListing (fun _ => true)
                       (fun _ => Scan [mkEntry (lit "a") (Ok true);
                                       mkEntry (lit "c") (Ok true)])).
  set (saved := _save_changes_reload Samples.latin1 path_str
                  EnumerationSample.service os (Some [lit "C:"]) []
                  BatchSample.rows BatchSample.disk).
  assert (fst (fst saved) = Ok tt) as Hok by (vm_compute; reflexivity).
  split; [exact Hok|]. split; [vm_compute; reflexivity|].
  destruct (save_changes_reloads_window Samples.latin1 path_str
              EnumerationSample.service os [lit "C:"] [] BatchSample.rows
              BatchSample.disk (fst (snd (fst saved)))
              (snd (snd (fst saved))) (snd saved))
    as (_ & _ & Hrows & Hclean & _).
  - intros H. vm_compute in H. discriminate H.
  - fold saved. rewrite <- Hok.
    rewrite <- !surjective_pairing. reflexivity.
  - split; [exact Hrows|exact Hclean].
Defined.

(** ** The Apply button of the mapping dialog: [apply_callback] *)

Section ApplyMapping.

Implicit Types (table : list (list str)) (rows : dict FolderRemark)
  (info : dict (str * str)) (entries : dict str) (rep : MappingReport)
  (mappings : list (str * str * str)).

Lemma same_but_current_refl rows : same_but_current rows rows.
Proof. split; [done|]. intros k row Hrow. by exists row. Qed.

Lemma same_but_current_trans rows rows1 rows2 :
  same_but_current rows rows1 -> same_but_current rows1 rows2 ->
  same_but_current rows rows2.
Proof.
  intros [Hk1 H1] [Hk2 H2]. split; [by rewrite Hk2|].
  intros k row2 Hrow2.
  destruct (H2 _ _ Hrow2) as (row1 & Hrow1 & Hn & Hp & Ho).
  destruct (H1 _ _ Hrow1) as (row & Hrow & Hn' & Hp' & Ho').
  exists row. repeat split; congruence.
Qed.

Lemma sync_same_but_current table rows paths remark :
  same_but_current rows (snd (sync_remark_to_rows table rows paths remark)).
Proof.
  split; [apply sync_rows_keys|]. intros k row'. rewrite sync_rows_get.
  case_bool_decide; [|by exists row'].
  destruct (dict_get rows k) as [row|]; [|done].
  intros [= <-]. by exists row.
Qed.

Lemma apply_entries_invariant info entries table rows rep :
  applied (snd (apply_entries info entries table rows rep))
  ++ unchanged (snd (apply_entries info entries table rows rep))
  ++ extra (snd (apply_entries info entries table rows rep))
  ≡ₚ (applied rep ++ unchanged rep ++ extra rep) ++ dict_keys entries
  ∧ (Forall (fun n => dict_mem info n = false) (extra rep) ->
     Forall (fun n => dict_mem info n = false)
            (extra (snd (apply_entries info entries table rows rep))))
  ∧ (Forall (fun n => dict_mem info n = true)
            (applied rep ++ unchanged rep) ->
     Forall (fun n => dict_mem info n = true)
            (applied (snd (apply_entries info entries table rows rep))
             ++ unchanged (snd (apply_entries info entries table rows rep))))
  ∧ same_but_current rows
      (snd (fst (apply_entries info entries table rows rep))).
Proof.
  revert table rows rep.
  induction entries as [|[nm remark] entries IH]; intros table rows rep.
  - cbn [apply_entries fst snd dict_keys map]. rewrite app_nil_r.
    split; [done|]. split; [done|]. split; [done|].
    apply same_but_current_refl.
  - cbn [apply_entries dict_keys map fst].
    destruct (dict_get info nm) as [[current p]|] eqn:Hinfo.
    + assert (dict_mem info nm = true) as Hmem
        by (unfold dict_mem; by rewrite Hinfo).
      destruct (str_eqb remark current).
      * destruct (IH table rows
                    (mkReport (applied rep) (unchanged rep ++ [nm])
                              (extra rep) (missing rep)))
          as (Hperm & Hext & Hsel & Hrows).
        cbn [applied unchanged extra] in *.
        split; [rewrite Hperm; solve_Permutation|]. split; [done|].
        split; [|done]. intros Hok. apply Hsel.
        rewrite app_assoc. apply Forall_app. split; [done|].
        by repeat constructor.
      * destruct (sync_remark_to_rows table rows [p] remark)
          as [table' rows'] eqn:Hsync.
        destruct (IH table' rows'
                    (mkReport (applied rep ++ [nm]) (unchanged rep)
                              (extra rep) (missing rep)))
          as (Hperm & Hext & Hsel & Hrows).
        cbn [applied unchanged extra] in *.
        split; [rewrite Hperm; solve_Permutation|]. split; [done|].
        split.
        -- intros Hok. apply Hsel. apply Forall_app in Hok as [Ha Hu].
           apply Forall_app. split; [|done]. apply Forall_app.
           split; [done|]. by repeat constructor.
        -- eapply same_but_current_trans; [|exact Hrows].
           pose proof (sync_same_but_current table rows [p] remark) as H.
           by rewrite Hsync in H.
    + assert (dict_mem info nm = false) as Hmem
        by (unfold dict_mem; by rewrite Hinfo).
      destruct (IH table rows
                  (mkReport (applied rep) (unchanged rep)
                            (extra rep ++ [nm]) (missing rep)))
        as (Hperm & Hext & Hsel & Hrows).
      cbn [applied unchanged extra] in *.
      split; [rewrite Hperm; solve_Permutation|]. split; [|done].
      intros Hok. apply Hext. apply Forall_app. split; [done|].
      by repeat constructor.
Qed.

(** X23 — the report of the Apply button classifies every name of the
    text exactly once: the names applied, unchanged and extra are
    together a rearrangement of the names of the mapping; the extra ones
    are those not among the selected rows, the others are among them; and
    whatever was applied, the rows of the window keep their keys, names,
    paths and original remarks. *)
Theorem apply_entries_report info entries table rows :
  dict_keys entries
  ≡ₚ applied (snd (apply_entries info entries table rows
                      (mkReport [] [] [] [])))
     ++ unchanged (snd (apply_entries info entries table rows
                          (mkReport [] [] [] [])))
     ++ extra (snd (apply_entries info entries table rows
                      (mkReport [] [] [] [])))
  ∧ Forall (fun n => dict_mem info n = false)
           (extra (snd (apply_entries info entries table rows
                          (mkReport [] [] [] []))))
  ∧ Forall (fun n => dict_mem info n = true)
           (applied (snd (apply_entries info entries table rows
                            (mkReport [] [] [] [])))
            ++ unchanged (snd (apply_entries info entries table rows
                                 (mkReport [] [] [] []))))
  ∧ same_but_current rows
      (snd (fst (apply_entries info entries table rows
                   (mkReport [] [] [] [])))).
Proof.
  destruct (apply_entries_invariant info entries table rows
              (mkReport [] [] [] [])) as (Hperm & Hext & Hsel & Hrows).
  cbn [applied unchanged extra app] in *.
  split; [by rewrite Hperm|]. split; [by apply Hext|].
  split; [by apply Hsel|done].
Qed.

Lemma filter_present_nil (d : dict str) (l : list str) :
  Forall (fun n => dict_mem d n = true) l ->
  filter (fun n => negb (dict_mem d n)) l = [].
Proof.
  induction 1 as [|n l Hn _ IH]; [done|].
  rewrite filter_cons_False; [exact IH|]. rewrite Hn. by intros [].
Qed.

Lemma name_to_info_from mappings (acc : dict (str * str)) :
  NoDup (dict_keys acc ++ map (fun m => fst (fst m)) mappings) ->
  fold_left (fun d m => dict_set d (fst (fst m)) (snd (fst m), snd m))
            mappings acc
  = acc ++ map (fun m => (fst (fst m), (snd (fst m), snd m))) mappings.
Proof.
  revert acc. induction mappings as [|m mappings IH]; intros acc Hnd.
  - by rewrite app_nil_r.
  - cbn [fold_left map].
    assert (fst (fst m) ∉ dict_keys acc) as Hfresh.
    { apply NoDup_app in Hnd as (_ & Hdisj & _). intros Hin.
      apply (Hdisj _ Hin). apply list_elem_of_here. }
    rewrite dict_set_fresh by done. rewrite IH.
    + by rewrite <- app_assoc.
    + rewrite dict_keys_app. cbn [dict_keys map fst].
      by rewrite <- app_assoc.
Qed.

Lemma apply_entries_all_unchanged info mappings table rows rep :
  (∀ m, m ∈ mappings ->
        dict_get info (fst (fst m)) = Some (snd (fst m), snd m)) ->
  apply_entries info (map (fun m => (fst (fst m), snd (fst m))) mappings)
                table rows rep
  = (table, rows,
     mkReport (applied rep)
              (unchanged rep ++ map (fun m => fst (fst m)) mappings)
              (extra rep) (missing rep)).
Proof.
  revert rep. induction mappings as [|m mappings IH]; intros rep Hinfo.
  - cbn [map apply_entries]. rewrite app_nil_r. by destruct rep.
  - cbn [map apply_entries].
    rewrite (Hinfo m) by apply list_elem_of_here. rewrite str_eqb_refl.
    rewrite IH by (intros m' Hm'; by apply Hinfo, list_elem_of_further).
    cbn [applied unchanged extra missing]. by rewrite <- app_assoc.
Qed.

(** X24 — pressing Apply on the text the dialog started with changes
    nothing: for a non-empty selection of rows with distinct names whose
    lines are read back as written, the table and the rows are left as
    they are, every name is reported as unchanged, none as applied,
    missing or extra, and the dialog is closed. *)
Theorem apply_callback_untouched mappings table rows :
  mappings ≠ [] ->
  Forall entry_ok mappings ->
  NoDup (map (fun m => fst (fst m)) mappings) ->
  apply_callback mappings (mapping_text mappings ++ [LF]) table rows
  = (table, rows,
     Reported (mkReport [] (map (fun m => fst (fst m)) mappings) [] [])
              true).
Proof.
  intros Hne Hok Hnd. unfold apply_callback.
  rewrite mapping_text_parsed by done.
  destruct mappings as [|m0 ms]; [done|].
  set (mappings := m0 :: ms) in *.
  change (map (fun m => (fst (fst m), snd (fst m))) mappings)
    with ((fst (fst m0), snd (fst m0))
          :: map (fun m => (fst (fst m), snd (fst m))) ms) at 1.
  cbv beta iota zeta.
  change ((fst (fst m0), snd (fst m0))
          :: map (fun m => (fst (fst m), snd (fst m))) ms)
    with (map (fun m : str * str * str => (fst (fst m), snd (fst m)))
              mappings).
  assert (name_to_info mappings
          = map (fun m => (fst (fst m), (snd (fst m), snd m))) mappings)
    as Hinfo by (apply (name_to_info_from mappings []); done).
  rewrite apply_entries_all_unchanged.
  2: { intros m Hm. rewrite Hinfo. apply dict_get_elem.
       - unfold dict_keys. rewrite map_map. done.
       - apply list_elem_of_fmap. by exists m. }
  cbn [applied unchanged extra missing app].
  rewrite filter_present_nil; [done|].
  rewrite Hinfo. unfold dict_keys at 1. rewrite map_map. cbn [fst].
  rewrite Forall_forall. intros nm Hnm. apply dict_mem_elem.
  unfold dict_keys. by rewrite map_map.
Qed.

End ApplyMapping.

Lemma apply_callback_untouched_witness :
  apply_callback
    [(lit "a", lit "first", lit "C:\a"); (lit "b", [], lit "C:\b")]
    (mapping_text [(lit "a", lit "first", lit "C:\a");
                   (lit "b", [], lit "C:\b")] ++ [LF])
    [[lit "a"; lit "first"; lit "C:\a"]; [lit "b"; []; lit "C:\b"]] []
  = ([[lit "a"; lit "first"; lit "C:\a"]; [lit "b"; []; lit "C:\b"]], [],
     Reported
       (mkReport []
          (map (fun m => fst (fst m))
               [(lit "a", lit "first", lit "C:\a"); (lit "b", [], lit "C:\b")])
          [] [])
       true).
Proof.
  apply (apply_callback_untouched
           [(lit "a", lit "first", lit "C:\a"); (lit "b", [], lit "C:\b")]).
  - discriminate.
  - repeat constructor; vm_compute; discriminate.
  - apply NoDup_bool. vm_compute. reflexivity.
Defined.

(** ** The two ends of the rendezvous socket *)

Section Utf8RoundTrip.

Import Codec.

Lemma div_4096 (c : N) : c / 4096 = c / 64 / 64.
Proof. rewrite N.Div0.div_div. reflexivity. Qed.

Lemma div_262144 (c : N) : c / 262144 = c / 64 / 64 / 64.
Proof. rewrite !N.Div0.div_div. reflexivity. Qed.

Ltac decide_tests :=
  repeat match goal with
  | |- context [?a <? ?b] =>
      first [ rewrite (proj2 (N.ltb_lt a b)) by lia
            | rewrite (proj2 (N.ltb_ge a b)) by lia ]
  | |- context [?a <=? ?b] =>
      first [ rewrite (proj2 (N.leb_le a b)) by lia
            | rewrite (proj2 (N.leb_gt a b)) by lia ]
  end.

(** Decoding undoes the encoding of one character. *)
Lemma utf8_decode_char (c : N) (b r : bytes) :
  utf8_char c = Some b ->
  utf8_decode (b ++ r) = cons c <$> utf8_decode r.
Proof.
  unfold utf8_char.
  destruct (is_surrogate c) eqn:Hsur; [done|].
  destruct (c <? 0x80) eqn:H1.
  { intros [= <-]. cbn [app utf8_decode]. by rewrite H1. }
  apply N.ltb_ge in H1.
  pose proof (N.div_mod c 64 ltac:(lia)) as Hc.
  pose proof (N.mod_lt c 64 ltac:(lia)) as Hm0.
  pose proof (N.div_mod (c / 64) 64 ltac:(lia)) as Ha.
  pose proof (N.mod_lt (c / 64) 64 ltac:(lia)) as Hm1.
  pose proof (N.div_mod (c / 64 / 64) 64 ltac:(lia)) as Hb.
  pose proof (N.mod_lt (c / 64 / 64) 64 ltac:(lia)) as Hm2.
  unfold is_surrogate in Hsur.
  assert (c < 0xD800 ∨ 0xDFFF < c) as Hout.
  { apply andb_false_iff in Hsur as [H|H]; apply N.leb_gt in H; lia. }
  clear Hsur.
  rewrite div_262144, div_4096.
  set (m0 := c mod 64) in *. set (a := c / 64) in *.
  set (m1 := a mod 64) in *. set (a2 := a / 64) in *.
  set (m2 := a2 mod 64) in *. set (a3 := a2 / 64) in *.
  clearbody m0 a m1 a2 m2 a3.
  destruct (c <? 0x800) eqn:H2.
  { apply N.ltb_lt in H2. intros [= <-]. cbn [app utf8_decode].
    unfold is_cont. decide_tests. cbn [andb]. do 2 f_equal. lia. }
  apply N.ltb_ge in H2.
  destruct (c <? 0x10000) eqn:H3.
  { apply N.ltb_lt in H3. intros [= <-]. cbn [app utf8_decode].
    unfold is_cont, is_surrogate.
    destruct Hout; decide_tests; cbn [andb negb]; do 2 f_equal; lia. }
  apply N.ltb_ge in H3.
  destruct (c <=? 0x10FFFF) eqn:H4; [|done].
  apply N.leb_le in H4. intros [= <-]. cbn [app utf8_decode].
  unfold is_cont. decide_tests. cbn [andb]. do 2 f_equal. lia.
Qed.

(** What utf-8 encodes, it decodes to the same text. *)
Lemma utf8_decode_encode (s : str) (data : bytes) :
  utf8_encode s = Some data -> utf8_decode data = Some s.
Proof.
  revert data. induction s as [|c s IH]; intros data; cbn [utf8_encode].
  - by intros [= <-].
  - destruct (utf8_char c) as [b|] eqn:Hc; [|done].
    destruct (utf8_encode s) as [bs|]; [|done].
    intros [= <-]. rewrite (utf8_decode_char c b bs Hc).
    by rewrite (IH bs).
Qed.

End Utf8RoundTrip.

Section Forwarded.

(** X25 — the two ends of the rendezvous socket fit together: when
    [send_payload] returns [True], the bytes it wrote are the utf-8
    encoding of the payload, and an accepting loop whose [recv] returns
    these bytes hands the payload, stripped of surrounding whitespace, to
    the handler; a payload of whitespace only is ignored, and nothing is
    logged as an error. *)
Theorem send_payload_then_handle (net : Endpoint) (payload : str) :
  send_payload net payload = Ok true ->
  ∃ data, Codec.utf8_encode payload = Some data
    ∧ sendall net data = None
    ∧ handle_connection data
      = match strip payload with
        | [] => Ignored
        | text => Delivered text
        end.
Proof.
  unfold send_payload.
  destruct (create_connection net) as [[]|]; [done..|].
  destruct (Codec.utf8_encode payload) as [data|] eqn:Henc; [|done].
  destruct (sendall net data) as [[]|] eqn:Hsend; [done..|].
  intros _. exists data. split; [done|]. split; [done|].
  unfold handle_connection. by rewrite (utf8_decode_encode payload data Henc).
Qed.

End Forwarded.

Lemma send_payload_then_handle_witness :
  ∃ data, Codec.utf8_encode (lit " C:\Users ") = Some data
    ∧ sendall listening_endpoint data = None
    ∧ handle_connection data
      = match strip (lit " C:\Users ") with
        | [] => Ignored
        | text => Delivered text
        end.
Proof.
  apply (send_payload_then_handle listening_endpoint (lit " C:\Users ")).
  vm_compute. reflexivity.
Defined.

(** ** Drive strings: [list_drives] *)

Section Drives.

Lemma split_nul_item (cur d rest : str) :
  NUL ∉ d ->
  split_nul_from cur (d ++ NUL :: rest)
  = (rev cur ++ d) :: split_nul_from [] rest.
Proof.
  revert cur. induction d as [|c d IH]; intros cur Hd.
  - cbn [app split_nul_from]. change (NUL =? NUL) with true. cbv iota.
    by rewrite app_nil_r.
  - cbn [app split_nul_from].
    assert ((c =? NUL) = false) as ->.
    { apply N.eqb_neq. intros ->. apply Hd, list_elem_of_here. }
    rewrite IH by (intros H; by apply Hd, list_elem_of_further).
    cbn [rev]. by rewrite <- app_assoc.
Qed.

Lemma split_nul_pad (pad : nat) :
  split_nul_from [] (replicate pad NUL) = replicate (S pad) [].
Proof.
  induction pad as [|pad IH]; [done|].
  cbn [replicate split_nul_from]. change (NUL =? NUL) with true. cbv iota.
  cbn [rev]. by rewrite IH.
Qed.

Lemma filter_nonempty_replicate (n : nat) :
  filter (fun item : str => item ≠ []) (replicate n []) = [].
Proof.
  induction n as [|n IH]; [done|].
  cbn [replicate]. by rewrite filter_cons_False by (intros H; by apply H).
Qed.

Lemma not_elem_of_bool (x : N) (l : list N) :
  bool_decide (x ∈ l) = false -> x ∉ l.
Proof. apply bool_decide_eq_false_1. Qed.

(** X26 — [list_drives] reads the drive strings back from the buffer:
    for drive strings that are not empty and hold no NUL, laid out one
    after the other with a NUL after each and any number of NULs at the
    end, it returns exactly these strings, in their order, and no empty
    string for the padding. *)
Theorem list_drives_drive_strings (drives : list str) (pad : nat) :
  Forall drive_ok drives ->
  list_drives (drive_strings drives pad) = drives.
Proof.
  unfold list_drives, drive_strings. intros Hok.
  induction Hok as [|d drives [Hne Hnul] _ IH].
  - cbn [map concat app]. rewrite split_nul_pad. apply filter_nonempty_replicate.
  - cbn [map concat]. rewrite <- !app_assoc. cbn [app].
    rewrite split_nul_item by done. cbn [rev app].
    rewrite filter_cons_True by done. f_equal. apply IH.
Qed.

End Drives.

Lemma list_drives_drive_strings_witness :
  list_drives (drive_strings [lit "C:\"; lit "D:\"] 1) = [lit "C:\"; lit "D:\"].
Proof.
  apply (list_drives_drive_strings [lit "C:\"; lit "D:\"] 1).
  repeat constructor; try discriminate;
    apply (not_elem_of_bool NUL); vm_compute; reflexivity.
Defined.

(** ** The path argument of the command line: [_normalize_path_arg] *)

Section PathArgument.

Variable resolve : str -> result Path.
Variable warning : str.

Lemma rev_reverse {A} (l : list A) : rev l = reverse l.
Proof. apply rev_alt. Qed.

Lemma lstrip_quote_replicate (k : nat) (s : str) :
  lstrip_quote (replicate k QUOTE ++ s) = lstrip_quote s.
Proof. induction k as [|k IH]; [done|]. cbn [replicate app lstrip_quote]. done. Qed.

Lemma lstrip_quote_other (c : N) (s : str) :
  c ≠ QUOTE -> lstrip_quote (c :: s) = c :: s.
Proof. intros Hc. cbn [lstrip_quote]. by apply N.eqb_neq in Hc as ->. Qed.

Lemma lstrip_quote_head (s : str) : head (lstrip_quote s) ≠ Some QUOTE.
Proof.
  induction s as [|c s IH]; [done|]. cbn [lstrip_quote].
  destruct (c =? QUOTE) eqn:E; [done|].
  apply N.eqb_neq in E. cbn [head]. congruence.
Qed.

Lemma lstrip_quote_suffix (s : str) :
  ∃ k, s = replicate k QUOTE ++ lstrip_quote s.
Proof.
  induction s as [|c s [k IH]]; [by exists 0%nat|]. cbn [lstrip_quote].
  destruct (c =? QUOTE) eqn:E.
  - apply N.eqb_eq in E as ->. exists (S k). cbn [replicate app]. by f_equal.
  - by exists 0%nat.
Qed.

(** What [strip] of the quote character leaves neither starts nor ends
    with a quote. *)
Lemma strip_quote_ends (s : str) :
  head (strip_quote s) ≠ Some QUOTE ∧ last (strip_quote s) ≠ Some QUOTE.
Proof.
  unfold strip_quote. split; [apply lstrip_quote_head|].
  set (u := lstrip_quote (rev s)).
  destruct (lstrip_quote_suffix (rev u)) as [k Hk].
  destruct (last (lstrip_quote (rev u))) as [y|] eqn:Hlast; [|done].
  assert (last (rev u) = Some y) as Hy.
  { rewrite Hk, last_app. by rewrite Hlast. }
  rewrite rev_reverse, last_reverse in Hy. rewrite <- Hy.
  apply lstrip_quote_head.
Qed.

Lemma strip_quote_quoted (i j : nat) (d : N) :
  d ≠ QUOTE ->
  strip_quote (replicate i QUOTE ++ [d; COLON_CHAR] ++ replicate j QUOTE)
  = [d; COLON_CHAR].
Proof.
  intros Hd. unfold strip_quote.
  rewrite !rev_reverse, !reverse_app, !reverse_replicate.
  rewrite <- app_assoc, lstrip_quote_replicate.
  change (reverse [d; COLON_CHAR]) with [COLON_CHAR; d]. cbn [app].
  rewrite lstrip_quote_other by done.
  change (COLON_CHAR :: d :: replicate i QUOTE)
    with ([COLON_CHAR; d] ++ replicate i QUOTE).
  rewrite reverse_app, reverse_replicate.
  rewrite lstrip_quote_replicate.
  change (reverse [COLON_CHAR; d]) with [d; COLON_CHAR].
  by rewrite lstrip_quote_other.
Qed.

(** X27 — what [_normalize_path_arg] asks the file system to resolve: for
    an argument that is blank once whitespace and quotes are stripped it
    returns neither path nor warning and resolves nothing; otherwise the
    text it resolves is not empty, neither starts nor ends with a quote,
    and is never a bare drive designator (two characters ending in a
    colon), and the result is the resolved path without warning, or the
    warning without path when resolving raises. *)
Theorem normalize_path_arg_resolves (raw : str) :
  (strip_quote (strip raw) = []
   ∧ _normalize_path_arg resolve warning raw = (None, None))
  ∨ ∃ text,
      text ≠ [] ∧ head text ≠ Some QUOTE ∧ last text ≠ Some QUOTE
      ∧ ¬ (length text = 2%nat ∧ last text = Some COLON_CHAR)
      ∧ _normalize_path_arg resolve warning raw
        = match resolve text with
          | Ok p => (Some p, None)
          | Raise _ => (None, Some warning)
          end.
Proof.
  unfold _normalize_path_arg.
  destruct (strip_quote_ends (strip raw)) as [Hhead Hlast].
  destruct (strip_quote (strip raw)) as [|c text] eqn:Htext; [by left|].
  right.
  destruct ((length (c :: text) =? 2)%nat
            && (List.last (c :: text) 0 =? COLON_CHAR)) eqn:Hbare.
  - exists ((c :: text) ++ [BACKSLASH]). split; [done|]. split; [done|].
    split; [by rewrite last_snoc|]. split; [|done].
    apply andb_true_iff in Hbare as [Hlen _]. apply Nat.eqb_eq in Hlen.
    rewrite length_app. cbn [length] in *. lia.
  - exists (c :: text). split; [done|]. split; [done|]. split; [done|].
    split; [|done]. intros [Hlen Hcolon].
    apply andb_false_iff in Hbare as [H|H].
    + apply Nat.eqb_neq in H. done.
    + apply N.eqb_neq in H. apply H.
      apply last_Some in Hcolon as [l' ->]. apply last_last.
Qed.

(** X28 — a bare drive designator is opened at the root of the drive:
    when the argument, stripped of whitespace, is one character and a
    colon, within any number of quotes on either side (the form in which
    a quoted drive root reaches the program), the text resolved is that
    character, the colon and a backslash. *)
Theorem normalize_path_arg_bare_drive (raw : str) (d : N) (i j : nat) :
  d ≠ QUOTE ->
  strip raw = replicate i QUOTE ++ [d; COLON_CHAR] ++ replicate j QUOTE ->
  _normalize_path_arg resolve warning raw
  = match resolve [d; COLON_CHAR; BACKSLASH] with
    | Ok p => (Some p, None)
    | Raise _ => (None, Some warning)
    end.
Proof.
  intros Hd Hraw. unfold _normalize_path_arg.
  rewrite Hraw, strip_quote_quoted by done. reflexivity.
Qed.

End PathArgument.

Lemma normalize_path_arg_bare_drive_witness :
  _normalize_path_arg (fun text => Ok [text]) (lit "invalid path")
    (lit " C:" ++ [QUOTE; SPACE])
  = match (fun text : str => Ok [text]) [67; COLON_CHAR; BACKSLASH] with
    | Ok p => (Some p, None)
    | Raise _ => (None, Some (lit "invalid path"))
    end.
Proof.
  apply (normalize_path_arg_bare_drive (fun text => Ok [text])
           (lit "invalid path") (lit " C:" ++ [QUOTE; SPACE]) 67 0 1).
  - discriminate.
  - vm_compute. reflexivity.
Defined.
